(** * MP4 box walking, fast-start relocation and track audit

    A shallow embedding of [scripts/video/faststart_mp4.py] and
    [scripts/video/audit_mp4_keyframes.py].

    Python [int] is [Z]; [bytes] and [bytearray] are [list byte]; a [str]
    is the list of its Unicode code points; the [dict] built by
    [find_top_level_atoms] is a [gmap]; the [set] [ContainerBoxes] is a
    [gset].  A [bytearray] that is mutated in place is threaded through
    the functions that mutate it, and an exception that escapes such a
    function carries the buffer as it stood when the exception was
    raised. *)

From Stdlib Require Import ZArith Lia List Strings.Byte Ascii String.
From stdpp Require Import base tactics option list gmap.

Local Open Scope Z_scope.

(** ** Python primitives *)

Abbreviation bytes := (list byte).

(** A Python [str]: its code points. *)
Abbreviation str := (list N).

Definition lit (s : string) : str :=
  map N_of_ascii (list_ascii_of_string s).

Definition byte_val (b : byte) : Z := Z.of_N (Byte.to_N b).

Definition byte_of_Z (z : Z) : byte :=
  match Byte.of_N (Z.to_N z) with
  | Some b => b
  | None => "000"%byte
  end.

Definition len (b : bytes) : Z := Z.of_nat (length b).

(** [slice.indices]: a bound of a slice, clamped the way Python clamps it
    (a negative bound counts from the end). *)
Definition clamp (n i : Z) : Z :=
  if i <? 0 then Z.max 0 (i + n) else Z.min i n.

(** [b[lo:hi]] *)
Definition slice (b : bytes) (lo hi : Z) : bytes :=
  let lo' := clamp (len b) lo in
  let hi' := clamp (len b) hi in
  take (Z.to_nat (hi' - lo')) (drop (Z.to_nat lo') b).

(** [b[:hi]] and [b[lo:]] *)
Definition slice_to (b : bytes) (hi : Z) : bytes := slice b 0 hi.
Definition slice_from (b : bytes) (lo : Z) : bytes := slice b lo (len b).

(** [b[lo:hi] = v] on a bytearray *)
Definition set_slice (b : bytes) (lo hi : Z) (v : bytes) : bytes :=
  let lo' := clamp (len b) lo in
  let hi' := Z.max lo' (clamp (len b) hi) in
  take (Z.to_nat lo') b ++ v ++ drop (Z.to_nat hi') b.

(** [int.from_bytes(b, "big", signed=False)] *)
Definition from_bytes (b : bytes) : Z :=
  fold_left (fun acc x => acc * 256 + byte_val x) b 0.

Fixpoint le_bytes (n : nat) (v : Z) : bytes :=
  match n with
  | O => []
  | S k => byte_of_Z (v mod 256) :: le_bytes k (v / 256)
  end.

(** [v.to_bytes(n, "big", signed=False)]; [None] is [OverflowError]. *)
Definition to_bytes (n : nat) (v : Z) : option bytes :=
  if (0 <=? v) && (v <? 256 ^ Z.of_nat n)
  then Some (rev (le_bytes n v))
  else None.

(** [b.decode("ascii", errors="replace")]: a byte that is not ASCII
    becomes U+FFFD. *)
Definition decode_char (b : byte) : N :=
  if (Byte.to_N b <? 128)%N then Byte.to_N b else 65533%N.

Definition decode (b : bytes) : str := map decode_char b.

(** [range(n)] *)
Definition range (n : Z) : list Z := map Z.of_nat (seq 0 (Z.to_nat n)).

(** ** Both scripts: integer readers and the box walker

    [_u32], [_u64] and [iter_boxes] are defined in both scripts, with the
    same bodies. *)

Definition _u32 (b : bytes) : Z := from_bytes b.
Definition _u64 (b : bytes) : Z := from_bytes b.

(** What [iter_boxes] yields: [(typ, box_start, box_size, header_size)]. *)
Record box := Box {
  box_typ : str;
  box_start : Z;
  box_size : Z;
  box_header : Z
}.

(** The size and header length read at cursor [i]; [None] is the [break]
    of the extended-size branch. *)
Definition read_size (buf : bytes) (i e : Z) : option (Z * Z) :=
  let size32 := _u32 (slice buf i (i + 4)) in
  if size32 =? 1 then
    if i + 16 >? e then None
    else Some (_u64 (slice buf (i + 8) (i + 16)), 16)
  else if size32 =? 0 then Some (e - i, 8)
  else Some (size32, 8).

(** One turn of the [while] body of [iter_boxes] at cursor [i]: the box
    yielded, or [None] when the body breaks. *)
Definition read_box (buf : bytes) (i e : Z) : option box :=
  let typ := decode (slice buf (i + 4) (i + 8)) in
  match read_size buf i e with
  | None => None
  | Some (size, header) =>
      if size <? header then None
      else if i + size >? e then None
      else Some (Box typ i size header)
  end.

Fixpoint iter_boxes_loop (fuel : nat) (buf : bytes) (i e : Z) : list box :=
  match fuel with
  | O => []
  | S fuel' =>
      if i + 8 <=? e then
        match read_box buf i e with
        | None => []
        | Some b => b :: iter_boxes_loop fuel' buf (i + box_size b) e
        end
      else []
  end.

(** [iter_boxes(buf, start, end)], as the list of what it yields.  Every
    turn moves the cursor at least 8 bytes towards [e], so [e - start]
    turns are enough: [iter_boxes_unfold] below is the loop of the
    source. *)
Definition iter_boxes (buf : bytes) (start e : Z) : list box :=
  iter_boxes_loop (Z.to_nat (e - start)) buf start e.

(** The [(start, size, header_size)] of a box, as both scripts store it. *)
Abbreviation span := (Z * Z * Z)%type.

Definition span_of (b : box) : span := (box_start b, box_size b, box_header b).

(** ** faststart_mp4.py *)

Definition ContainerBoxes : gset str :=
  list_to_set
    [ lit "moov"; lit "trak"; lit "mdia"; lit "minf"; lit "stbl";
      lit "edts"; lit "dinf"; lit "udta"; lit "meta"; lit "ilst" ].

Definition _p32 (v : Z) : option bytes := to_bytes 4 v.
Definition _p64 (v : Z) : option bytes := to_bytes 8 v.

(** [find_top_level_atoms]: each box overwrites the entry of its tag. *)
Definition find_top_level_atoms (buf : bytes) : gmap str span :=
  fold_left (fun out b => <[box_typ b := span_of b]> out)
            (iter_boxes buf 0 (len buf)) ∅.

(** How a run over the bytearray [moov] ends: it returns, or
    [OverflowError] escapes from [_p32] or [_p64] ([Raised]), or
    [RecursionError] from a call of [recurse] that the interpreter's
    stack has no room for; either way the bytearray is what the run made
    of it. *)
Inductive ran :=
| Done (moov : bytes)
| Raised (moov : bytes)
| Raised_RecursionError (moov : bytes).

Definition and_then (r : ran) (k : bytes -> ran) : ran :=
  match r with
  | Done moov => k moov
  | Raised moov => Raised moov
  | Raised_RecursionError moov => Raised_RecursionError moov
  end.

(** [for i in ks: body] *)
Fixpoint for_each (ks : list Z) (body : Z -> bytes -> ran) (moov : bytes) : ran :=
  match ks with
  | [] => Done moov
  | i :: ks' => and_then (body i moov) (for_each ks' body)
  end.

(** The [stco] branch of [recurse]. *)
Definition patch_stco (delta data_start data_end : Z) (moov : bytes) : ran :=
  if data_start + 8 >? data_end then Done moov
  else
    let entry_count := _u32 (slice moov (data_start + 4) (data_start + 8)) in
    let table_start := data_start + 8 in
    let table_bytes := entry_count * 4 in
    if table_start + table_bytes >? data_end then Done moov
    else
      for_each (range entry_count)
        (fun i moov =>
           let off := table_start + i * 4 in
           let val := _u32 (slice moov off (off + 4)) in
           match _p32 (val + delta) with
           | None => Raised moov
           | Some v => Done (set_slice moov off (off + 4) v)
           end) moov.

(** The [co64] branch of [recurse]. *)
Definition patch_co64 (delta data_start data_end : Z) (moov : bytes) : ran :=
  if data_start + 8 >? data_end then Done moov
  else
    let entry_count := _u32 (slice moov (data_start + 4) (data_start + 8)) in
    let table_start := data_start + 8 in
    let table_bytes := entry_count * 8 in
    if table_start + table_bytes >? data_end then Done moov
    else
      for_each (range entry_count)
        (fun i moov =>
           let off := table_start + i * 8 in
           let val := _u64 (slice moov off (off + 8)) in
           match _p64 (val + delta) with
           | None => Raised moov
           | Some v => Done (set_slice moov off (off + 8) v)
           end) moov.

(** The body of the [for] of [recurse] for one yielded box, given how a
    nested [recurse] runs. *)
Definition visit (rec : bytes -> Z -> Z -> ran) (delta : Z) (b : box)
    (moov : bytes) : ran :=
  let data_start := box_start b + box_header b in
  let data_end := box_start b + box_size b in
  if bool_decide (box_typ b ∈ ContainerBoxes) then
    if bool_decide (box_typ b = lit "meta") then
      if data_start + 4 <=? data_end
      then rec moov (data_start + 4) data_end
      else Done moov
    else rec moov data_start data_end
  else if bool_decide (box_typ b = lit "stco") then
    patch_stco delta data_start data_end moov
  else if bool_decide (box_typ b = lit "co64") then
    patch_co64 delta data_start data_end moov
  else Done moov.

(** A call of the nested function [recurse].  [recurse] calls itself for
    each box it descends into, and nothing in the source bounds the
    nesting: the bound is the recursion limit of the interpreter, which
    raises [RecursionError] in a call that would pass it.  A call of
    [recurse] holds one frame of the stack while it runs, and each call
    it makes ([iter_boxes] and its resumptions, [_u32], [_p32] and the
    like, a nested [recurse]) one more on top.  So a call is either one
    that the stack has room for together with the calls it makes, and
    runs its loop, or one that raises [RecursionError] before it has read
    or written anything: at its own entry, or where it calls
    [iter_boxes].  [frames] counts the former: the number of calls of
    [recurse], nested in one another, that the stack has room for. *)
Definition call (frames : nat) (body : nat -> bytes -> Z -> Z -> ran)
    (moov : bytes) (region_start region_end : Z) : ran :=
  match frames with
  | O => Raised_RecursionError moov
  | S frames' => body frames' moov region_start region_end
  end.

(** The [for] of one call of [recurse], from cursor [i] of the generator
    [iter_boxes(moov, _, e)], when the stack has room for [frames] calls
    nested in this one.  The generator is lazy and [moov] is mutated
    while it is suspended: each header is read from the bytearray as it
    is when the generator resumes. *)
Fixpoint recurse_loop (fuel frames : nat) (delta : Z) (moov : bytes) (i e : Z)
    : ran :=
  match fuel with
  | O => Done moov
  | S fuel' =>
      if i + 8 <=? e then
        match read_box moov i e with
        | None => Done moov
        | Some b =>
            and_then
              (visit (call frames (fun frames' => recurse_loop fuel' frames' delta))
                     delta b moov)
              (fun moov' => recurse_loop fuel' frames delta moov' (i + box_size b) e)
        end
      else Done moov
  end.

(** [recurse(region_start, region_end, parent_type)]; [parent_type] is
    not read.  A nested region and the rest of the region are both
    shorter than the region, so [region_end - region_start] is enough
    fuel: [recurse_unfold] below is the loop of the source. *)
Definition recurse (frames : nat) (delta : Z) (moov : bytes)
    (region_start region_end : Z) : ran :=
  call frames
       (fun frames' moov region_start region_end =>
          recurse_loop (Z.to_nat (region_end - region_start)) frames' delta moov
                       region_start region_end)
       moov region_start region_end.

(** [adjust_chunk_offsets(moov, delta)], called when the stack has room
    for [frames] nested calls of [recurse]. *)
Definition adjust_chunk_offsets (frames : nat) (moov : bytes) (delta : Z) : ran :=
  recurse frames delta moov 0 (len moov).

Definition moov_is_faststart (buf : bytes) (moov_start mdat_start : Z) : bool :=
  (moov_start >=? 0) && ((mdat_start <? 0) || (moov_start <? mdat_start)).

(** How [process_file] ends: it raises one of its three [RuntimeError]s,
    returns early, lets the [OverflowError] or the [RecursionError] of
    the offset rewriter through, or writes.  [Wrote rebuilt check]:
    [rebuilt] was written to the new file; [check] is the
    [(new_moov_start, new_mdat_start)] of the line printed afterwards, or
    [None] when [check_atoms["moov"]] raises [KeyError]. *)
Inductive outcome :=
| Missing_atoms
| Already_faststart
| Invalid_ftyp
| Unexpected_layout
| Overflow
| Recursion
| Wrote (rebuilt : bytes) (check : option (Z * Z)).

Definition written (o : outcome) : option bytes :=
  match o with
  | Wrote rebuilt _ => Some rebuilt
  | _ => None
  end.

(** [process_file], on the bytes of the file, when the stack has room
    for [frames] nested calls of [recurse] as it calls
    [adjust_chunk_offsets]. *)
Definition process_file (frames : nat) (data : bytes) : outcome :=
  let atoms := find_top_level_atoms data in
  match atoms !! lit "moov", atoms !! lit "ftyp" with
  | Some (moov_start, moov_size, _), Some (ftyp_start, ftyp_size, _) =>
      let '(mdat_start, _, _) := default (-1, -1, -1) (atoms !! lit "mdat") in
      if moov_is_faststart data moov_start mdat_start then Already_faststart
      else
        let insert_at := ftyp_start + ftyp_size in
        if (insert_at <=? 0) || (insert_at >? len data) then Invalid_ftyp
        else if moov_start <? insert_at then Unexpected_layout
        else
          let moov_bytes := slice data moov_start (moov_start + moov_size) in
          let delta := moov_size in
          match adjust_chunk_offsets frames moov_bytes delta with
          | Raised _ => Overflow
          | Raised_RecursionError _ => Recursion
          | Done moov_bytes =>
              let rebuilt :=
                slice_to data insert_at
                ++ moov_bytes
                ++ slice data insert_at moov_start
                ++ slice_from data (moov_start + moov_size) in
              let check_atoms := find_top_level_atoms rebuilt in
              Wrote rebuilt
                match check_atoms !! lit "moov" with
                | None => None
                | Some (new_moov_start, _, _) =>
                    let '(new_mdat_start, _, _) :=
                      default (-1, -1, -1) (check_atoms !! lit "mdat") in
                    Some (new_moov_start, new_mdat_start)
                end
          end
  | _, _ => Missing_atoms
  end.

(** ** audit_mp4_keyframes.py *)

(** What a lookup returns, or the [IndexError] of [path[idx]]. *)
Inductive lookup :=
| Raise_IndexError
| Return (r : option span).

(** [walk(region_start, region_end, idx)] of [find_first], with
    [want = path[idx]] and [rest = path[idx + 1:]]; [idx == len(path) - 1]
    is [rest = []]. *)
Fixpoint walk (buf : bytes) (want : str) (rest : list str)
    (region_start region_end : Z) : option span :=
  (fix loop (boxes : list box) : option span :=
     match boxes with
     | [] => None
     | b :: boxes' =>
         if negb (bool_decide (box_typ b = want)) then loop boxes'
         else
           match rest with
           | [] => Some (span_of b)
           | want' :: rest' =>
               let data_start := box_start b + box_header b in
               let data_end := box_start b + box_size b in
               if bool_decide (box_typ b = lit "meta") then
                 if data_start + 4 <=? data_end
                 then walk buf want' rest' (data_start + 4) data_end
                 else None
               else walk buf want' rest' data_start data_end
           end
     end) (iter_boxes buf region_start region_end).

Definition find_first (buf : bytes) (path : list str) : lookup :=
  match path with
  | [] => Raise_IndexError
  | want :: rest => Return (walk buf want rest 0 (len buf))
  end.

(** [None] is [ValueError]. *)
Definition parse_mdhd (buf : bytes) (start size header : Z) : option (Z * Z) :=
  let data := slice buf (start + header) (start + size) in
  if len data <? 4 then None
  else
    let version := byte_val (nth 0 data "000"%byte) in
    if version =? 1 then
      if len data <? 32 then None
      else Some (_u32 (slice data 20 24), _u64 (slice data 24 32))
    else if len data <? 20 then None
    else Some (_u32 (slice data 12 16), _u32 (slice data 16 20)).

Definition parse_hdlr_handler_type (buf : bytes) (start size header : Z) : str :=
  let data := slice buf (start + header) (start + size) in
  if len data <? 12 then lit ""
  else decode (slice data 8 12).

(** [for t, s, sz, h in boxes: if t == tag: found = (s, sz, h); break]
    after [found = None]. *)
Fixpoint first_tagged (tag : str) (boxes : list box) : option span :=
  match boxes with
  | [] => None
  | b :: boxes' =>
      if bool_decide (box_typ b = tag) then Some (span_of b)
      else first_tagged tag boxes'
  end.

(** The [for] of [locate_video_trak] over the children of [moov]. *)
Fixpoint scan_traks (buf : bytes) (boxes : list box) : lookup :=
  match boxes with
  | [] => Return None
  | b :: boxes' =>
      if negb (bool_decide (box_typ b = lit "trak")) then scan_traks buf boxes'
      else
        match find_first (slice buf (box_start b) (box_start b + box_size b))
                         [lit "trak"; lit "mdia"; lit "hdlr"] with
        | Raise_IndexError => Raise_IndexError
        | Return _ =>
            let trak_data_start := box_start b + box_header b in
            let trak_data_end := box_start b + box_size b in
            match first_tagged (lit "mdia")
                    (iter_boxes buf trak_data_start trak_data_end) with
            | None => scan_traks buf boxes'
            | Some (mdia_start, mdia_size, mdia_header) =>
                let mdia_data_start := mdia_start + mdia_header in
                let mdia_data_end := mdia_start + mdia_size in
                match first_tagged (lit "hdlr")
                        (iter_boxes buf mdia_data_start mdia_data_end) with
                | None => scan_traks buf boxes'
                | Some (hdlr_start, hdlr_size, hdlr_header) =>
                    let handler :=
                      parse_hdlr_handler_type buf hdlr_start hdlr_size hdlr_header in
                    if bool_decide (handler = lit "vide")
                    then Return (Some (span_of b))
                    else scan_traks buf boxes'
                end
            end
        end
  end.

Definition locate_video_trak (buf : bytes) : lookup :=
  match find_first buf [lit "moov"] with
  | Raise_IndexError => Raise_IndexError
  | Return None => Return None
  | Return (Some (moov_start, moov_size, moov_header)) =>
      let moov_data_start := moov_start + moov_header in
      let moov_data_end := moov_start + moov_size in
      scan_traks buf (iter_boxes buf moov_data_start moov_data_end)
  end.

(** ** Notions the statements use *)

(** [cursor buf e start i pre]: walking the region [start, e) of [buf],
    the generator has come to cursor [i] and has yielded [pre] so far. *)
Inductive cursor (buf : bytes) (e start : Z) : Z -> list box -> Prop :=
| cursor_start : cursor buf e start start []
| cursor_step i pre b :
    cursor buf e start i pre ->
    i + 8 <= e ->
    read_box buf i e = Some b ->
    cursor buf e start (i + box_size b) (pre ++ [b]).

(** The handler type that [locate_video_trak] reads for a [trak] box: the
    one of the first [hdlr] of its first [mdia]; [None] when the [trak]
    has no [mdia], or that [mdia] no [hdlr]. *)
Definition trak_handler (buf : bytes) (trak : box) : option str :=
  match first_tagged (lit "mdia")
          (iter_boxes buf (box_start trak + box_header trak)
                          (box_start trak + box_size trak)) with
  | None => None
  | Some (mdia_start, mdia_size, mdia_header) =>
      match first_tagged (lit "hdlr")
              (iter_boxes buf (mdia_start + mdia_header)
                              (mdia_start + mdia_size)) with
      | None => None
      | Some (hdlr_start, hdlr_size, hdlr_header) =>
          Some (parse_hdlr_handler_type buf hdlr_start hdlr_size hdlr_header)
      end
  end.

Definition is_video_trak (buf : bytes) (b : box) : Prop :=
  box_typ b = lit "trak" /\ trak_handler buf b = Some (lit "vide").

(** [agree b b' lo hi]: the two buffers hold the same bytes at the
    positions of [lo, hi). *)
Definition agree (b b' : bytes) (lo hi : Z) : Prop :=
  forall p : nat, lo <= Z.of_nat p < hi -> b !! p = b' !! p.

(** Entry [k] of a table of [w]-byte entries that starts at [table_start]. *)
Definition entry (w table_start : Z) (moov : bytes) (k : Z) : Z :=
  from_bytes (slice moov (table_start + k * w) (table_start + k * w + w)).

(** The body of the [for i in range(entry_count)] of [recurse], for
    entries of [w] bytes: the [stco] branch has [w = 4], the [co64]
    branch [w = 8]. *)
Definition patch_entry (w : nat) (delta table_start i : Z) (moov : bytes) : ran :=
  let off := table_start + i * Z.of_nat w in
  let val := from_bytes (slice moov off (off + Z.of_nat w)) in
  match to_bytes w (val + delta) with
  | None => Raised moov
  | Some v => Done (set_slice moov off (off + Z.of_nat w) v)
  end.

(** The table of a box with data in [data_start, data_end), with entries
    of [w] bytes: [(w, table_start, entry_count)], or [None] when the box
    has no room for the entry count or the entries it declares. *)
Definition table_in (w : Z) (moov : bytes) (data_start data_end : Z)
    : option (Z * Z * Z) :=
  if data_start + 8 >? data_end then None
  else
    let entry_count := _u32 (slice moov (data_start + 4) (data_start + 8)) in
    if data_start + 8 + entry_count * w >? data_end then None
    else Some (w, data_start + 8, entry_count).

(** The chunk-offset table of a box: that of an [stco] or a [co64]. *)
Definition table_of (moov : bytes) (b : box) : option (Z * Z * Z) :=
  let data_start := box_start b + box_header b in
  let data_end := box_start b + box_size b in
  if bool_decide (box_typ b = lit "stco") then table_in 4 moov data_start data_end
  else if bool_decide (box_typ b = lit "co64") then table_in 8 moov data_start data_end
  else None.

(** The region of the children of a box whose tag is in [ContainerBoxes];
    [None] for any other box, and for a [meta] with less than 4 bytes of
    data. *)
Definition children (b : box) : option (Z * Z) :=
  let data_start := box_start b + box_header b in
  let data_end := box_start b + box_size b in
  if bool_decide (box_typ b ∈ ContainerBoxes) then
    if bool_decide (box_typ b = lit "meta") then
      if data_start + 4 <=? data_end then Some (data_start + 4, data_end)
      else None
    else Some (data_start, data_end)
  else None.

(** The boxes reachable in a region through boxes whose tags are in
    [ContainerBoxes]: the boxes of the region, and those reachable in the
    children of one of them. *)
Inductive reachable (moov : bytes) : Z -> Z -> box -> Prop :=
| reachable_here rs re b :
    b ∈ iter_boxes moov rs re -> reachable moov rs re b
| reachable_below rs re c cs ce b :
    c ∈ iter_boxes moov rs re ->
    children c = Some (cs, ce) ->
    reachable moov cs ce b ->
    reachable moov rs re b.

(** Position [p] lies in the chunk-offset table of a box reachable in the
    region. *)
Definition in_table (moov : bytes) (rs re : Z) (p : Z) : Prop :=
  exists b w table_start entry_count,
    reachable moov rs re b /\
    table_of moov b = Some (w, table_start, entry_count) /\
    table_start <= p < table_start + entry_count * w.

(** [effect delta moov R lo hi moov']: what a run that walked the
    positions of [lo, hi) and met the boxes of [R] has made of [moov]:
    the entries of the tables of these boxes have grown by [delta], and
    every other byte is as it was. *)
Definition effect (delta : Z) (moov : bytes) (R : box -> Prop) (lo hi : Z)
    (moov' : bytes) : Prop :=
  length moov' = length moov /\
  agree moov' moov 0 lo /\
  agree moov' moov hi (len moov) /\
  (forall b w table_start entry_count k,
      R b -> table_of moov b = Some (w, table_start, entry_count) ->
      0 <= k < entry_count ->
      entry w table_start moov' k = entry w table_start moov k + delta) /\
  (forall p : nat,
      lo <= Z.of_nat p < hi ->
      ~ (exists b w table_start entry_count,
            R b /\ table_of moov b = Some (w, table_start, entry_count) /\
            table_start <= Z.of_nat p < table_start + entry_count * w) ->
      moov' !! p = moov !! p) /\
  (forall b,
      R b -> box_typ b ∉ ContainerBoxes -> table_of moov b = None ->
      agree moov' moov (box_start b) (box_start b + box_size b)).

(** The boxes reachable through one box [b0]: itself and the boxes
    reachable in its children. *)
Definition below (moov : bytes) (b0 b : box) : Prop :=
  b = b0 \/ exists cs ce, children b0 = Some (cs, ce) /\ reachable moov cs ce b.

(** Some entry of a table reachable in the region, with [delta] added,
    does not fit the width of its entries. *)
Definition overflows (delta : Z) (moov : bytes) (rs re : Z) : Prop :=
  exists b w table_start entry_count k,
    reachable moov rs re b /\
    table_of moov b = Some (w, table_start, entry_count) /\
    0 <= k < entry_count /\
    ~ 0 <= entry w table_start moov k + delta < 256 ^ w.

(** The bytearray a run leaves. *)
Definition buffer (r : ran) : bytes :=
  match r with
  | Done moov => moov
  | Raised moov => moov
  | Raised_RecursionError moov => moov
  end.

(** [too_deep moov frames rs re]: a call of [recurse] over the region
    asks for more nested calls than [frames]: none at all can be made
    ([frames] is 0), or a box of the region has children and the call
    over these asks for more than [frames - 1]. *)
Inductive too_deep (moov : bytes) : nat -> Z -> Z -> Prop :=
| too_deep_call rs re : too_deep moov 0 rs re
| too_deep_below frames rs re c cs ce :
    c ∈ iter_boxes moov rs re ->
    children c = Some (cs, ce) ->
    too_deep moov frames cs ce ->
    too_deep moov (S frames) rs re.

(** Builders of test inputs: [n] big-endian bytes of [v], the four bytes
    of a tag, and a box with an 8-byte header around a payload. *)
Definition be (n : nat) (v : Z) : bytes := rev (le_bytes n v).

Definition tag (s : string) : bytes :=
  map byte_of_ascii (list_ascii_of_string s).

Definition mkbox (t : string) (payload : bytes) : bytes :=
  be 4 (8 + len payload) ++ tag t ++ payload.

(** A test file: [moov] with an audio [trak], a [trak] without [mdia] and
    a video [trak]. *)
Definition hdlr_box (handler : string) : bytes :=
  mkbox "hdlr" (be 4 0 ++ be 4 0 ++ tag handler).

Definition three_traks : bytes :=
  mkbox "moov"
    (mkbox "trak" (mkbox "mdia" (hdlr_box "soun"))
     ++ mkbox "trak" []
     ++ mkbox "trak" (mkbox "mdia" (hdlr_box "vide"))).

(** A test box: an [mdhd] whose version byte is 2, with timescale 1000 and
    duration 5000 where version 0 has them. *)
Definition mdhd_v2 : bytes :=
  mkbox "mdhd" (be 1 2 ++ be 3 0 ++ be 4 0 ++ be 4 0 ++ be 4 1000 ++ be 4 5000).

(** Test boxes: an [stco] and a [co64] holding the given offsets. *)
Definition stco_box (vs : list Z) : bytes :=
  mkbox "stco" (be 4 0 ++ be 4 (Z.of_nat (length vs)) ++ flat_map (be 4) vs).

Definition co64_box (vs : list Z) : bytes :=
  mkbox "co64" (be 4 0 ++ be 4 (Z.of_nat (length vs)) ++ flat_map (be 8) vs).

(** A [moov] whose only chunk offset is the largest 32-bit number. *)
Definition moov_full : bytes := mkbox "moov" (stco_box [2 ^ 32 - 1]).

(** A [moov] with an [stco] and a [co64] below [trak/mdia/minf/stbl], and
    an [stco] that declares more entries than it has room for. *)
Definition moov_ok : bytes :=
  mkbox "moov"
    (mkbox "trak"
       (mkbox "mdia"
          (mkbox "minf"
             (mkbox "stbl" (stco_box [100; 200] ++ co64_box [2 ^ 40]))))
     ++ mkbox "stco" (be 4 0 ++ be 4 3 ++ be 4 7)).

(** A [moov] with two tracks: the [stco] of the first can take a delta of
    1, the [co64] of the second cannot. *)
Definition moov_two : bytes :=
  mkbox "moov"
    (mkbox "trak" (stco_box [100; 200])
     ++ mkbox "trak" (co64_box [2 ^ 64 - 1])).

(** A test file with two top-level [moov] boxes after [mdat]; the [stco]
    of the first holds 1, that of the second holds 2. *)
Definition two_moovs : bytes :=
  mkbox "ftyp" (be 4 0)
  ++ mkbox "mdat" (be 4 0)
  ++ mkbox "moov" (stco_box [1])
  ++ mkbox "moov" (stco_box [2]).

(** A test file that is already fast-start, one without [mdat], and one
    with [moov] after [mdat]. *)
Definition fast_file : bytes :=
  mkbox "ftyp" (be 4 0) ++ mkbox "moov" (stco_box [40]) ++ mkbox "mdat" (be 4 0).

Definition no_mdat_file : bytes :=
  mkbox "ftyp" (be 4 0) ++ mkbox "free" [] ++ mkbox "moov" (stco_box [40]).

Definition slow_file : bytes :=
  mkbox "ftyp" (be 4 0) ++ mkbox "free" [] ++ mkbox "mdat" (be 4 0)
  ++ mkbox "moov" (stco_box [28]) ++ mkbox "free" (be 4 9).


(** [contiguous i bs]: the boxes [bs] lie one after the other from [i],
    each at least 8 bytes long. *)
Fixpoint contiguous (i : Z) (bs : list box) : Prop :=
  match bs with
  | [] => True
  | b :: bs' =>
      box_start b = i /\ 8 <= box_size b /\ contiguous (i + box_size b) bs'
  end.

(** A test region: an [ftyp] of 8 bytes, then an [mdat] whose size field is
    0, with 4 bytes of data. *)
Definition open_mdat : bytes :=
  mkbox "ftyp" [] ++ be 4 0 ++ tag "mdat" ++ be 4 7.

(** ** audit_mp4_keyframes.py: the sample tables *)

Definition parse_stsz_sample_count (buf : bytes) (start size header : Z) : Z :=
  let data := slice buf (start + header) (start + size) in
  if len data <? 12 then 0
  else _u32 (slice data 8 12).

Definition parse_stss_sync_count (buf : bytes) (start size header : Z) : Z :=
  let data := slice buf (start + header) (start + size) in
  if len data <? 8 then 0
  else _u32 (slice data 4 8).

(** A test box: an [mdhd] of version 1, with timescale 600 and duration
    2^33. *)
Definition mdhd_v1 : bytes :=
  mkbox "mdhd"
    (be 1 1 ++ be 3 0 ++ be 8 0 ++ be 8 0 ++ be 4 600 ++ be 8 (2 ^ 33)).

(** Test boxes: an [stsz] and an [stss] with the given counts. *)
Definition stsz_box (sample_count : Z) : bytes :=
  mkbox "stsz" (be 4 0 ++ be 4 0 ++ be 4 sample_count).

Definition stss_box (sync_count : Z) : bytes :=
  mkbox "stss" (be 4 0 ++ be 4 sync_count).

(** Test files: one whose [ftyp] comes after [mdat] and [moov], and one
    without [ftyp]. *)
Definition late_ftyp_file : bytes :=
  mkbox "mdat" (be 4 0) ++ mkbox "moov" (stco_box [1]) ++ mkbox "ftyp" (be 4 0).

Definition no_ftyp_file : bytes :=
  mkbox "mdat" (be 4 0) ++ mkbox "moov" (stco_box [1]).

(** [n] boxes tagged [udta], each the only child of the one before,
    around an [stco] with the one entry 100. *)
Definition nested_udta (n : nat) : bytes :=
  Nat.iter n (mkbox "udta") (stco_box [100]).

(** A file whose [moov], after [mdat], holds [n] nested [udta] boxes. *)
Definition deep_file (n : nat) : bytes :=
  mkbox "ftyp" (be 4 0) ++ mkbox "mdat" (be 4 0) ++ mkbox "moov" (nested_udta n).

(** ** audit_mp4_keyframes.py: the audit of a file *)

(** How [audit_file] ends: one of its three messages, an exception, or the
    line of figures.  That line is computed, in floating point, from the
    four numbers read from the file; the embedding stops at these
    numbers. *)
Inductive audit :=
| Audit_IndexError
| No_video_track
| Missing_mdia
| Missing_mdhd_stsz
| Audit_ValueError
| Report (timescale duration_units sample_count sync_count : Z).

(** The [for] over the children of [stbl]: no [break]. *)
Fixpoint scan_stbl (boxes : list box) (stsz_box stss_box : option span)
    : option span * option span :=
  match boxes with
  | [] => (stsz_box, stss_box)
  | b :: boxes' =>
      let stsz_box :=
        if bool_decide (box_typ b = lit "stsz") then Some (span_of b)
        else stsz_box in
      let stss_box :=
        if bool_decide (box_typ b = lit "stss") then Some (span_of b)
        else stss_box in
      scan_stbl boxes' stsz_box stss_box
  end.

(** The [for] over the children of [mdia]: no [break] either. *)
Fixpoint scan_mdia (buf : bytes) (boxes : list box)
    (mdhd_box stsz_box stss_box : option span)
    : option span * option span * option span :=
  match boxes with
  | [] => (mdhd_box, stsz_box, stss_box)
  | b :: boxes' =>
      let mdhd_box :=
        if bool_decide (box_typ b = lit "mdhd") then Some (span_of b)
        else mdhd_box in
      let '(stsz_box, stss_box) :=
        if bool_decide (box_typ b = lit "minf") then
          let minf_data_start := box_start b + box_header b in
          let minf_data_end := box_start b + box_size b in
          match first_tagged (lit "stbl")
                  (iter_boxes buf minf_data_start minf_data_end) with
          | Some (stbl_start, stbl_size, stbl_header) =>
              let stbl_data_start := stbl_start + stbl_header in
              let stbl_data_end := stbl_start + stbl_size in
              scan_stbl (iter_boxes buf stbl_data_start stbl_data_end)
                        stsz_box stss_box
          | None => (stsz_box, stss_box)
          end
        else (stsz_box, stss_box) in
      scan_mdia buf boxes' mdhd_box stsz_box stss_box
  end.

Definition audit_file (buf : bytes) : audit :=
  match locate_video_trak buf with
  | Raise_IndexError => Audit_IndexError
  | Return None => No_video_track
  | Return (Some (trak_start, trak_size, trak_header)) =>
      let trak_data_start := trak_start + trak_header in
      let trak_data_end := trak_start + trak_size in
      match first_tagged (lit "mdia")
              (iter_boxes buf trak_data_start trak_data_end) with
      | None => Missing_mdia
      | Some (mdia_start, mdia_size, mdia_header) =>
          let mdia_data_start := mdia_start + mdia_header in
          let mdia_data_end := mdia_start + mdia_size in
          match scan_mdia buf (iter_boxes buf mdia_data_start mdia_data_end)
                  None None None with
          | (Some (mdhd_start, mdhd_size, mdhd_header),
             Some (stsz_start, stsz_size, stsz_header), stss_box) =>
              match parse_mdhd buf mdhd_start mdhd_size mdhd_header with
              | None => Audit_ValueError
              | Some (timescale, duration_units) =>
                  let sample_count :=
                    parse_stsz_sample_count buf stsz_start stsz_size stsz_header in
                  let sync_count :=
                    match stss_box with
                    | Some (stss_start, stss_size, stss_header) =>
                        parse_stss_sync_count buf stss_start stss_size stss_header
                    | None => 0
                    end in
                  Report timescale duration_units sample_count sync_count
              end
          | _ => Missing_mdhd_stsz
          end
      end
  end.

(** The last box of [boxes] that bears [tag]. *)
Definition last_tagged (tag : str) (boxes : list box) : option span :=
  first_tagged tag (rev boxes).

(** The test file of the audit: a video track with timescale 1000,
    duration 5000, 150 samples and 5 sync samples, after an [mdat]. *)
Definition mdhd_v0 (timescale duration : Z) : bytes :=
  mkbox "mdhd" (be 4 0 ++ be 4 0 ++ be 4 0 ++ be 4 timescale ++ be 4 duration).

Definition video_file : bytes :=
  mkbox "ftyp" (be 4 0)
  ++ mkbox "mdat" (be 4 0)
  ++ mkbox "moov"
       (mkbox "trak"
          (mkbox "mdia"
             (hdlr_box "vide"
              ++ mdhd_v0 1000 5000
              ++ mkbox "minf" (mkbox "stbl" (stsz_box 150 ++ stss_box 5))))).

(** Membership in the walk of a given buffer, by running the walk. *)
Ltac in_walk := apply list_elem_of_In; vm_compute; tauto.

(** * Integers and bytes *)

Section Bytes.

Lemma byte_val_range b : 0 <= byte_val b < 256.
Proof.
  unfold byte_val. pose proof (Byte.to_N_bounded b). lia.
Qed.

Lemma byte_val_of_Z z : 0 <= z < 256 -> byte_val (byte_of_Z z) = z.
Proof.
  intros Hz. unfold byte_val, byte_of_Z.
  destruct (Byte.of_N (Z.to_N z)) as [b|] eqn:E.
  - apply Byte.to_of_N in E. lia.
  - apply Byte.of_N_None_iff in E. lia.
Qed.

Lemma fold_from_bytes b : forall acc,
  fold_left (fun acc x => acc * 256 + byte_val x) b acc
  = acc * 256 ^ Z.of_nat (length b) + from_bytes b.
Proof.
  unfold from_bytes.
  induction b as [|x b IH]; intros acc; simpl fold_left.
  - simpl. lia.
  - rewrite IH, (IH (0 * 256 + byte_val x)).
    replace (Z.of_nat (length (x :: b))) with (Z.succ (Z.of_nat (length b)))
      by (simpl; lia).
    rewrite Z.pow_succ_r by lia. lia.
Qed.

Lemma from_bytes_cons x b :
  from_bytes (x :: b) = byte_val x * 256 ^ Z.of_nat (length b) + from_bytes b.
Proof.
  unfold from_bytes at 1. simpl fold_left. rewrite fold_from_bytes. lia.
Qed.

Lemma from_bytes_app a b :
  from_bytes (a ++ b) = from_bytes a * 256 ^ Z.of_nat (length b) + from_bytes b.
Proof.
  unfold from_bytes at 1. rewrite fold_left_app.
  fold (from_bytes a). apply fold_from_bytes.
Qed.

Lemma from_bytes_range b : 0 <= from_bytes b < 256 ^ Z.of_nat (length b).
Proof.
  induction b as [|x b IH].
  - unfold from_bytes. simpl. lia.
  - rewrite from_bytes_cons.
    replace (Z.of_nat (length (x :: b))) with (Z.succ (Z.of_nat (length b)))
      by (simpl; lia).
    rewrite Z.pow_succ_r by lia.
    pose proof (byte_val_range x). nia.
Qed.

Lemma length_le_bytes n : forall v, length (le_bytes n v) = n.
Proof. induction n as [|n IH]; intros v; simpl; [done|by rewrite IH]. Qed.

Lemma from_bytes_le_bytes n : forall v,
  0 <= v < 256 ^ Z.of_nat n -> from_bytes (rev (le_bytes n v)) = v.
Proof.
  induction n as [|n IH]; intros v Hv.
  - simpl in *. unfold from_bytes. simpl. lia.
  - replace (Z.of_nat (S n)) with (Z.succ (Z.of_nat n)) in Hv by lia.
    rewrite Z.pow_succ_r in Hv by lia.
    simpl le_bytes. simpl rev. rewrite from_bytes_app, IH.
    + unfold from_bytes at 1. simpl fold_left.
      rewrite byte_val_of_Z by (apply Z.mod_pos_bound; lia).
      simpl length. change (256 ^ Z.of_nat 1) with 256.
      pose proof (Z.div_mod v 256). lia.
    + split; [apply Z.div_pos; lia|].
      apply Z.div_lt_upper_bound; lia.
Qed.

Lemma to_bytes_Some n v bs :
  to_bytes n v = Some bs ->
  length bs = n /\ from_bytes bs = v /\ 0 <= v < 256 ^ Z.of_nat n.
Proof.
  unfold to_bytes.
  destruct (0 <=? v) eqn:H0; [|done].
  destruct (v <? 256 ^ Z.of_nat n) eqn:H1; [|done].
  simpl. intros [= <-].
  rewrite length_rev, length_le_bytes, from_bytes_le_bytes by lia. lia.
Qed.

Lemma to_bytes_None n v :
  to_bytes n v = None <-> v < 0 \/ 256 ^ Z.of_nat n <= v.
Proof.
  unfold to_bytes.
  destruct (0 <=? v) eqn:H0; destruct (v <? 256 ^ Z.of_nat n) eqn:H1;
    simpl; split; intros H; try done; lia.
Qed.

Lemma to_bytes_is_Some n v :
  0 <= v < 256 ^ Z.of_nat n -> exists bs, to_bytes n v = Some bs.
Proof.
  intros H. destruct (to_bytes n v) as [bs|] eqn:E; [by exists bs|].
  apply to_bytes_None in E. lia.
Qed.

End Bytes.

(** * Slices *)

Section Slices.

Implicit Types b v : bytes.

Lemma clamp_in n i : 0 <= i <= n -> clamp n i = i.
Proof. unfold clamp. intros H. destruct (i <? 0) eqn:E; lia. Qed.

Lemma slice_in_range b lo hi :
  0 <= lo <= hi -> hi <= len b ->
  slice b lo hi = take (Z.to_nat (hi - lo)) (drop (Z.to_nat lo) b).
Proof.
  intros H1 H2. unfold slice. by rewrite !clamp_in by lia.
Qed.

Lemma set_slice_in_range b lo hi v :
  0 <= lo <= hi -> hi <= len b ->
  set_slice b lo hi v = take (Z.to_nat lo) b ++ v ++ drop (Z.to_nat hi) b.
Proof.
  intros H1 H2. unfold set_slice. rewrite !clamp_in by lia.
  by rewrite Z.max_r by lia.
Qed.

Lemma length_slice b lo hi :
  0 <= lo <= hi -> hi <= len b ->
  length (slice b lo hi) = Z.to_nat (hi - lo).
Proof.
  intros H1 H2. rewrite slice_in_range by done.
  rewrite length_take, length_drop. unfold len in *. lia.
Qed.

Lemma slice_lookup b lo hi (j : nat) :
  0 <= lo <= hi -> hi <= len b ->
  Z.of_nat j < hi - lo ->
  slice b lo hi !! j = b !! (Z.to_nat lo + j)%nat.
Proof.
  intros H1 H2 Hj. rewrite slice_in_range by done.
  rewrite lookup_take_lt by lia. apply lookup_drop.
Qed.

Lemma slice_agree b b' lo hi :
  length b = length b' ->
  0 <= lo <= hi -> hi <= len b ->
  agree b b' lo hi ->
  slice b lo hi = slice b' lo hi.
Proof.
  intros Hl H1 H2 Ha.
  assert (H2' : hi <= len b') by (unfold len in *; lia).
  apply list_eq. intros j.
  destruct (decide (Z.of_nat j < hi - lo)) as [Hj|Hj].
  - rewrite !slice_lookup by done. apply Ha. lia.
  - rewrite !lookup_ge_None_2; [done|rewrite length_slice by done; lia..].
Qed.

Lemma agree_sub b b' lo hi lo' hi' :
  agree b b' lo hi -> lo <= lo' -> hi' <= hi -> agree b b' lo' hi'.
Proof. intros H ? ? p Hp. apply H. lia. Qed.

Lemma agree_refl b lo hi : agree b b lo hi.
Proof. done. Qed.

Lemma agree_sym b b' lo hi : agree b b' lo hi -> agree b' b lo hi.
Proof. intros H p Hp. symmetry. by apply H. Qed.

Lemma agree_trans b1 b2 b3 lo hi :
  agree b1 b2 lo hi -> agree b2 b3 lo hi -> agree b1 b3 lo hi.
Proof. intros H1 H2 p Hp. rewrite H1 by done. by apply H2. Qed.

Lemma length_set_slice b lo hi v :
  0 <= lo <= hi -> hi <= len b -> len v = hi - lo ->
  length (set_slice b lo hi v) = length b.
Proof.
  intros H1 H2 Hv. rewrite set_slice_in_range by done.
  rewrite !length_app, length_take, length_drop. unfold len in *. lia.
Qed.

Lemma set_slice_lookup_before b lo hi v (p : nat) :
  0 <= lo <= hi -> hi <= len b ->
  Z.of_nat p < lo ->
  set_slice b lo hi v !! p = b !! p.
Proof.
  intros H1 H2 Hp. rewrite set_slice_in_range by done.
  rewrite lookup_app_l by (rewrite length_take; unfold len in *; lia).
  apply lookup_take_lt. lia.
Qed.

Lemma set_slice_lookup_after b lo hi v (p : nat) :
  0 <= lo <= hi -> hi <= len b -> len v = hi - lo ->
  hi <= Z.of_nat p ->
  set_slice b lo hi v !! p = b !! p.
Proof.
  intros H1 H2 Hv Hp. rewrite set_slice_in_range by done.
  assert (Hl : length (take (Z.to_nat lo) b) = Z.to_nat lo)
    by (rewrite length_take; unfold len in *; lia).
  rewrite lookup_app_r by lia.
  rewrite lookup_app_r by (unfold len in *; lia).
  rewrite lookup_drop. f_equal. unfold len in *. lia.
Qed.

Lemma set_slice_lookup_in b lo hi v (j : nat) :
  0 <= lo <= hi -> hi <= len b ->
  set_slice b lo hi v !! (Z.to_nat lo + j)%nat = (v ++ drop (Z.to_nat hi) b) !! j.
Proof.
  intros H1 H2. rewrite set_slice_in_range by done.
  assert (Hl : length (take (Z.to_nat lo) b) = Z.to_nat lo)
    by (rewrite length_take; unfold len in *; lia).
  rewrite lookup_app_r by lia. f_equal. lia.
Qed.

Lemma set_slice_agree_outside b lo hi v lo' hi' :
  0 <= lo <= hi -> hi <= len b -> len v = hi - lo ->
  hi' <= lo \/ hi <= lo' ->
  agree (set_slice b lo hi v) b lo' hi'.
Proof.
  intros H1 H2 Hv Hd p Hp.
  destruct (decide (Z.of_nat p < lo)).
  - by apply set_slice_lookup_before.
  - apply set_slice_lookup_after; try done. lia.
Qed.

Lemma slice_set_slice_same b lo hi v :
  0 <= lo <= hi -> hi <= len b -> len v = hi - lo ->
  slice (set_slice b lo hi v) lo hi = v.
Proof.
  intros H1 H2 Hv.
  assert (Hl := length_set_slice b lo hi v H1 H2 Hv).
  assert (H2' : hi <= len (set_slice b lo hi v)) by (unfold len in *; lia).
  apply list_eq. intros j.
  destruct (decide (Z.of_nat j < hi - lo)) as [Hj|Hj].
  - rewrite slice_lookup by done. rewrite set_slice_lookup_in by done.
    apply lookup_app_l. unfold len in *. lia.
  - rewrite !lookup_ge_None_2; [done|unfold len in *; lia|].
    rewrite length_slice by done. lia.
Qed.

Lemma slice_set_slice_other b lo hi v lo' hi' :
  0 <= lo <= hi -> hi <= len b -> len v = hi - lo ->
  0 <= lo' <= hi' -> hi' <= len b ->
  hi' <= lo \/ hi <= lo' ->
  slice (set_slice b lo hi v) lo' hi' = slice b lo' hi'.
Proof.
  intros H1 H2 Hv H1' H2' Hd.
  assert (Hl := length_set_slice b lo hi v H1 H2 Hv).
  apply slice_agree; try done.
  - unfold len in *; lia.
  - by apply set_slice_agree_outside.
Qed.

End Slices.

(** * The box walker *)

Section Walker.

Variable buf : bytes.

Lemma read_size_header i e size header :
  read_size buf i e = Some (size, header) -> header = 8 \/ header = 16.
Proof.
  unfold read_size. intros H.
  destruct (_ =? 1); [destruct (_ >? _)|destruct (_ =? 0)];
    inversion H; auto.
Qed.

Lemma read_box_Some i e b :
  read_box buf i e = Some b ->
  box_start b = i /\
  box_typ b = decode (slice buf (i + 4) (i + 8)) /\
  read_size buf i e = Some (box_size b, box_header b) /\
  box_header b <= box_size b /\
  i + box_size b <= e.
Proof.
  unfold read_box. destruct (read_size buf i e) as [[size header]|]; [|done].
  destruct (size <? header) eqn:H1; [done|].
  destruct (i + size >? e) eqn:H2; [done|].
  intros [= <-]. simpl. repeat split; lia.
Qed.

Lemma read_box_advance i e b :
  read_box buf i e = Some b -> 8 <= box_size b.
Proof.
  intros H. destruct (read_box_Some _ _ _ H) as (_ & _ & Hs & Hh & _).
  apply read_size_header in Hs. lia.
Qed.

Lemma iter_boxes_loop_fuel f1 : forall f2 i e,
  (Z.to_nat (e - i) <= f1)%nat -> (Z.to_nat (e - i) <= f2)%nat ->
  iter_boxes_loop f1 buf i e = iter_boxes_loop f2 buf i e.
Proof.
  induction f1 as [|f1 IH]; intros [|f2] i e H1 H2; simpl; try done.
  - destruct (i + 8 <=? e) eqn:G; [lia|done].
  - destruct (i + 8 <=? e) eqn:G; [lia|done].
  - destruct (i + 8 <=? e) eqn:G; [|done].
    destruct (read_box buf i e) as [b|] eqn:R; [|done].
    pose proof (read_box_advance _ _ _ R).
    f_equal. apply IH; lia.
Qed.

(** The loop of the source: one turn, then the walk from the next cursor. *)
Lemma iter_boxes_unfold i e :
  iter_boxes buf i e =
  if i + 8 <=? e then
    match read_box buf i e with
    | None => []
    | Some b => b :: iter_boxes buf (i + box_size b) e
    end
  else [].
Proof.
  unfold iter_boxes.
  destruct (i + 8 <=? e) eqn:G.
  - destruct (Z.to_nat (e - i)) as [|f] eqn:F; [lia|]. simpl. rewrite G.
    destruct (read_box buf i e) as [b|] eqn:R; [|done].
    pose proof (read_box_advance _ _ _ R).
    f_equal. apply iter_boxes_loop_fuel; lia.
  - destruct (Z.to_nat (e - i)); simpl; [done|by rewrite G].
Qed.

Lemma iter_boxes_short i e : e < i + 8 -> iter_boxes buf i e = [].
Proof.
  intros H. rewrite iter_boxes_unfold.
  destruct (i + 8 <=? e) eqn:G; [lia|done].
Qed.

Lemma iter_boxes_break i e :
  read_box buf i e = None -> iter_boxes buf i e = [].
Proof.
  intros H. rewrite iter_boxes_unfold, H. by destruct (_ <=? _).
Qed.

Lemma iter_boxes_yield i e b :
  i + 8 <= e -> read_box buf i e = Some b ->
  iter_boxes buf i e = b :: iter_boxes buf (i + box_size b) e.
Proof.
  intros G H. rewrite iter_boxes_unfold, H.
  destruct (i + 8 <=? e) eqn:G'; [done|lia].
Qed.

(** Induction over a walk: on the cursor, by the distance to the end. *)
Lemma walk_ind (P : Z -> Z -> list box -> Prop) :
  (forall i e, iter_boxes buf i e = [] -> P i e []) ->
  (forall i e b,
      i + 8 <= e -> read_box buf i e = Some b ->
      P (i + box_size b) e (iter_boxes buf (i + box_size b) e) ->
      P i e (b :: iter_boxes buf (i + box_size b) e)) ->
  forall i e, P i e (iter_boxes buf i e).
Proof.
  intros Hnil Hcons i e.
  remember (Z.to_nat (e - i)) as n eqn:Hn.
  revert i Hn. induction (lt_wf n) as [n _ IH]. intros i ->.
  destruct (Z_le_gt_dec (i + 8) e) as [G|G].
  - destruct (read_box buf i e) as [b|] eqn:R.
    + rewrite (iter_boxes_yield _ _ _ G R).
      pose proof (read_box_advance _ _ _ R).
      apply Hcons; [done..|]. eapply IH; [|reflexivity]. lia.
    + rewrite (iter_boxes_break _ _ R). apply Hnil. by apply iter_boxes_break.
  - rewrite iter_boxes_short by lia. apply Hnil. apply iter_boxes_short. lia.
Qed.

Lemma iter_boxes_Forall i e :
  Forall (fun b => i <= box_start b /\
                   box_typ b = decode (slice buf (box_start b + 4) (box_start b + 8)) /\
                   (box_header b = 8 \/ box_header b = 16) /\
                   box_header b <= box_size b /\
                   box_start b + box_size b <= e)
         (iter_boxes buf i e).
Proof.
  apply (walk_ind (fun i e l =>
    Forall (fun b => i <= box_start b /\
                     box_typ b = decode (slice buf (box_start b + 4) (box_start b + 8)) /\
                     (box_header b = 8 \/ box_header b = 16) /\
                     box_header b <= box_size b /\
                     box_start b + box_size b <= e) l)); clear i e.
  - constructor.
  - intros i e b G R IH.
    pose proof (read_box_advance _ _ _ R).
    destruct (read_box_Some _ _ _ R) as (Hs & Ht & Hz & Hh & He).
    constructor.
    + rewrite Hs. repeat split; try done; try lia.
      by apply read_size_header in Hz.
    + eapply Forall_impl; [exact IH|]. simpl. intros c (? & ? & ? & ? & ?).
      repeat split; try done; lia.
Qed.

Lemma cursor_iter_boxes e start i pre :
  cursor buf e start i pre ->
  iter_boxes buf start e = pre ++ iter_boxes buf i e.
Proof.
  induction 1 as [|i pre b _ IH G R]; [done|].
  rewrite IH, (iter_boxes_yield _ _ _ G R), <- app_assoc. done.
Qed.

End Walker.

(** C6.  Every box that [iter_boxes] yields has [header_len <= size] and
    ends inside the region; and when the walk has come to a cursor where
    the size read is smaller than its header or runs past the end of the
    region, the walk ends there: what [iter_boxes] yields is what it had
    yielded so far, and nothing is raised. *)
Theorem iter_boxes_in_region (buf : bytes) (start e : Z) :
  Forall (fun b => box_header b <= box_size b /\ box_start b + box_size b <= e)
         (iter_boxes buf start e)
  /\ forall i pre size header,
       cursor buf e start i pre ->
       i + 8 <= e ->
       read_size buf i e = Some (size, header) ->
       size < header \/ e < i + size ->
       iter_boxes buf start e = pre.
Proof.
  split.
  - eapply Forall_impl; [apply iter_boxes_Forall|]. simpl. tauto.
  - intros i pre size header Hc G Hs Hbad.
    rewrite (cursor_iter_boxes _ _ _ _ _ Hc), iter_boxes_break, app_nil_r; [done|].
    unfold read_box. rewrite Hs.
    destruct (size <? header) eqn:H1; [done|].
    destruct (i + size >? e) eqn:H2; [done|]. lia.
Qed.

Lemma iter_boxes_in_region_witness :
  iter_boxes (mkbox "ftyp" [] ++ be 4 100 ++ tag "moov") 0 16
  = [Box (lit "ftyp") 0 8 8].
Proof.
  apply (proj2 (iter_boxes_in_region _ 0 16) 8 [Box (lit "ftyp") 0 8 8] 100 8).
  - apply (cursor_step _ 16 0 0 [] (Box (lit "ftyp") 0 8 8)).
    + apply cursor_start.
    + lia.
    + reflexivity.
  - lia.
  - reflexivity.
  - lia.
Defined.

(** C7.  When the walk is at a cursor where [size32 == 1]: if 16 bytes
    remain before the end of the region, the size is the following 8
    bytes read as a big-endian 64-bit number, the header is 16 bytes long,
    and a box of that size that fits the region is yielded, whatever the
    size (no 32-bit limit); if fewer than 16 bytes remain, the walk ends
    and that box is not yielded. *)
Theorem iter_boxes_extended_size (buf : bytes) (start e i : Z) (pre : list box) :
  cursor buf e start i pre ->
  i + 8 <= e ->
  _u32 (slice buf i (i + 4)) = 1 ->
  (i + 16 <= e ->
   let size := _u64 (slice buf (i + 8) (i + 16)) in
   (forall b0 b1 b2 b3 b4 b5 b6 b7,
       slice buf (i + 8) (i + 16) = [b0; b1; b2; b3; b4; b5; b6; b7] ->
       size = byte_val b0 * 2 ^ 56 + byte_val b1 * 2 ^ 48
              + byte_val b2 * 2 ^ 40 + byte_val b3 * 2 ^ 32
              + byte_val b4 * 2 ^ 24 + byte_val b5 * 2 ^ 16
              + byte_val b6 * 2 ^ 8 + byte_val b7)
   /\ (16 <= size -> i + size <= e ->
       iter_boxes buf start e
       = pre ++ Box (decode (slice buf (i + 4) (i + 8))) i size 16
             :: iter_boxes buf (i + size) e))
  /\ (e < i + 16 -> iter_boxes buf start e = pre).
Proof.
  intros Hc G H1.
  assert (Hsz : read_size buf i e =
                if i + 16 >? e then None
                else Some (_u64 (slice buf (i + 8) (i + 16)), 16)).
  { unfold read_size. by rewrite H1. }
  split.
  - intros G16 size. split.
    + intros b0 b1 b2 b3 b4 b5 b6 b7 Hb. subst size. rewrite Hb.
      unfold _u64, from_bytes. simpl. lia.
    + intros Hlo Hhi.
      rewrite (cursor_iter_boxes _ _ _ _ _ Hc). f_equal.
      rewrite (iter_boxes_yield _ _ _ (Box (decode (slice buf (i + 4) (i + 8))) i size 16));
        [done|done|].
      unfold read_box. rewrite Hsz.
      destruct (i + 16 >? e) eqn:E1; [lia|].
      fold size.
      destruct (size <? 16) eqn:E2; [lia|].
      destruct (i + size >? e) eqn:E3; [lia|]. done.
  - intros G16.
    rewrite (cursor_iter_boxes _ _ _ _ _ Hc), iter_boxes_break, app_nil_r; [done|].
    unfold read_box. rewrite Hsz.
    destruct (i + 16 >? e) eqn:E1; [done|lia].
Qed.

(** A box of 2^32 + 16 bytes with an extended size, in a region that long. *)
Lemma iter_boxes_extended_size_witness :
  iter_boxes (be 4 1 ++ tag "mdat" ++ be 8 (2 ^ 32 + 16)) 0 (2 ^ 32 + 16)
  = Box (lit "mdat") 0 (2 ^ 32 + 16) 16
    :: iter_boxes (be 4 1 ++ tag "mdat" ++ be 8 (2 ^ 32 + 16))
                  (2 ^ 32 + 16) (2 ^ 32 + 16).
Proof.
  pose proof (iter_boxes_extended_size
                (be 4 1 ++ tag "mdat" ++ be 8 (2 ^ 32 + 16))
                0 (2 ^ 32 + 16) 0 []) as H.
  destruct H as [H _].
  - apply cursor_start.
  - lia.
  - reflexivity.
  - destruct H as [_ H]; [lia|].
    apply H; vm_compute; discriminate.
Defined.

(** * The path resolver and the track classifier *)

Section Audit.

Variable buf : bytes.

Lemma walk_unfold want rest rs re :
  walk buf want rest rs re =
  (fix loop (boxes : list box) : option span :=
     match boxes with
     | [] => None
     | b :: boxes' =>
         if negb (bool_decide (box_typ b = want)) then loop boxes'
         else
           match rest with
           | [] => Some (span_of b)
           | want' :: rest' =>
               let data_start := box_start b + box_header b in
               let data_end := box_start b + box_size b in
               if bool_decide (box_typ b = lit "meta") then
                 if data_start + 4 <=? data_end
                 then walk buf want' rest' (data_start + 4) data_end
                 else None
               else walk buf want' rest' data_start data_end
           end
     end) (iter_boxes buf rs re).
Proof. by destruct rest. Qed.

Lemma walk_none want rest rs re :
  Forall (fun c => box_typ c <> want) (iter_boxes buf rs re) ->
  walk buf want rest rs re = None.
Proof.
  rewrite walk_unfold.
  induction 1 as [|c l Hc _ IH]; [done|].
  rewrite bool_decide_eq_false_2 by done. exact IH.
Qed.

(** The first sibling that bears the wanted tag decides the lookup. *)
Lemma walk_first (want : str) (rest : list str)
    (region_start region_end : Z) (pre post : list box) (b : box) :
  iter_boxes buf region_start region_end = pre ++ b :: post ->
  Forall (fun c => box_typ c <> want) pre ->
  box_typ b = want ->
  walk buf want rest region_start region_end =
  match rest with
  | [] => Some (span_of b)
  | want' :: rest' =>
      let data_start := box_start b + box_header b in
      let data_end := box_start b + box_size b in
      if bool_decide (box_typ b = lit "meta") then
        if data_start + 4 <=? data_end
        then walk buf want' rest' (data_start + 4) data_end
        else None
      else walk buf want' rest' data_start data_end
  end.
Proof.
  intros Hl Hpre Hb.
  rewrite walk_unfold, Hl. clear Hl.
  induction Hpre as [|c l Hc _ IH].
  - simpl. rewrite bool_decide_eq_true_2 by done. by destruct rest.
  - simpl. rewrite bool_decide_eq_false_2 by done. exact IH.
Qed.

(** C8.  At each nesting level [find_first] takes the first sibling that
    bears the wanted tag and no other: what it returns is decided by that
    box alone, whatever siblings follow, also when the lookup below that
    box finds nothing.  Below a [meta] box the next tag is looked up from
    4 bytes past the header when the box has at least 4 bytes of data,
    and the lookup finds nothing otherwise. *)
Theorem find_first_first_sibling (want : str) (rest : list str)
    (region_start region_end : Z) (pre post : list box) (b : box) :
  iter_boxes buf region_start region_end = pre ++ b :: post ->
  Forall (fun c => box_typ c <> want) pre ->
  box_typ b = want ->
  find_first buf (want :: rest) = Return (walk buf want rest 0 (len buf))
  /\ walk buf want rest region_start region_end =
     match rest with
     | [] => Some (span_of b)
     | want' :: rest' =>
         let data_start := box_start b + box_header b in
         let data_end := box_start b + box_size b in
         if bool_decide (box_typ b = lit "meta") then
           if data_start + 4 <=? data_end
           then walk buf want' rest' (data_start + 4) data_end
           else None
         else walk buf want' rest' data_start data_end
     end.
Proof.
  intros Hl Hpre Hb. split; [done|]. by eapply walk_first.
Qed.

Lemma find_first_never_raises want rest :
  find_first buf (want :: rest) <> Raise_IndexError.
Proof. done. Qed.

Lemma first_tagged_None t (boxes : list box) :
  first_tagged t boxes = None <-> Forall (fun b => box_typ b <> t) boxes.
Proof.
  induction boxes as [|b l IH]; simpl.
  - split; [constructor|done].
  - destruct (bool_decide (box_typ b = t)) eqn:E.
    + apply bool_decide_eq_true_1 in E. split; [done|].
      intros H. by inversion H.
    + apply bool_decide_eq_false_1 in E. rewrite IH. split.
      * by constructor.
      * intros H. by inversion H.
Qed.

Lemma scan_traks_cons b boxes :
  scan_traks buf (b :: boxes) =
  if negb (bool_decide (box_typ b = lit "trak")) then scan_traks buf boxes
  else
    match trak_handler buf b with
    | Some handler =>
        if bool_decide (handler = lit "vide")
        then Return (Some (span_of b))
        else scan_traks buf boxes
    | None => scan_traks buf boxes
    end.
Proof.
  cbn [scan_traks find_first]. unfold trak_handler.
  destruct (negb _); [done|].
  destruct (first_tagged _ _) as [[[ms msz] mh]|]; [|done].
  by destruct (first_tagged _ _) as [[[hs hsz] hh]|].
Qed.

Lemma scan_traks_skip pre boxes :
  Forall (fun c => ~ is_video_trak buf c) pre ->
  scan_traks buf (pre ++ boxes) = scan_traks buf boxes.
Proof.
  induction 1 as [|c l Hc _ IH]; [done|].
  rewrite <- app_comm_cons, scan_traks_cons, IH.
  destruct (bool_decide (box_typ c = lit "trak")) eqn:Ht; [|done].
  apply bool_decide_eq_true_1 in Ht. simpl.
  destruct (trak_handler buf c) as [h|] eqn:Hh; [|done].
  destruct (bool_decide (h = lit "vide")) eqn:Hv; [|done].
  apply bool_decide_eq_true_1 in Hv. subst h. by destruct Hc.
Qed.

Lemma scan_traks_hit t boxes :
  is_video_trak buf t ->
  scan_traks buf (t :: boxes) = Return (Some (span_of t)).
Proof.
  intros [Ht Hh]. rewrite scan_traks_cons, Hh.
  by rewrite bool_decide_eq_true_2.
Qed.

Lemma scan_traks_result boxes r :
  scan_traks buf boxes = r ->
  r = Return None \/
  exists t, t ∈ boxes /\ is_video_trak buf t /\ r = Return (Some (span_of t)).
Proof.
  intros <-. induction boxes as [|c l IH]; [by left|].
  rewrite scan_traks_cons.
  assert (Hl : scan_traks buf l = Return None \/
               exists t, t ∈ c :: l /\ is_video_trak buf t /\
                         scan_traks buf l = Return (Some (span_of t))).
  { destruct IH as [IH|(t & Hin & Hv & IH)]; [by left|right].
    exists t. split; [by right|done]. }
  destruct (bool_decide (box_typ c = lit "trak")) eqn:Ht; [|done].
  apply bool_decide_eq_true_1 in Ht. simpl.
  destruct (trak_handler buf c) as [h|] eqn:Hh; [|done].
  destruct (bool_decide (h = lit "vide")) eqn:Hv; [|done].
  apply bool_decide_eq_true_1 in Hv. subst h.
  right. exists c. split; [by left|]. by split.
Qed.

(** A box of a walk is determined by where it starts and how long it is. *)
Lemma span_of_inj i e a b :
  a ∈ iter_boxes buf i e -> b ∈ iter_boxes buf i e ->
  span_of a = span_of b -> a = b.
Proof.
  intros Ha Hb Hs.
  pose proof (iter_boxes_Forall buf i e) as F.
  rewrite Forall_forall in F.
  destruct (F a Ha) as (_ & Hta & _), (F b Hb) as (_ & Htb & _).
  destruct a as [ta sa za ha], b as [tb sb zb hb].
  unfold span_of in Hs. simpl in *. inversion Hs; subst. done.
Qed.

End Audit.

(** Two [moov] siblings, the first empty: the [trak] of the second is not
    found, though it is found when the second stands alone. *)
Lemma find_first_first_sibling_witness :
  find_first (mkbox "moov" [] ++ mkbox "moov" (mkbox "trak" []))
             [lit "moov"; lit "trak"] = Return None
  /\ find_first (mkbox "moov" (mkbox "trak" []))
                [lit "moov"; lit "trak"] = Return (Some (8, 8, 8)).
Proof.
  split; [|reflexivity].
  destruct (find_first_first_sibling
              (mkbox "moov" [] ++ mkbox "moov" (mkbox "trak" []))
              (lit "moov") [lit "trak"] 0 24
              [] [Box (lit "moov") 8 16 8] (Box (lit "moov") 0 8 8))
    as [H1 H2].
  - reflexivity.
  - constructor.
  - reflexivity.
  - exact (eq_trans H1 (f_equal Return H2)).
Defined.

(** C4.  [locate_video_trak] never raises.  Without a [moov] it returns
    [None].  With one, it returns the span of the first child of [moov],
    in file order, that is a [trak] whose handler type is ["vide"]: the
    children before it that are no [trak], or a [trak] without [mdia] or
    [hdlr], or with another handler type, are passed over; it returns
    [None] when no child is such a [trak]; and it never returns a [trak]
    whose handler type is ["soun"].  A [trak] without [mdia], or whose
    first [mdia] has no [hdlr], is not such a [trak]. *)
Theorem locate_video_trak_first (buf : bytes) :
  (find_first buf [lit "moov"] = Return None ->
   locate_video_trak buf = Return None)
  /\ (forall moov_start moov_size moov_header,
       find_first buf [lit "moov"]
       = Return (Some (moov_start, moov_size, moov_header)) ->
       let children :=
         iter_boxes buf (moov_start + moov_header) (moov_start + moov_size) in
       (forall pre t post,
           children = pre ++ t :: post ->
           Forall (fun c => ~ is_video_trak buf c) pre ->
           is_video_trak buf t ->
           locate_video_trak buf = Return (Some (span_of t)))
       /\ (Forall (fun c => ~ is_video_trak buf c) children ->
           locate_video_trak buf = Return None)
       /\ (forall a,
              a ∈ children ->
              trak_handler buf a = Some (lit "soun") ->
              locate_video_trak buf <> Return (Some (span_of a))))
  /\ (forall c,
         Forall (fun x => box_typ x <> lit "mdia")
                (iter_boxes buf (box_start c + box_header c)
                                (box_start c + box_size c)) ->
         ~ is_video_trak buf c)
  /\ (forall c mdia_start mdia_size mdia_header,
         first_tagged (lit "mdia")
           (iter_boxes buf (box_start c + box_header c)
                           (box_start c + box_size c))
         = Some (mdia_start, mdia_size, mdia_header) ->
         Forall (fun x => box_typ x <> lit "hdlr")
                (iter_boxes buf (mdia_start + mdia_header)
                                (mdia_start + mdia_size)) ->
         ~ is_video_trak buf c).
Proof.
  split; [|split; [|split]].
  3:{ intros c H [_ Hh]. apply first_tagged_None in H.
      unfold trak_handler in Hh. by rewrite H in Hh. }
  3:{ intros c ms msz mh Hm H [_ Hh]. apply first_tagged_None in H.
      unfold trak_handler in Hh. by rewrite Hm, H in Hh. }
  - intros H. unfold locate_video_trak. by rewrite H.
  - intros ms msz mh H children.
    assert (Hl : locate_video_trak buf = scan_traks buf children).
    { unfold locate_video_trak. by rewrite H. }
    rewrite Hl. repeat split.
    + intros pre t post -> Hpre Ht.
      rewrite scan_traks_skip by done. by apply scan_traks_hit.
    + intros Hall.
      rewrite <- (app_nil_r children), scan_traks_skip by done. done.
    + intros a Ha Hs Hr.
      destruct (scan_traks_result buf children _ eq_refl)
        as [Hn|(t & Ht & [_ Hv] & Hn)]; rewrite Hn in Hr; [done|].
      assert (Hspan : span_of t = span_of a) by congruence.
      apply (span_of_inj buf _ _ _ _ Ht Ha) in Hspan. subst t.
      rewrite Hs in Hv. by inversion Hv.
Qed.

Lemma locate_video_trak_first_witness :
  locate_video_trak three_traks = Return (Some (52, 36, 8)).
Proof.
  destruct (locate_video_trak_first three_traks) as (_ & H & _).
  destruct (H 0 88 8 eq_refl) as [H1 _].
  apply (H1 [Box (lit "trak") 8 36 8; Box (lit "trak") 44 8 8]
            (Box (lit "trak") 52 36 8) []).
  - reflexivity.
  - repeat constructor; intros [_ Hh]; vm_compute in Hh; discriminate.
  - split; reflexivity.
Defined.

(** * The media header *)

(** C3, as stated, fails: an [mdhd] whose version byte is 2 is decoded,
    with the layout of version 0. *)
Lemma parse_mdhd_version_2_decoded :
  slice mdhd_v2 8 28 !! 0%nat = Some "002"%byte
  /\ parse_mdhd mdhd_v2 0 28 8 = Some (1000, 5000).
Proof. split; reflexivity. Qed.

(** C3, amended.  An [mdhd] whose version byte is not 1, so also one
    whose version byte is neither 0 nor 1, is decoded with the layout of
    version 0: decoding fails when the box data is shorter than 20 bytes,
    and otherwise returns the timescale read at data offset 12 and the
    duration read at data offset 16. *)
Theorem parse_mdhd_other_version (buf : bytes) (start size header : Z)
    (version : byte) :
  let data := slice buf (start + header) (start + size) in
  data !! 0%nat = Some version ->
  byte_val version <> 1 ->
  parse_mdhd buf start size header =
  if len data <? 20 then None
  else Some (_u32 (slice data 12 16), _u32 (slice data 16 20)).
Proof.
  intros data Hv H1. unfold parse_mdhd. fold data.
  rewrite nth_lookup, Hv. simpl.
  destruct (len data <? 4) eqn:H4.
  - destruct (len data <? 20) eqn:H20; [done|lia].
  - destruct (byte_val version =? 1) eqn:E; [lia|done].
Qed.

Lemma parse_mdhd_other_version_witness :
  parse_mdhd mdhd_v2 0 28 8 =
  Some (_u32 (slice (slice mdhd_v2 8 28) 12 16),
        _u32 (slice (slice mdhd_v2 8 28) 16 20)).
Proof.
  apply (parse_mdhd_other_version mdhd_v2 0 28 8 "002"%byte).
  - reflexivity.
  - vm_compute. discriminate.
Defined.

(** * The loop over the entries of a table *)

Section Entries.

Variable w : nat.
Hypothesis w_pos : (0 < w)%nat.
Variable delta table_start : Z.
Hypothesis table_start_nonneg : 0 <= table_start.

Lemma entry_agree (moov moov' : bytes) k :
  length moov = length moov' ->
  0 <= k -> table_start + k * Z.of_nat w + Z.of_nat w <= len moov ->
  agree moov moov' (table_start + k * Z.of_nat w)
                   (table_start + k * Z.of_nat w + Z.of_nat w) ->
  entry (Z.of_nat w) table_start moov k = entry (Z.of_nat w) table_start moov' k.
Proof.
  intros Hl Hk Hb Ha. unfold entry. f_equal. apply slice_agree; try done. nia.
Qed.

Lemma patch_entry_Done moov i moov' :
  0 <= i -> table_start + i * Z.of_nat w + Z.of_nat w <= len moov ->
  patch_entry w delta table_start i moov = Done moov' ->
  length moov' = length moov /\
  agree moov' moov 0 (table_start + i * Z.of_nat w) /\
  agree moov' moov (table_start + i * Z.of_nat w + Z.of_nat w) (len moov) /\
  entry (Z.of_nat w) table_start moov' i
  = entry (Z.of_nat w) table_start moov i + delta /\
  0 <= entry (Z.of_nat w) table_start moov i + delta < 256 ^ Z.of_nat w.
Proof.
  intros Hi Hb. unfold patch_entry.
  destruct (to_bytes w _) as [v|] eqn:E; [|done]. intros [= <-].
  apply to_bytes_Some in E. destruct E as (Hl & Hv & Hr).
  assert (Hlv : len v = table_start + i * Z.of_nat w + Z.of_nat w
                        - (table_start + i * Z.of_nat w))
    by (unfold len; lia).
  assert (H0 : 0 <= table_start + i * Z.of_nat w
               <= table_start + i * Z.of_nat w + Z.of_nat w) by nia.
  repeat split.
  - by apply length_set_slice.
  - apply set_slice_agree_outside; try done. lia.
  - apply set_slice_agree_outside; try done. lia.
  - unfold entry at 1. rewrite slice_set_slice_same by done. exact Hv.
  - apply Hr.
  - apply Hr.
Qed.

Lemma patch_entry_Raised moov i moov' :
  patch_entry w delta table_start i moov = Raised moov' ->
  moov' = moov /\
  ~ 0 <= entry (Z.of_nat w) table_start moov i + delta < 256 ^ Z.of_nat w.
Proof.
  unfold patch_entry.
  destruct (to_bytes w _) as [v|] eqn:E; [done|]. intros [= <-].
  apply to_bytes_None in E. split; [done|]. unfold entry. lia.
Qed.

(** What the loop over the entries [a, a + m) makes of the bytearray:
    when it returns, each of these entries has grown by [delta]; when
    [_p32] or [_p64] raises at entry [j], the entries before [j] have
    grown by [delta] and the bytes from entry [j] on are as they were.
    The bytes outside these entries are as they were. *)
Lemma for_each_patch m : forall (a : nat) moov,
  table_start + Z.of_nat (a + m) * Z.of_nat w <= len moov ->
  match for_each (map Z.of_nat (seq a m)) (patch_entry w delta table_start) moov with
  | Done moov' =>
      length moov' = length moov /\
      agree moov' moov 0 (table_start + Z.of_nat a * Z.of_nat w) /\
      agree moov' moov (table_start + Z.of_nat (a + m) * Z.of_nat w) (len moov) /\
      forall k, Z.of_nat a <= k < Z.of_nat (a + m) ->
        entry (Z.of_nat w) table_start moov' k
        = entry (Z.of_nat w) table_start moov k + delta
  | Raised moov' =>
      length moov' = length moov /\
      agree moov' moov 0 (table_start + Z.of_nat a * Z.of_nat w) /\
      exists j, Z.of_nat a <= j < Z.of_nat (a + m) /\
        (forall k, Z.of_nat a <= k < j ->
           entry (Z.of_nat w) table_start moov' k
           = entry (Z.of_nat w) table_start moov k + delta) /\
        agree moov' moov (table_start + j * Z.of_nat w) (len moov) /\
        ~ 0 <= entry (Z.of_nat w) table_start moov j + delta < 256 ^ Z.of_nat w
  | Raised_RecursionError _ => False
  end.
Proof.
  induction m as [|m IH]; intros a moov Hb.
  - simpl. repeat split; try done. intros k Hk. lia.
  - simpl seq. simpl map. simpl for_each.
    destruct (patch_entry w delta table_start (Z.of_nat a) moov)
      as [moov1|moov1|moov1] eqn:E; simpl and_then.
    3:{ unfold patch_entry in E. by destruct (to_bytes w _). }
    + apply patch_entry_Done in E; [|lia|nia].
      destruct E as (Hl1 & Hb1 & Ha1 & He1 & _).
      assert (Hb' : table_start + Z.of_nat (S a + m) * Z.of_nat w <= len moov1)
        by (unfold len in *; rewrite Hl1; nia).
      specialize (IH (S a) moov1 Hb').
      assert (Htrans : forall k,
                 Z.of_nat a < k < Z.of_nat (S a + m) ->
                 entry (Z.of_nat w) table_start moov1 k
                 = entry (Z.of_nat w) table_start moov k).
      { intros k Hk. apply entry_agree; [done|lia|nia|].
        eapply agree_sub; [exact Ha1|nia|nia]. }
      destruct (for_each _ _ moov1) as [moov'|moov'|moov']; [| |done].
      * destruct IH as (Hl & Hbef & Haft & Hent).
        repeat split.
        -- congruence.
        -- eapply agree_trans; [|exact Hb1].
           eapply agree_sub; [exact Hbef|lia|nia].
        -- eapply agree_trans.
           ++ eapply agree_sub; [exact Haft|nia|unfold len; lia].
           ++ eapply agree_sub; [exact Ha1|nia|lia].
        -- intros k Hk.
           destruct (decide (k = Z.of_nat a)) as [->|Hne].
           ++ rewrite <- He1. apply entry_agree; [done|lia| |].
              ** unfold len in *. rewrite Hl, Hl1. nia.
              ** eapply agree_sub; [exact Hbef|nia|nia].
           ++ rewrite Hent by lia. f_equal. apply Htrans; lia.
      * destruct IH as (Hl & Hbef & j & Hj & Hent & Haft & Hbad).
        repeat split.
        -- congruence.
        -- eapply agree_trans; [|exact Hb1].
           eapply agree_sub; [exact Hbef|lia|nia].
        -- exists j. repeat split; try lia.
           ++ intros k Hk.
              destruct (decide (k = Z.of_nat a)) as [->|Hne].
              ** rewrite <- He1. apply entry_agree; [done|lia| |].
                 --- unfold len in *. rewrite Hl, Hl1. nia.
                 --- eapply agree_sub; [exact Hbef|nia|nia].
              ** rewrite Hent by lia. f_equal.
                 apply Htrans; lia.
           ++ eapply agree_trans.
              ** eapply agree_sub; [exact Haft|nia|unfold len; lia].
              ** eapply agree_sub; [exact Ha1|nia|lia].
           ++ rewrite <- (Htrans j) by lia. exact Hbad.
    + apply patch_entry_Raised in E. destruct E as [-> Hbad].
      repeat split; try done.
      exists (Z.of_nat a). repeat split; try done; try lia.
Qed.

End Entries.

(** * What a walk reads *)

Section Locality.

Variables moov moov' : bytes.
Hypothesis same_length : length moov = length moov'.

Lemma read_box_local i e :
  0 <= i -> i + 8 <= e -> e <= len moov ->
  agree moov moov' i e ->
  read_box moov i e = read_box moov' i e.
Proof.
  intros Hi G He Ha. unfold read_box, read_size.
  rewrite (slice_agree moov moov' i (i + 4)), (slice_agree moov moov' (i + 4) (i + 8));
    try done; try lia; try (eapply agree_sub; [exact Ha|lia|lia]).
  destruct (_u32 _ =? 1); [|done].
  destruct (i + 16 >? e) eqn:G16; [done|].
  rewrite (slice_agree moov moov' (i + 8) (i + 16));
    try done; try lia. eapply agree_sub; [exact Ha|lia|lia].
Qed.

Lemma iter_boxes_local i e :
  0 <= i -> e <= len moov ->
  agree moov moov' i e ->
  iter_boxes moov i e = iter_boxes moov' i e.
Proof.
  intros Hi He.
  remember (Z.to_nat (e - i)) as n eqn:Hn.
  revert i Hi Hn. induction (lt_wf n) as [n _ IH]. intros i Hi -> Ha.
  rewrite (iter_boxes_unfold moov), (iter_boxes_unfold moov').
  destruct (i + 8 <=? e) eqn:G; [|done].
  rewrite <- read_box_local by (done || lia).
  destruct (read_box moov i e) as [b|] eqn:R; [|done].
  pose proof (read_box_advance _ _ _ _ R).
  f_equal. eapply IH; [|lia|reflexivity|].
  - lia.
  - eapply agree_sub; [exact Ha|lia|lia].
Qed.

Lemma table_in_local w ds de :
  0 <= ds -> de <= len moov ->
  agree moov moov' ds de ->
  table_in w moov ds de = table_in w moov' ds de.
Proof.
  intros Hs He Ha. unfold table_in.
  destruct (ds + 8 >? de) eqn:G; [done|].
  rewrite (slice_agree moov moov' (ds + 4) (ds + 8)); try done; try lia.
  eapply agree_sub; [exact Ha|lia|lia].
Qed.

Lemma table_of_local b :
  0 <= box_start b -> 0 <= box_header b ->
  box_start b + box_size b <= len moov ->
  agree moov moov' (box_start b) (box_start b + box_size b) ->
  table_of moov b = table_of moov' b.
Proof.
  intros Hs Hh He Ha. unfold table_of.
  rewrite !(table_in_local _ (box_start b + box_header b) (box_start b + box_size b));
    try done; try lia; eapply agree_sub; try exact Ha; lia.
Qed.

End Locality.

Section Reach.

Lemma children_Some c cs ce :
  children c = Some (cs, ce) ->
  box_typ c ∈ ContainerBoxes /\
  box_start c + box_header c <= cs /\ ce = box_start c + box_size c.
Proof.
  unfold children.
  destruct (bool_decide (box_typ c ∈ ContainerBoxes)) eqn:Hc; [|done].
  apply bool_decide_eq_true_1 in Hc.
  destruct (bool_decide (box_typ c = lit "meta")).
  - destruct (_ <=? _); [|done]. intros [= <- <-]. split; [done|lia].
  - intros [= <- <-]. split; [done|lia].
Qed.

Lemma container_not_table moov b :
  box_typ b ∈ ContainerBoxes -> table_of moov b = None.
Proof.
  intros Hc. unfold table_of.
  destruct (bool_decide (box_typ b = lit "stco")) eqn:H1.
  { apply bool_decide_eq_true_1 in H1. rewrite H1 in Hc.
    by vm_compute in Hc. }
  destruct (bool_decide (box_typ b = lit "co64")) eqn:H2; [|done].
  apply bool_decide_eq_true_1 in H2. rewrite H2 in Hc.
  by vm_compute in Hc.
Qed.

Lemma table_in_Some w moov ds de t :
  table_in w moov ds de = Some t ->
  exists n, t = (w, ds + 8, n) /\ 0 <= n /\ ds + 8 + n * w <= de /\
            n = _u32 (slice moov (ds + 4) (ds + 8)).
Proof.
  unfold table_in. destruct (ds + 8 >? de) eqn:G; [done|].
  destruct (ds + 8 + _ * w >? de) eqn:G2; [done|]. intros [= <-].
  eexists. split; [done|]. split; [apply from_bytes_range|]. split; [lia|done].
Qed.

Lemma table_of_Some moov b w ts n :
  table_of moov b = Some (w, ts, n) ->
  (w = 4 \/ w = 8) /\ ts = box_start b + box_header b + 8 /\ 0 <= n /\
  ts + n * w <= box_start b + box_size b /\
  box_typ b ∉ ContainerBoxes.
Proof.
  intros H.
  assert (Hc : box_typ b ∉ ContainerBoxes).
  { intros Hc. by rewrite container_not_table in H. }
  unfold table_of in H.
  destruct (bool_decide _); [|destruct (bool_decide _); [|done]];
    apply table_in_Some in H; destruct H as (n' & [= -> -> ->] & H0 & H1 & _);
    repeat split; auto.
Qed.

Lemma reachable_within moov rs re b :
  0 <= rs -> reachable moov rs re b ->
  rs <= box_start b /\ box_start b + box_size b <= re /\
  8 <= box_header b <= box_size b.
Proof.
  intros Hrs H. induction H as [rs re b Hb|rs re c cs ce b Hc Hch _ IH].
  - pose proof (iter_boxes_Forall moov rs re) as F.
    rewrite Forall_forall in F. destruct (F b Hb) as (? & _ & ? & ? & ?). lia.
  - pose proof (iter_boxes_Forall moov rs re) as F.
    rewrite Forall_forall in F. destruct (F c Hc) as (? & _ & ? & ? & ?).
    apply children_Some in Hch. destruct Hch as (_ & ? & ->).
    destruct IH as (? & ? & ?); lia.
Qed.

Lemma reachable_local moov moov' rs re b :
  length moov = length moov' ->
  0 <= rs -> re <= len moov ->
  agree moov moov' rs re ->
  reachable moov rs re b -> reachable moov' rs re b.
Proof.
  intros Hl Hrs Hre Ha H.
  induction H as [rs re b Hb|rs re c cs ce b Hc Hch _ IH].
  - apply reachable_here. by rewrite <- (iter_boxes_local moov moov').
  - pose proof (iter_boxes_Forall moov rs re) as F.
    rewrite Forall_forall in F. destruct (F c Hc) as (? & _ & ? & ? & ?).
    pose proof (children_Some _ _ _ Hch) as (_ & ? & ->).
    eapply reachable_below; [|exact Hch|].
    + by rewrite <- (iter_boxes_local moov moov').
    + apply IH; [lia|lia|]. eapply agree_sub; [exact Ha|lia|lia].
Qed.

Lemma reachable_nonempty moov rs re b :
  reachable moov rs re b -> iter_boxes moov rs re <> [].
Proof.
  intros H. destruct H as [rs re b Hb|rs re c cs ce b Hc _ _];
    intros E; rewrite E in *; by apply elem_of_nil in Hb || by apply elem_of_nil in Hc.
Qed.

(** The boxes reachable through one box. *)
Lemma reachable_cons moov rs re b0 rest b :
  iter_boxes moov rs re = b0 :: rest ->
  reachable moov rs re b <->
  b = b0
  \/ (exists cs ce, children b0 = Some (cs, ce) /\ reachable moov cs ce b)
  \/ (b ∈ rest)
  \/ (exists c cs ce,
         c ∈ rest /\ children c = Some (cs, ce) /\ reachable moov cs ce b).
Proof.
  intros E. split.
  - intros H. destruct H as [rs re b Hb|rs re c cs ce b Hc Hch Hr];
      rewrite E in *.
    + apply elem_of_cons in Hb. destruct Hb as [->|Hb]; auto.
    + apply elem_of_cons in Hc. destruct Hc as [->|Hc].
      * right; left. eauto.
      * right; right; right. eauto 6.
  - intros [->|[(cs & ce & Hch & Hr)|[Hb|(c & cs & ce & Hc & Hch & Hr)]]].
    + apply reachable_here. rewrite E. by left.
    + eapply reachable_below; [|exact Hch|exact Hr]. rewrite E. by left.
    + apply reachable_here. rewrite E. by right.
    + eapply reachable_below; [|exact Hch|exact Hr]. rewrite E. by right.
Qed.

End Reach.


(** * The effect of the offset rewriter *)

Section Effect.

Variable delta : Z.

Lemma entry_agree_Z w table_start (moov moov' : bytes) k :
  length moov = length moov' ->
  0 < w -> 0 <= table_start -> 0 <= k ->
  table_start + k * w + w <= len moov ->
  agree moov moov' (table_start + k * w) (table_start + k * w + w) ->
  entry w table_start moov k = entry w table_start moov' k.
Proof.
  intros Hl Hw Ht Hk Hb Ha. unfold entry. f_equal.
  apply slice_agree; try done. nia.
Qed.

Lemma agree_tail (moov moov' : bytes) hi (p : nat) :
  length moov' = length moov ->
  agree moov' moov hi (len moov) ->
  hi <= Z.of_nat p ->
  moov' !! p = moov !! p.
Proof.
  intros Hl Ha Hp.
  destruct (decide (p < length moov)%nat) as [H|H].
  - apply Ha. unfold len. lia.
  - rewrite !lookup_ge_None_2; [done|lia|lia].
Qed.

Lemma effect_id moov (R : box -> Prop) lo hi :
  (forall b, R b -> table_of moov b = None) ->
  effect delta moov R lo hi moov.
Proof.
  intros Hn. repeat split; try done.
  intros b w ts n k Hb Ht. by rewrite (Hn b Hb) in Ht.
Qed.

Lemma effect_cover moov moov' (R R' : box -> Prop) lo hi lo' hi' :
  effect delta moov R lo hi moov' ->
  lo' <= lo -> hi <= hi' ->
  (forall b, R b -> R' b) ->
  (forall b, R' b -> R b \/ box_typ b ∈ ContainerBoxes) ->
  effect delta moov R' lo' hi' moov'.
Proof.
  intros (Hl & Hbef & Haft & Hent & Hfr & Hleaf) Hlo Hhi Hsub Hsup.
  repeat split.
  - done.
  - eapply agree_sub; [exact Hbef|lia|lia].
  - eapply agree_sub; [exact Haft|lia|lia].
  - intros b w ts n k Hb Ht Hk.
    destruct (Hsup b Hb) as [HR|Hc]; [by eapply Hent|].
    by rewrite container_not_table in Ht.
  - intros p Hp Hno.
    destruct (decide (Z.of_nat p < lo)) as [H1|H1]; [apply Hbef; lia|].
    destruct (decide (hi <= Z.of_nat p)) as [H2|H2];
      [by eapply agree_tail|].
    apply Hfr; [lia|]. intros (b & w & ts & n & Hb & Ht & Hin).
    apply Hno. exists b, w, ts, n. auto.
  - intros b Hb Hc Ht. destruct (Hsup b Hb) as [HR|Hc']; [by apply Hleaf|done].
Qed.

Lemma effect_seq moov moov1 moov' (R1 R2 : box -> Prop) lo mid hi :
  0 <= lo <= mid -> mid <= hi -> hi <= len moov ->
  effect delta moov R1 lo mid moov1 ->
  effect delta moov1 R2 mid hi moov' ->
  (forall b, R1 b -> lo <= box_start b /\ box_start b + box_size b <= mid /\
                     8 <= box_header b <= box_size b) ->
  (forall b, R2 b -> mid <= box_start b /\ box_start b + box_size b <= hi /\
                     8 <= box_header b <= box_size b) ->
  effect delta moov (fun b => R1 b \/ R2 b) lo hi moov'.
Proof.
  intros Hlo Hmid Hhi
         (Hl1 & Hbef1 & Haft1 & Hent1 & Hfr1 & Hleaf1)
         (Hl2 & Hbef2 & Haft2 & Hent2 & Hfr2 & Hleaf2) HR1 HR2.
  assert (Hlen1 : len moov1 = len moov) by (unfold len; lia).
  rewrite Hlen1 in Haft2.
  assert (Htab2 : forall b, R2 b -> table_of moov1 b = table_of moov b).
  { intros b Hb. destruct (HR2 b Hb) as (? & ? & ?).
    apply table_of_local; [done|lia|lia|lia|].
    eapply agree_sub; [exact Haft1|lia|lia]. }
  repeat split.
  - congruence.
  - eapply agree_trans; [|exact Hbef1]. eapply agree_sub; [exact Hbef2|lia|lia].
  - eapply agree_trans; [exact Haft2|]. eapply agree_sub; [exact Haft1|lia|lia].
  - intros b w ts n k [Hb|Hb] Ht Hk.
    + destruct (HR1 b Hb) as (? & ? & ?).
      destruct (table_of_Some _ _ _ _ _ Ht) as (Hw & -> & Hn & Hext & _).
      rewrite <- (Hent1 b w _ n k Hb Ht Hk).
      apply entry_agree_Z; [done|lia|lia|lia|unfold len in *; nia|].
      eapply agree_sub; [exact Hbef2|nia|nia].
    + destruct (HR2 b Hb) as (? & ? & ?).
      destruct (table_of_Some _ _ _ _ _ Ht) as (Hw & Hts & Hn & Hext & _).
      rewrite <- (Htab2 b Hb) in Ht.
      rewrite (Hent2 b w ts n k Hb Ht Hk). f_equal. subst ts.
      apply entry_agree_Z; [done|lia|lia|lia|unfold len in *; nia|].
      eapply agree_sub; [exact Haft1|nia|nia].
  - intros p Hp Hno.
    destruct (decide (Z.of_nat p < mid)) as [H1|H1].
    + rewrite Hbef2 by lia. apply Hfr1; [lia|].
      intros (b & w & ts & n & Hb & Ht & Hin).
      apply Hno. exists b, w, ts, n. auto.
    + rewrite Hfr2; [apply (agree_tail moov moov1 mid); [done|done|lia]|lia|].
      intros (b & w & ts & n & Hb & Ht & Hin).
      apply Hno. exists b, w, ts, n. rewrite <- (Htab2 b Hb). auto.
  - intros b [Hb|Hb] Hc Ht.
    + destruct (HR1 b Hb) as (? & ? & ?).
      eapply agree_trans; [|by apply Hleaf1].
      eapply agree_sub; [exact Hbef2|lia|lia].
    + destruct (HR2 b Hb) as (? & ? & ?).
      eapply agree_trans; [apply Hleaf2; [done|done|by rewrite Htab2]|].
      eapply agree_sub; [exact Haft1|lia|lia].
Qed.

End Effect.

Section Rewriter.

Variable delta : Z.

Lemma patch_stco_table ds de moov :
  patch_stco delta ds de moov =
  match table_in 4 moov ds de with
  | None => Done moov
  | Some (_, table_start, entry_count) =>
      for_each (range entry_count) (patch_entry 4 delta table_start) moov
  end.
Proof.
  unfold patch_stco, table_in.
  destruct (ds + 8 >? de); [done|].
  by destruct (ds + 8 + _ * 4 >? de).
Qed.

Lemma patch_co64_table ds de moov :
  patch_co64 delta ds de moov =
  match table_in 8 moov ds de with
  | None => Done moov
  | Some (_, table_start, entry_count) =>
      for_each (range entry_count) (patch_entry 8 delta table_start) moov
  end.
Proof.
  unfold patch_co64, table_in.
  destruct (ds + 8 >? de); [done|].
  by destruct (ds + 8 + _ * 8 >? de).
Qed.

Lemma table_effect (w : nat) moov b0 table_start entry_count moov1 :
  (0 < w)%nat ->
  table_of moov b0 = Some (Z.of_nat w, table_start, entry_count) ->
  0 <= box_start b0 -> 8 <= box_header b0 ->
  box_start b0 + box_size b0 <= len moov ->
  for_each (range entry_count) (patch_entry w delta table_start) moov = Done moov1 ->
  effect delta moov (fun b => b = b0)
         (box_start b0) (box_start b0 + box_size b0) moov1.
Proof.
  intros Hw Ht Hs Hh He Hrun.
  destruct (table_of_Some _ _ _ _ _ Ht) as (_ & Hts & Hn & Hext & _).
  assert (Hts0 : 0 <= table_start) by lia.
  pose proof (for_each_patch w Hw delta table_start Hts0 (Z.to_nat entry_count) 0 moov)
    as P.
  unfold range in Hrun. rewrite Hrun in P.
  replace (Z.of_nat (0 + Z.to_nat entry_count)) with entry_count in P by lia.
  destruct P as (Hl & Hbef & Haft & Hent); [lia|].
  repeat split.
  - done.
  - eapply agree_sub; [exact Hbef|lia|lia].
  - eapply agree_sub; [exact Haft|lia|lia].
  - intros b w' ts n k -> Ht' Hk. rewrite Ht in Ht'.
    injection Ht' as <- <- <-. apply Hent. lia.
  - intros p Hp Hno.
    destruct (decide (Z.of_nat p < table_start)) as [H1|H1]; [apply Hbef; lia|].
    destruct (decide (table_start + entry_count * Z.of_nat w <= Z.of_nat p)) as [H2|H2];
      [by eapply agree_tail|].
    exfalso. apply Hno. exists b0, (Z.of_nat w), table_start, entry_count.
    split; [done|]. split; [done|lia].
  - intros b -> _ Hnone. by rewrite Ht in Hnone.
Qed.

Lemma no_boxes_effect moov lo hi i e :
  iter_boxes moov i e = [] ->
  effect delta moov (reachable moov i e) lo hi moov.
Proof.
  intros E. apply effect_id. intros b Hb.
  by apply reachable_nonempty in Hb.
Qed.

(** A nested call that ends without [RecursionError] had a frame and
    ended as its body did. *)
Lemma call_body frames body moov rs re :
  (forall moov', call frames body moov rs re <> Raised_RecursionError moov') ->
  exists frames', frames = S frames'
                  /\ call frames body moov rs re = body frames' moov rs re.
Proof.
  destruct frames as [|frames']; [intros H; by destruct (H moov)|].
  intros _. by exists frames'.
Qed.

Lemma call_Done frames body moov rs re moov' :
  call frames body moov rs re = Done moov' ->
  exists frames', frames = S frames' /\ body frames' moov rs re = Done moov'.
Proof.
  intros H. destruct (call_body frames body moov rs re) as (frames' & -> & E);
    [by rewrite H|].
  exists frames'. by rewrite <- E.
Qed.

Lemma call_Raised frames body moov rs re moov' :
  call frames body moov rs re = Raised moov' ->
  exists frames', frames = S frames' /\ body frames' moov rs re = Raised moov'.
Proof.
  intros H. destruct (call_body frames body moov rs re) as (frames' & -> & E);
    [by rewrite H|].
  exists frames'. by rewrite <- E.
Qed.

(** The effect of the body of the [for] on one box, given the effect of
    the nested runs. *)
Lemma visit_effect (rec : bytes -> Z -> Z -> ran) f moov i e b0 moov1 :
  (forall moov i e moov',
      (Z.to_nat (e - i) <= f)%nat ->
      0 <= i -> e <= len moov ->
      rec moov i e = Done moov' ->
      effect delta moov (reachable moov i e) i e moov') ->
  (Z.to_nat (e - i) <= S f)%nat ->
  0 <= i -> e <= len moov -> i + 8 <= e ->
  read_box moov i e = Some b0 ->
  visit rec delta b0 moov = Done moov1 ->
  effect delta moov (below moov b0) i (i + box_size b0) moov1.
Proof.
  intros IH Hf Hi He G' R V. unfold below.
  destruct (read_box_Some _ _ _ _ R) as (Hs & _ & Hz & Hhs & Hend).
  pose proof (read_size_header _ _ _ _ _ Hz) as Hh.
  revert V. unfold visit, children. rewrite Hs.
    destruct (bool_decide (box_typ b0 ∈ ContainerBoxes)) eqn:Hc.
    - apply bool_decide_eq_true_1 in Hc.
      assert (Hdown : forall cs,
        i + box_header b0 <= cs ->
        rec moov cs (i + box_size b0) = Done moov1 ->
        effect delta moov
          (fun b => b = b0 \/
             exists cs' ce', Some (cs, i + box_size b0) = Some (cs', ce') /\
                             reachable moov cs' ce' b)
          i (i + box_size b0) moov1).
      { intros cs Hcs V. apply IH in V; [|lia|lia|lia].
        eapply effect_cover; [exact V|lia|lia| |].
        - intros b Hb. right. eauto.
        - intros b [->|(cs' & ce' & [= <- <-] & Hb)]; auto. }
      destruct (bool_decide (box_typ b0 = lit "meta")).
      + destruct (i + box_header b0 + 4 <=? i + box_size b0) eqn:G4.
        * apply Hdown. lia.
        * intros [= <-]. apply effect_id.
          intros b [->|(cs & ce & [=] & _)]. by apply container_not_table.
      + apply Hdown. lia.
    - apply bool_decide_eq_false_1 in Hc.
      assert (Hleaf : forall moov2,
        effect delta moov (fun b => b = b0) i (i + box_size b0) moov2 ->
        effect delta moov
          (fun b => b = b0 \/
             exists cs ce, @None (Z * Z) = Some (cs, ce) /\ reachable moov cs ce b)
          i (i + box_size b0) moov2).
      { intros moov2 E. eapply effect_cover; [exact E|lia|lia| |].
        - intros b ->. by left.
        - intros b [->|(cs & ce & [=] & _)]. by left. }
      destruct (bool_decide (box_typ b0 = lit "stco")) eqn:H1.
      { rewrite patch_stco_table.
        destruct (table_in 4 moov (i + box_header b0) (i + box_size b0))
          as [[[w ts] n]|] eqn:T.
        - intros V. apply Hleaf. rewrite <- Hs.
          pose proof T as T'. apply table_in_Some in T'.
          destruct T' as (n' & [= -> -> <-] & _).
          apply (table_effect 4 moov b0 (i + box_header b0 + 8) n);
            [lia| |lia|lia|lia|done].
          unfold table_of. by rewrite H1, Hs.
        - intros [= <-]. apply Hleaf, effect_id.
          intros b ->. unfold table_of. by rewrite H1, Hs. }
      destruct (bool_decide (box_typ b0 = lit "co64")) eqn:H2.
      { rewrite patch_co64_table.
        destruct (table_in 8 moov (i + box_header b0) (i + box_size b0))
          as [[[w ts] n]|] eqn:T.
        - intros V. apply Hleaf. rewrite <- Hs.
          pose proof T as T'. apply table_in_Some in T'.
          destruct T' as (n' & [= -> -> <-] & _).
          apply (table_effect 8 moov b0 (i + box_header b0 + 8) n);
            [lia| |lia|lia|lia|done].
          unfold table_of. by rewrite H1, H2, Hs.
        - intros [= <-]. apply Hleaf, effect_id.
          intros b ->. unfold table_of. by rewrite H1, H2, Hs. }
      intros [= <-]. apply Hleaf, effect_id.
      intros b ->. unfold table_of. by rewrite H1, H2.
Qed.

(** With enough fuel, a run of [recurse] over a region that returns has
    the effect on the tables of the boxes reachable in the region, those
    boxes being the ones of the bytearray the run started from. *)
Lemma recurse_loop_effect f : forall frames moov i e moov',
  (Z.to_nat (e - i) <= f)%nat ->
  0 <= i -> e <= len moov ->
  recurse_loop f frames delta moov i e = Done moov' ->
  effect delta moov (reachable moov i e) i e moov'.
Proof.
  induction f as [|f IH]; intros frames moov i e moov' Hf Hi He Hrun.
  { simpl in Hrun. injection Hrun as <-.
    apply no_boxes_effect, iter_boxes_short. lia. }
  simpl in Hrun. destruct (i + 8 <=? e) eqn:G.
  2:{ injection Hrun as <-. apply no_boxes_effect, iter_boxes_short. lia. }
  assert (G' : i + 8 <= e) by lia.
  destruct (read_box moov i e) as [b0|] eqn:R.
  2:{ injection Hrun as <-. by apply no_boxes_effect, iter_boxes_break. }
  destruct (visit _ delta b0 moov) as [moov1|moov1|moov1] eqn:V;
    simpl in Hrun; [|done|done].
  destruct (read_box_Some _ _ _ _ R) as (Hs & _ & Hz & Hhs & Hend).
  pose proof (read_size_header _ _ _ _ _ Hz) as Hh.
  assert (EB : effect delta moov (below moov b0) i (i + box_size b0) moov1).
  { eapply (visit_effect _ f); [|exact Hf|done..|exact V].
    intros m j e' m' Hf' Hj He' Hc.
    apply call_Done in Hc. destruct Hc as (frames' & _ & Hc). by eapply IH. }
  unfold below in EB.
  pose proof EB as (Hl1 & _ & Haft1 & _).
  assert (Ha1 : agree moov1 moov (i + box_size b0) e)
    by (eapply agree_sub; [exact Haft1|lia|lia]).
  apply IH in Hrun; [|lia|lia|unfold len in *; lia].
  assert (ER : effect delta moov1 (reachable moov (i + box_size b0) e)
                 (i + box_size b0) e moov').
  { eapply effect_cover; [exact Hrun|lia|lia| |].
    - intros b Hb. eapply reachable_local; [| | | |exact Hb];
        [done|lia|unfold len in *; lia|done].
    - intros b Hb. left. eapply reachable_local; [| | | |exact Hb];
        [done|lia|lia|by apply agree_sym]. }
  pose proof (effect_seq delta moov moov1 moov' _ _ i (i + box_size b0) e
                ltac:(lia) ltac:(lia) ltac:(lia) EB ER) as S.
  eapply effect_cover; [apply S|lia|lia| |].
  - intros b [->|(cs & ce & Hch & Hb)].
    + lia.
    + apply children_Some in Hch. destruct Hch as (_ & ? & ->).
      apply reachable_within in Hb; lia.
  - intros b Hb. apply reachable_within in Hb; lia.
  - intros b Hb. apply (reachable_cons moov i e b0 _ b (iter_boxes_yield _ _ _ _ G' R)).
    destruct Hb as [[->|(cs & ce & Hch & Hb)]|Hb]; auto.
    { right; left; eauto. }
    destruct Hb as [rs re b Hb|rs re c cs ce b Hc Hch Hb]; [auto|].
    right; right; right. eauto 6.
  - intros b Hb. left.
    apply (reachable_cons moov i e b0 _ b (iter_boxes_yield _ _ _ _ G' R)) in Hb.
    destruct Hb as [->|[(cs & ce & Hch & Hb)|[Hb|(c & cs & ce & Hc & Hch & Hb)]]].
    + by left; left.
    + left; right; eauto.
    + right. by apply reachable_here.
    + right. by eapply reachable_below.
Qed.

(** The effect of the body of the [for] on one box. *)
Lemma visit_recurse_effect f frames moov i e b0 moov1 :
  (Z.to_nat (e - i) <= S f)%nat ->
  0 <= i -> e <= len moov -> i + 8 <= e ->
  read_box moov i e = Some b0 ->
  visit (call frames (fun frames' => recurse_loop f frames' delta)) delta b0 moov
  = Done moov1 ->
  effect delta moov (below moov b0) i (i + box_size b0) moov1.
Proof.
  intros Hf Hi He G R V.
  eapply (visit_effect _ f); [|exact Hf|done..|exact V].
  intros m j e' m' Hf' Hj He' Hc.
  apply call_Done in Hc. destruct Hc as (frames' & _ & Hc).
  by eapply recurse_loop_effect.
Qed.

End Rewriter.

Section Raising.

Variable delta : Z.

Lemma reachable_rest moov i e b0 b :
  iter_boxes moov i e = b0 :: iter_boxes moov (i + box_size b0) e ->
  reachable moov (i + box_size b0) e b -> reachable moov i e b.
Proof.
  intros E Hb. apply (reachable_cons moov i e b0 _ b E).
  destruct Hb as [rs re b Hb|rs re c cs ce b Hc Hch Hb]; [auto|].
  right; right; right. eauto 6.
Qed.

Lemma table_raised (w : nat) moov b0 table_start entry_count moov1 :
  (0 < w)%nat ->
  table_of moov b0 = Some (Z.of_nat w, table_start, entry_count) ->
  0 <= box_start b0 -> 8 <= box_header b0 ->
  box_start b0 + box_size b0 <= len moov ->
  for_each (range entry_count) (patch_entry w delta table_start) moov = Raised moov1 ->
  exists k, 0 <= k < entry_count /\
    ~ 0 <= entry (Z.of_nat w) table_start moov k + delta < 256 ^ Z.of_nat w.
Proof.
  intros Hw Ht Hs Hh He Hrun.
  destruct (table_of_Some _ _ _ _ _ Ht) as (_ & Hts & Hn & Hext & _).
  assert (Hts0 : 0 <= table_start) by lia.
  pose proof (for_each_patch w Hw delta table_start Hts0 (Z.to_nat entry_count) 0 moov)
    as P.
  unfold range in Hrun. rewrite Hrun in P.
  replace (Z.of_nat (0 + Z.to_nat entry_count)) with entry_count in P by lia.
  destruct P as (_ & _ & j & Hj & _ & _ & Hbad); [lia|].
  exists j. split; [lia|done].
Qed.

(** A run of [recurse] raises only at an entry that overflows. *)
Lemma recurse_loop_raised f : forall frames moov i e moov',
  (Z.to_nat (e - i) <= f)%nat ->
  0 <= i -> e <= len moov ->
  recurse_loop f frames delta moov i e = Raised moov' ->
  overflows delta moov i e.
Proof.
  induction f as [|f IH]; intros frames moov i e moov' Hf Hi He Hrun; [done|].
  simpl in Hrun. destruct (i + 8 <=? e) eqn:G; [|done].
  assert (G' : i + 8 <= e) by lia.
  destruct (read_box moov i e) as [b0|] eqn:R; [|done].
  pose proof (iter_boxes_yield _ _ _ _ G' R) as E.
  destruct (read_box_Some _ _ _ _ R) as (Hs & _ & Hz & Hhs & Hend).
  pose proof (read_size_header _ _ _ _ _ Hz) as Hh.
  destruct (visit _ delta b0 moov) as [moov1|moov1|moov1] eqn:V;
    simpl in Hrun; [| |done].
  - pose proof (visit_recurse_effect delta f frames moov i e b0 moov1
                  Hf Hi He G' R V)
      as (Hl1 & _ & Haft1 & _).
    assert (Ha1 : agree moov1 moov (i + box_size b0) e)
      by (eapply agree_sub; [exact Haft1|lia|lia]).
    apply IH in Hrun; [|lia|lia|unfold len in *; lia].
    destruct Hrun as (b & w & ts & n & k & Hb & Ht & Hk & Hbad).
    assert (H0 : 0 <= i + box_size b0) by lia.
    pose proof (reachable_within _ _ _ _ H0 Hb) as (? & ? & ?).
    destruct (table_of_Some _ _ _ _ _ Ht) as (Hw & Hts & Hn & Hext & _).
    exists b, w, ts, n, k. repeat split; try lia.
    + apply (reachable_rest moov i e b0 b E).
      eapply reachable_local; [| | | |exact Hb];
        [done|lia|unfold len in *; lia|done].
    + rewrite <- Ht. symmetry.
      apply table_of_local; [done|lia|lia|unfold len in *; lia|].
      eapply agree_sub; [exact Ha1|lia|lia].
    + intros Hin. apply Hbad.
      rewrite (entry_agree_Z w ts moov1 moov k); [done|done|lia|lia|lia| |].
      * unfold len in *. nia.
      * eapply agree_sub; [exact Ha1|nia|nia].
  - clear Hrun. revert V. unfold visit. rewrite Hs.
    destruct (bool_decide (box_typ b0 ∈ ContainerBoxes)) eqn:Hc.
    + apply bool_decide_eq_true_1 in Hc.
      assert (Hdown : forall cs,
        i + box_header b0 <= cs ->
        children b0 = Some (cs, i + box_size b0) ->
        call frames (fun frames' => recurse_loop f frames' delta)
             moov cs (i + box_size b0) = Raised moov1 ->
        overflows delta moov i e).
      { intros cs Hcs Hch V. apply call_Raised in V.
        destruct V as (frames' & _ & V). apply IH in V; [|lia|lia|lia].
        destruct V as (b & w & ts & n & k & Hb & Ht & Hk & Hbad).
        exists b, w, ts, n, k. repeat split; try done; try lia.
        eapply reachable_below; [|exact Hch|exact Hb]. rewrite E. by left. }
      destruct (bool_decide (box_typ b0 = lit "meta")) eqn:Hm.
      * destruct (i + box_header b0 + 4 <=? i + box_size b0) eqn:G4; [|done].
        apply Hdown; [lia|]. unfold children.
        rewrite Hs, (bool_decide_eq_true_2 _ Hc), Hm, G4. done.
      * apply Hdown; [lia|]. unfold children.
        rewrite Hs, (bool_decide_eq_true_2 _ Hc), Hm. done.
    + assert (Hhere : forall (w : nat) n,
        (0 < w)%nat ->
        table_of moov b0 = Some (Z.of_nat w, i + box_header b0 + 8, n) ->
        for_each (range n) (patch_entry w delta (i + box_header b0 + 8)) moov
        = Raised moov1 ->
        overflows delta moov i e).
      { intros w n Hw Ht V.
        destruct (table_raised w moov b0 _ n moov1 Hw Ht) as (k & Hk & Hbad);
          [lia|lia|lia|done|].
        exists b0, (Z.of_nat w), (i + box_header b0 + 8), n, k.
        repeat split; try done; try lia.
        apply reachable_here. rewrite E. by left. }
      destruct (bool_decide (box_typ b0 = lit "stco")) eqn:H1.
      { rewrite patch_stco_table.
        destruct (table_in 4 moov (i + box_header b0) (i + box_size b0))
          as [[[w ts] n]|] eqn:T; [|done].
        pose proof T as T'. apply table_in_Some in T'.
        destruct T' as (n' & [= -> -> <-] & _).
        apply (Hhere 4%nat n); [lia|]. unfold table_of. by rewrite H1, Hs. }
      destruct (bool_decide (box_typ b0 = lit "co64")) eqn:H2; [|done].
      rewrite patch_co64_table.
      destruct (table_in 8 moov (i + box_header b0) (i + box_size b0))
        as [[[w ts] n]|] eqn:T; [|done].
      pose proof T as T'. apply table_in_Some in T'.
      destruct T' as (n' & [= -> -> <-] & _).
      apply (Hhere 8%nat n); [lia|]. unfold table_of. by rewrite H1, H2, Hs.
Qed.

End Raising.

(** * The nesting of the calls *)

Section Depth.

Variable delta : Z.

Lemma too_deep_local moov moov' frames rs re :
  length moov = length moov' ->
  0 <= rs -> re <= len moov ->
  agree moov moov' rs re ->
  too_deep moov frames rs re -> too_deep moov' frames rs re.
Proof.
  intros Hl Hrs Hre Ha H.
  induction H as [rs re|frames rs re c cs ce Hc Hch _ IH].
  - constructor.
  - pose proof (iter_boxes_Forall moov rs re) as F.
    rewrite Forall_forall in F. destruct (F c Hc) as (? & _ & ? & ? & ?).
    pose proof (children_Some _ _ _ Hch) as (_ & ? & ->).
    eapply too_deep_below; [|exact Hch|].
    + by rewrite <- (iter_boxes_local moov moov').
    + apply IH; [lia|lia|]. eapply agree_sub; [exact Ha|lia|lia].
Qed.

(** The calls nested in a call: those below its first box, and those of
    the rest of its loop. *)
Lemma too_deep_split moov frames i e b0 :
  iter_boxes moov i e = b0 :: iter_boxes moov (i + box_size b0) e ->
  too_deep moov (S frames) i e <->
  (exists cs ce, children b0 = Some (cs, ce) /\ too_deep moov frames cs ce)
  \/ too_deep moov (S frames) (i + box_size b0) e.
Proof.
  intros E. split.
  - intros H. inversion H as [|d rs re c cs ce Hc Hch Hd]; subst.
    rewrite E in Hc. apply elem_of_cons in Hc. destruct Hc as [->|Hc].
    + left. eauto.
    + right. by eapply too_deep_below.
  - intros [(cs & ce & Hch & Hd)|H].
    + eapply too_deep_below; [|exact Hch|exact Hd]. rewrite E. by left.
    + inversion H as [|d rs re c cs ce Hc Hch Hd]; subst.
      eapply too_deep_below; [|exact Hch|exact Hd]. rewrite E. by right.
Qed.

Lemma too_deep_nonempty moov frames i e :
  iter_boxes moov i e = [] -> ~ too_deep moov (S frames) i e.
Proof.
  intros E H. inversion H as [|d rs re c cs ce Hc Hch Hd]; subst.
  rewrite E in Hc. by apply elem_of_nil in Hc.
Qed.

(** More room is never too little. *)
Lemma too_deep_more moov frames rs re :
  too_deep moov (S frames) rs re -> too_deep moov frames rs re.
Proof.
  revert rs re. induction frames as [|frames IH]; intros rs re H;
    [constructor|].
  inversion H as [|d rs' re' c cs ce Hc Hch Hd]; subst.
  eapply too_deep_below; [exact Hc|exact Hch|]. by apply IH.
Qed.

(** The loops over the entries of a table make no call of [recurse]. *)
Lemma for_each_patch_frames w table_start ks : forall moov moov',
  for_each ks (patch_entry w delta table_start) moov <> Raised_RecursionError moov'.
Proof.
  induction ks as [|k ks IH]; intros moov moov'; simpl; [done|].
  destruct (patch_entry w delta table_start k moov) as [m|m|m] eqn:E; simpl.
  - apply IH.
  - done.
  - unfold patch_entry in E. by destruct (to_bytes w _).
Qed.

Lemma patch_stco_frames ds de moov moov' :
  patch_stco delta ds de moov <> Raised_RecursionError moov'.
Proof.
  rewrite patch_stco_table.
  destruct (table_in 4 moov ds de) as [[[w ts] n]|]; [|done].
  apply for_each_patch_frames.
Qed.

Lemma patch_co64_frames ds de moov moov' :
  patch_co64 delta ds de moov <> Raised_RecursionError moov'.
Proof.
  rewrite patch_co64_table.
  destruct (table_in 8 moov ds de) as [[[w ts] n]|]; [|done].
  apply for_each_patch_frames.
Qed.

(** How the body of the [for] ends on one box, by how the nested call
    ends: [D] tells of a region that the call over it runs out of
    stack. *)
Lemma visit_depth (rec : bytes -> Z -> Z -> ran) (D : Z -> Z -> Prop) moov b0 :
  (forall cs, box_start b0 + box_header b0 <= cs ->
     match rec moov cs (box_start b0 + box_size b0) with
     | Done _ => ~ D cs (box_start b0 + box_size b0)
     | Raised _ => True
     | Raised_RecursionError _ => D cs (box_start b0 + box_size b0)
     end) ->
  match visit rec delta b0 moov with
  | Done _ => ~ (exists cs ce, children b0 = Some (cs, ce) /\ D cs ce)
  | Raised _ => True
  | Raised_RecursionError _ => exists cs ce, children b0 = Some (cs, ce) /\ D cs ce
  end.
Proof.
  intros H. unfold visit, children.
  destruct (bool_decide (box_typ b0 ∈ ContainerBoxes)).
  - assert (Hdown : forall cs, box_start b0 + box_header b0 <= cs ->
      match rec moov cs (box_start b0 + box_size b0) with
      | Done _ =>
          ~ (exists cs' ce', Some (cs, box_start b0 + box_size b0) = Some (cs', ce')
                             /\ D cs' ce')
      | Raised _ => True
      | Raised_RecursionError _ =>
          exists cs' ce', Some (cs, box_start b0 + box_size b0) = Some (cs', ce')
                          /\ D cs' ce'
      end).
    { intros cs Hcs. specialize (H cs Hcs).
      destruct (rec moov cs _); [|done|eauto].
      by intros (cs' & ce' & [= <- <-] & HD). }
    destruct (bool_decide (box_typ b0 = lit "meta")).
    + destruct (_ <=? _); [apply Hdown; lia|].
      by intros (cs & ce & [=] & _).
    + apply Hdown. lia.
  - destruct (bool_decide (box_typ b0 = lit "stco")).
    { destruct (patch_stco _ _ _ _) as [m|m|m] eqn:P; [|done|].
      - by intros (cs & ce & [=] & _).
      - by apply patch_stco_frames in P. }
    destruct (bool_decide (box_typ b0 = lit "co64")).
    { destruct (patch_co64 _ _ _ _) as [m|m|m] eqn:P; [|done|].
      - by intros (cs & ce & [=] & _).
      - by apply patch_co64_frames in P. }
    by intros (cs & ce & [=] & _).
Qed.

(** A run of the loop of [recurse] that returns found room for every
    nested call, and one that raises [RecursionError] did not: the boxes
    are those of the bytearray the run started from. *)
Lemma recurse_loop_depth f : forall frames moov i e,
  (Z.to_nat (e - i) <= f)%nat ->
  0 <= i -> e <= len moov ->
  match recurse_loop f frames delta moov i e with
  | Done _ => ~ too_deep moov (S frames) i e
  | Raised _ => True
  | Raised_RecursionError _ => too_deep moov (S frames) i e
  end.
Proof.
  induction f as [|f IH]; intros frames moov i e Hf Hi He.
  { simpl. apply too_deep_nonempty, iter_boxes_short. lia. }
  simpl. destruct (i + 8 <=? e) eqn:G.
  2:{ apply too_deep_nonempty, iter_boxes_short. lia. }
  assert (G' : i + 8 <= e) by lia.
  destruct (read_box moov i e) as [b0|] eqn:R.
  2:{ by apply too_deep_nonempty, iter_boxes_break. }
  pose proof (iter_boxes_yield _ _ _ _ G' R) as E.
  destruct (read_box_Some _ _ _ _ R) as (Hs & _ & Hz & Hhs & Hend).
  pose proof (read_size_header _ _ _ _ _ Hz) as Hh.
  assert (V : match visit (call frames (fun frames' => recurse_loop f frames' delta))
                        delta b0 moov with
              | Done _ =>
                  ~ (exists cs ce, children b0 = Some (cs, ce)
                                   /\ too_deep moov frames cs ce)
              | Raised _ => True
              | Raised_RecursionError _ =>
                  exists cs ce, children b0 = Some (cs, ce)
                                /\ too_deep moov frames cs ce
              end).
  { apply visit_depth. intros cs Hcs.
    destruct frames as [|frames']; simpl; [constructor|].
    apply IH; lia. }
  destruct (visit _ delta b0 moov) as [moov1|moov1|moov1] eqn:EV; simpl.
  - pose proof (visit_recurse_effect delta f frames moov i e b0 moov1
                  Hf Hi He G' R EV) as (Hl1 & _ & Haft1 & _).
    assert (Ha1 : agree moov1 moov (i + box_size b0) e)
      by (eapply agree_sub; [exact Haft1|lia|lia]).
    assert (He1 : e <= len moov1) by (unfold len in *; lia).
    pose proof (IH frames moov1 (i + box_size b0) e ltac:(lia) ltac:(lia) He1)
      as IR.
    destruct (recurse_loop f frames delta moov1 (i + box_size b0) e); [|done|].
    + intros H. apply (too_deep_split moov frames i e b0 E) in H.
      destruct H as [Hb|Hr]; [by apply V|]. apply IR.
      apply (too_deep_local moov moov1); [lia|lia|lia|by apply agree_sym|done].
    + apply (too_deep_split moov frames i e b0 E). right.
      apply (too_deep_local moov1 moov); [lia|lia|lia|done|done].
  - done.
  - apply (too_deep_split moov frames i e b0 E). by left.
Qed.

End Depth.

(** * [recurse] is the loop of the source *)

Section Unfold.

Variable delta : Z.

Lemma visit_ext (rec1 rec2 : bytes -> Z -> Z -> ran) b moov :
  (forall cs, box_start b + box_header b <= cs ->
     rec1 moov cs (box_start b + box_size b)
     = rec2 moov cs (box_start b + box_size b)) ->
  visit rec1 delta b moov = visit rec2 delta b moov.
Proof.
  intros H. unfold visit.
  destruct (bool_decide (box_typ b ∈ ContainerBoxes)); [|done].
  destruct (bool_decide (box_typ b = lit "meta")).
  - destruct (_ <=? _); [|done]. apply H. lia.
  - apply H. lia.
Qed.

Lemma recurse_loop_fuel f1 : forall f2 frames moov i e,
  (Z.to_nat (e - i) <= f1)%nat -> (Z.to_nat (e - i) <= f2)%nat ->
  recurse_loop f1 frames delta moov i e = recurse_loop f2 frames delta moov i e.
Proof.
  induction f1 as [|f1 IH]; intros [|f2] frames moov i e H1 H2; simpl; try done.
  - destruct (i + 8 <=? e) eqn:G; [lia|done].
  - destruct (i + 8 <=? e) eqn:G; [lia|done].
  - destruct (i + 8 <=? e) eqn:G; [|done].
    destruct (read_box moov i e) as [b|] eqn:R; [|done].
    destruct (read_box_Some _ _ _ _ R) as (Hs & _ & Hz & Hhs & Hend).
    pose proof (read_size_header _ _ _ _ _ Hz) as Hh.
    rewrite (visit_ext (call frames (fun frames' => recurse_loop f1 frames' delta))
               (call frames (fun frames' => recurse_loop f2 frames' delta))).
    + destruct (visit _ _ _ _) as [moov1|moov1|moov1]; [|done|done]. simpl.
      apply IH; lia.
    + intros cs Hcs. destruct frames as [|frames']; [done|]. apply IH; lia.
Qed.

(** A call that the stack has no room for raises, and leaves the
    bytearray as it is. *)
Lemma recurse_no_frame moov rs re :
  recurse 0 delta moov rs re = Raised_RecursionError moov.
Proof. done. Qed.

(** A call that has room runs the loop of the source: the nested calls
    have room for one call less, and the rest of the loop is what the
    call does from the next cursor on. *)
Lemma recurse_unfold frames moov i e :
  recurse (S frames) delta moov i e =
  if i + 8 <=? e then
    match read_box moov i e with
    | None => Done moov
    | Some b =>
        and_then (visit (recurse frames delta) delta b moov)
                 (fun moov' => recurse (S frames) delta moov' (i + box_size b) e)
    end
  else Done moov.
Proof.
  unfold recurse. simpl call.
  destruct (i + 8 <=? e) eqn:G.
  - destruct (Z.to_nat (e - i)) as [|f] eqn:F; [lia|]. simpl. rewrite G.
    destruct (read_box moov i e) as [b|] eqn:R; [|done].
    destruct (read_box_Some _ _ _ _ R) as (Hs & _ & Hz & Hhs & Hend).
    pose proof (read_size_header _ _ _ _ _ Hz) as Hh.
    rewrite (visit_ext (call frames (fun frames' => recurse_loop f frames' delta))
               (call frames
                  (fun frames' moov rs re =>
                     recurse_loop (Z.to_nat (re - rs)) frames' delta moov rs re))).
    + destruct (visit _ _ _ _) as [moov1|moov1|moov1]; [|done|done]. simpl.
      apply recurse_loop_fuel; lia.
    + intros cs Hcs. destruct frames as [|frames']; [done|].
      apply recurse_loop_fuel; lia.
  - destruct (Z.to_nat (e - i)); simpl; [done|by rewrite G].
Qed.

End Unfold.

(** * The offset rewriter *)

Lemma entry_range w table_start (moov : bytes) k :
  0 <= w -> 0 <= table_start + k * w ->
  table_start + k * w + w <= len moov ->
  0 <= entry w table_start moov k < 256 ^ w.
Proof.
  intros Hw H0 H1. unfold entry.
  pose proof (from_bytes_range
                (slice moov (table_start + k * w) (table_start + k * w + w))) as H.
  rewrite length_slice in H by lia.
  replace (Z.of_nat (Z.to_nat (table_start + k * w + w - (table_start + k * w))))
    with w in H by lia.
  exact H.
Qed.

Lemma adjust_chunk_offsets_effect frames moov delta moov' :
  adjust_chunk_offsets frames moov delta = Done moov' ->
  effect delta moov (reachable moov 0 (len moov)) 0 (len moov) moov'.
Proof.
  intros H. apply call_Done in H. destruct H as (frames' & _ & H).
  eapply recurse_loop_effect; [|lia|lia|exact H]. lia.
Qed.

Lemma adjust_chunk_offsets_raised frames moov delta moov' :
  adjust_chunk_offsets frames moov delta = Raised moov' ->
  overflows delta moov 0 (len moov).
Proof.
  intros H. apply call_Raised in H. destruct H as (frames' & _ & H).
  eapply recurse_loop_raised; [|lia|lia|exact H]. lia.
Qed.

(** A run that returns found room on the stack for every nested call,
    and a run that raises [RecursionError] did not. *)
Lemma adjust_chunk_offsets_depth frames moov delta :
  match adjust_chunk_offsets frames moov delta with
  | Done _ => ~ too_deep moov frames 0 (len moov)
  | Raised _ => True
  | Raised_RecursionError _ => too_deep moov frames 0 (len moov)
  end.
Proof.
  unfold adjust_chunk_offsets, recurse.
  destruct frames as [|frames']; simpl; [constructor|].
  apply recurse_loop_depth; lia.
Qed.

Lemma adjust_chunk_offsets_room frames moov delta moov' :
  adjust_chunk_offsets frames moov delta = Done moov' ->
  ~ too_deep moov frames 0 (len moov).
Proof.
  intros H. pose proof (adjust_chunk_offsets_depth frames moov delta) as D.
  by rewrite H in D.
Qed.

Lemma adjust_chunk_offsets_no_room frames moov delta moov' :
  adjust_chunk_offsets frames moov delta = Raised_RecursionError moov' ->
  too_deep moov frames 0 (len moov).
Proof.
  intros H. pose proof (adjust_chunk_offsets_depth frames moov delta) as D.
  by rewrite H in D.
Qed.

(** The run returns exactly when no entry overflows and the stack has
    the room. *)
Lemma adjust_chunk_offsets_returns frames moov delta :
  (exists moov', adjust_chunk_offsets frames moov delta = Done moov')
  <-> ~ overflows delta moov 0 (len moov)
      /\ ~ too_deep moov frames 0 (len moov).
Proof.
  split.
  - intros [moov' H]. split.
    + intros (b & w & ts & n & k & Hb & Ht & Hk & Hbad).
      apply adjust_chunk_offsets_effect in H.
      destruct H as (Hl & _ & _ & Hent & _).
      pose proof (reachable_within _ _ _ _ ltac:(done) Hb) as (? & ? & ?).
      destruct (table_of_Some _ _ _ _ _ Ht) as (Hw & Hts & Hn & Hext & _).
      apply Hbad. rewrite <- (Hent b w ts n k Hb Ht Hk).
      apply entry_range; [lia|nia|]. unfold len in *. rewrite Hl. nia.
    + by eapply adjust_chunk_offsets_room.
  - intros [Hno Hroom].
    destruct (adjust_chunk_offsets frames moov delta) as [moov'|moov'|moov'] eqn:E.
    + by exists moov'.
    + by apply adjust_chunk_offsets_raised in E.
    + by apply adjust_chunk_offsets_no_room in E.
Qed.

Lemma adjust_chunk_offsets_fits frames moov delta moov' :
  adjust_chunk_offsets frames moov delta = Done moov' ->
  ~ overflows delta moov 0 (len moov).
Proof.
  intros H. apply (adjust_chunk_offsets_returns frames moov delta). by exists moov'.
Qed.

(** The [stco] of [moov_full] and its one entry. *)
Lemma adjust_chunk_offsets_full_entry_reach :
  reachable moov_full 0 (len moov_full) (Box (lit "stco") 8 20 8)
  /\ table_of moov_full (Box (lit "stco") 8 20 8) = Some (4, 24, 1)
  /\ entry 4 24 moov_full 0 = 2 ^ 32 - 1.
Proof.
  split; [|split; reflexivity].
  apply (reachable_below _ _ _ (Box (lit "moov") 0 28 8) 8 28).
  - in_walk.
  - reflexivity.
  - apply reachable_here. in_walk.
Qed.


(** Nor does it hold at every depth: with room for 1000 nested calls, on
    an [stco] inside 1200 nested boxes the run raises [RecursionError]
    and the entry is not rewritten. *)
Lemma adjust_chunk_offsets_deep_entry :
  adjust_chunk_offsets 1000 (nested_udta 1200) 1
  = Raised_RecursionError (nested_udta 1200)
  /\ table_of (nested_udta 1200) (Box (lit "stco") 9600 20 8) = Some (4, 9616, 1)
  /\ entry 4 9616 (nested_udta 1200) 0 = 100
  /\ entry 4 9616 (buffer (adjust_chunk_offsets 1000 (nested_udta 1200) 1)) 0 = 100.
Proof.
  assert (H : adjust_chunk_offsets 1000 (nested_udta 1200) 1
              = Raised_RecursionError (nested_udta 1200)) by (by vm_compute).
  rewrite H. repeat split; by vm_compute.
Qed.



(** C10.  [_p32] and [_p64] encode exactly: a value below 0, or at least
    2^32 (respectively 2^64), is not encoded modulo the word size but
    raises.  So [adjust_chunk_offsets] raises whenever an entry of a
    reachable table plus [delta] leaves the range of its width:
    [OverflowError], unless the stack runs out first under boxes that
    nest too deep, which raises [RecursionError].  And the bytearray is
    not rolled back: on [moov_two] with a delta of 1 the run raises at
    the [co64] of the second track, and the entries of the [stco] of the
    first track stay rewritten; a negative sum (an entry of 100 with a
    delta of -101) and a 32-bit entry that reaches 2^32 raise as well.
    The three runs are shown with room for 3 nested calls or more. *)
Theorem adjust_chunk_offsets_overflow :
  (forall v, _p32 v = None <-> v < 0 \/ 2 ^ 32 <= v)
  /\ (forall v, _p64 v = None <-> v < 0 \/ 2 ^ 64 <= v)
  /\ (forall frames moov delta,
         overflows delta moov 0 (len moov) ->
         exists moov',
           adjust_chunk_offsets frames moov delta = Raised moov'
           \/ (adjust_chunk_offsets frames moov delta = Raised_RecursionError moov'
               /\ too_deep moov frames 0 (len moov)))
  /\ (forall frames, exists moov',
         adjust_chunk_offsets (3 + frames) moov_two 1 = Raised moov'
         /\ entry 4 32 moov_two 0 = 100 /\ entry 4 32 moov' 0 = 101
         /\ entry 4 32 moov_two 1 = 200 /\ entry 4 32 moov' 1 = 201
         /\ entry 8 64 moov_two 0 = 2 ^ 64 - 1 /\ entry 8 64 moov' 0 = 2 ^ 64 - 1
         /\ moov' <> moov_two)
  /\ (forall frames,
         adjust_chunk_offsets (3 + frames) moov_two (-101) = Raised moov_two)
  /\ (forall frames,
         adjust_chunk_offsets (3 + frames) moov_full 1 = Raised moov_full).
Proof.
  split; [|split; [|split; [|split; [|split]]]].
  - intros v. apply (to_bytes_None 4 v).
  - intros v. apply (to_bytes_None 8 v).
  - intros frames moov delta Hov.
    destruct (adjust_chunk_offsets frames moov delta) as [moov'|moov'|moov'] eqn:E.
    + by apply adjust_chunk_offsets_fits in E.
    + exists moov'. by left.
    + exists moov'. right. split; [done|].
      by apply adjust_chunk_offsets_no_room in E.
  - intros frames. exists (buffer (adjust_chunk_offsets 3 moov_two 1)).
    repeat split; try reflexivity. by vm_compute.
  - reflexivity.
  - reflexivity.
Qed.

Lemma adjust_chunk_offsets_overflow_witness :
  exists moov', adjust_chunk_offsets 1000 moov_full 1 = Raised moov'.
Proof.
  destruct adjust_chunk_offsets_overflow as (_ & _ & H & _).
  destruct (H 1000%nat moov_full 1) as [moov' [E|[E _]]].
  - exists (Box (lit "stco") 8 20 8), 4, 24, 1, 0.
    destruct adjust_chunk_offsets_full_entry_reach as (Hr & Ht & He).
    split; [exact Hr|]. split; [exact Ht|]. split; [lia|].
    rewrite He. lia.
  - by exists moov'.
  - vm_compute in E. discriminate.
Defined.

(** * The top-level atoms *)

Section Atoms.

Lemma fold_atoms_miss (l : list box) : forall (m : gmap str span) t,
  Forall (fun b => box_typ b <> t) l ->
  fold_left (fun out b => <[box_typ b := span_of b]> out) l m !! t = m !! t.
Proof.
  induction l as [|b l IH]; intros m t H; [done|].
  inversion H as [|? ? Hb Hl]; subst. simpl.
  rewrite IH by done. by apply lookup_insert_ne.
Qed.

Lemma fold_atoms_last (pre post : list box) (b : box) (m : gmap str span) :
  Forall (fun c => box_typ c <> box_typ b) post ->
  fold_left (fun out b => <[box_typ b := span_of b]> out) (pre ++ b :: post) m
    !! box_typ b
  = Some (span_of b).
Proof.
  intros H. rewrite fold_left_app. simpl.
  rewrite fold_atoms_miss by done. apply lookup_insert_eq.
Qed.

Lemma fold_atoms_elem (l : list box) : forall (m : gmap str span) t s,
  fold_left (fun out b => <[box_typ b := span_of b]> out) l m !! t = Some s ->
  m !! t = Some s \/ exists b, b ∈ l /\ box_typ b = t /\ span_of b = s.
Proof.
  induction l as [|b l IH]; intros m t s H; [by left|].
  simpl in H. apply IH in H. destruct H as [H|(c & Hc & Ht & Hs)].
  - destruct (decide (box_typ b = t)) as [E|E].
    + rewrite E, lookup_insert_eq in H. injection H as <-.
      right. exists b. split; [by left|done].
    + rewrite lookup_insert_ne in H by done. by left.
  - right. exists c. split; [by right|done].
Qed.

Lemma find_top_level_atoms_elem data t s :
  find_top_level_atoms data !! t = Some s ->
  exists b, b ∈ iter_boxes data 0 (len data) /\ box_typ b = t /\ span_of b = s.
Proof.
  intros H. apply fold_atoms_elem in H. destruct H as [H|H]; [|done].
  by rewrite lookup_empty in H.
Qed.

Lemma find_top_level_atoms_start data t start size header :
  find_top_level_atoms data !! t = Some (start, size, header) ->
  0 <= start /\ 8 <= size /\ start + size <= len data.
Proof.
  intros H. apply find_top_level_atoms_elem in H.
  destruct H as (b & Hb & _ & [= <- <- <-]).
  pose proof (iter_boxes_Forall data 0 (len data)) as F.
  rewrite Forall_forall in F. destruct (F b Hb) as (? & _ & ? & ? & ?). lia.
Qed.

End Atoms.

(** * The file relocator *)

Section Relocator.

Variable frames : nat.
Variable data : bytes.
Variables moov_start moov_size moov_header : Z.
Variables ftyp_start ftyp_size ftyp_header : Z.
Hypothesis has_moov :
  find_top_level_atoms data !! lit "moov" = Some (moov_start, moov_size, moov_header).
Hypothesis has_ftyp :
  find_top_level_atoms data !! lit "ftyp" = Some (ftyp_start, ftyp_size, ftyp_header).

(** [process_file] on a file that has both atoms, by cases. *)
Lemma process_file_cases :
  process_file frames data =
  match find_top_level_atoms data !! lit "mdat" with
  | None => Already_faststart
  | Some (mdat_start, _, _) =>
      if moov_start <? mdat_start then Already_faststart
      else
        let insert_at := ftyp_start + ftyp_size in
        if (insert_at <=? 0) || (insert_at >? len data) then Invalid_ftyp
        else if moov_start <? insert_at then Unexpected_layout
        else
          match adjust_chunk_offsets frames
                  (slice data moov_start (moov_start + moov_size)) moov_size with
          | Raised _ => Overflow
          | Raised_RecursionError _ => Recursion
          | Done moov_bytes =>
              let rebuilt :=
                slice_to data insert_at
                ++ moov_bytes
                ++ slice data insert_at moov_start
                ++ slice_from data (moov_start + moov_size) in
              let check_atoms := find_top_level_atoms rebuilt in
              Wrote rebuilt
                match check_atoms !! lit "moov" with
                | None => None
                | Some (new_moov_start, _, _) =>
                    let '(new_mdat_start, _, _) :=
                      default (-1, -1, -1) (check_atoms !! lit "mdat") in
                    Some (new_moov_start, new_mdat_start)
                end
          end
  end.
Proof.
  unfold process_file. rewrite has_moov, has_ftyp.
  pose proof (find_top_level_atoms_start _ _ _ _ _ has_moov) as (Hm & _).
  unfold moov_is_faststart.
  destruct (find_top_level_atoms data !! lit "mdat") as [[[ds dsz] dh]|] eqn:Hd;
    simpl default.
  - pose proof (find_top_level_atoms_start _ _ _ _ _ Hd) as (Hd0 & _).
    destruct (moov_start >=? 0) eqn:E1; [|lia].
    destruct (ds <? 0) eqn:E2; [lia|]. simpl.
    by destruct (moov_start <? ds).
  - destruct (moov_start >=? 0) eqn:E1; [|lia]. done.
Qed.

Lemma process_file_written out :
  written (process_file frames data) = Some out <->
  (exists mdat_start mdat_size mdat_header,
      find_top_level_atoms data !! lit "mdat"
      = Some (mdat_start, mdat_size, mdat_header)
      /\ mdat_start <= moov_start)
  /\ 0 < ftyp_start + ftyp_size <= len data
  /\ ftyp_start + ftyp_size <= moov_start
  /\ exists moov_bytes,
       adjust_chunk_offsets frames (slice data moov_start (moov_start + moov_size)) moov_size
       = Done moov_bytes
       /\ out = slice_to data (ftyp_start + ftyp_size)
                ++ moov_bytes
                ++ slice data (ftyp_start + ftyp_size) moov_start
                ++ slice_from data (moov_start + moov_size).
Proof.
  rewrite process_file_cases.
  destruct (find_top_level_atoms data !! lit "mdat") as [[[ds dsz] dh]|] eqn:Hd.
  2:{ split; [done|]. by intros [(? & ? & ? & [=] & _) _]. }
  destruct (moov_start <? ds) eqn:E1.
  { split; [done|]. intros [(? & ? & ? & [= <- <- <-] & ?) _]. lia. }
  cbv zeta.
  destruct ((ftyp_start + ftyp_size <=? 0) || (ftyp_start + ftyp_size >? len data))
    eqn:E2.
  { split; [done|]. intros (_ & ? & _).
    apply orb_true_iff in E2. destruct E2; lia. }
  apply orb_false_iff in E2. destruct E2 as [E2 E2'].
  destruct (moov_start <? ftyp_start + ftyp_size) eqn:E3.
  { split; [done|]. intros (_ & _ & ? & _). lia. }
  destruct (adjust_chunk_offsets _ _ _) as [moov_bytes|moov_bytes|moov_bytes] eqn:A.
  - simpl. split.
    + intros [= <-]. split; [exists ds, dsz, dh; split; [done|lia]|].
      split; [lia|]. split; [lia|]. by exists moov_bytes.
    + intros (_ & _ & _ & m & [= <-] & ->). done.
  - split; [done|]. by intros (_ & _ & _ & m & [=] & _).
  - split; [done|]. by intros (_ & _ & _ & m & [=] & _).
Qed.

End Relocator.


(** Nor does it write when the boxes of [moov] nest too deep: with room
    for 1000 nested calls, on a [moov] after [mdat] that holds 1200
    nested boxes the offset rewriter raises [RecursionError]. *)
Lemma process_file_deep_not_written :
  find_top_level_atoms (deep_file 1200) !! lit "ftyp" = Some (0, 12, 8)
  /\ find_top_level_atoms (deep_file 1200) !! lit "mdat" = Some (12, 12, 8)
  /\ find_top_level_atoms (deep_file 1200) !! lit "moov" = Some (24, 9628, 8)
  /\ process_file 1000 (deep_file 1200) = Recursion
  /\ written (process_file 1000 (deep_file 1200)) = None.
Proof.
  assert (H : process_file 1000 (deep_file 1200) = Recursion) by (by vm_compute).
  rewrite H. repeat split; by vm_compute.
Qed.



(** C5.  On a file with top-level [ftyp] and [moov] where [mdat] is
    absent, or [moov] starts before [mdat], [process_file] returns early:
    nothing is written. *)
Theorem process_file_already_faststart (frames : nat) (data : bytes)
    (moov_start moov_size moov_header ftyp_start ftyp_size ftyp_header : Z) :
  find_top_level_atoms data !! lit "moov"
  = Some (moov_start, moov_size, moov_header) ->
  find_top_level_atoms data !! lit "ftyp"
  = Some (ftyp_start, ftyp_size, ftyp_header) ->
  (find_top_level_atoms data !! lit "mdat" = None
   \/ exists mdat_start mdat_size mdat_header,
        find_top_level_atoms data !! lit "mdat"
        = Some (mdat_start, mdat_size, mdat_header)
        /\ moov_start < mdat_start) ->
  process_file frames data = Already_faststart
  /\ written (process_file frames data) = None.
Proof.
  intros Hm Hf Hd.
  assert (H : process_file frames data = Already_faststart).
  { rewrite (process_file_cases frames data _ _ _ _ _ _ Hm Hf).
    destruct Hd as [->|(ds & dsz & dh & -> & Hlt)]; [done|].
    destruct (moov_start <? ds) eqn:E; [done|lia]. }
  by rewrite H.
Qed.

Lemma process_file_already_faststart_witness :
  (process_file 1000 fast_file = Already_faststart
   /\ written (process_file 1000 fast_file) = None)
  /\ (process_file 1000 no_mdat_file = Already_faststart
      /\ written (process_file 1000 no_mdat_file) = None).
Proof.
  split.
  - apply (process_file_already_faststart 1000%nat fast_file 12 28 8 0 12 8);
      [reflexivity..|].
    right. exists 40, 12, 8. split; [reflexivity|lia].
  - apply (process_file_already_faststart 1000%nat no_mdat_file 20 28 8 0 12 8);
      [reflexivity..|].
    left. reflexivity.
Defined.

(** C9.  [find_top_level_atoms] maps the tag of a top-level box to the
    last box that bears it, and a tag that no top-level box bears to
    nothing.  So on a file with several top-level [moov] or [ftyp] boxes,
    what [process_file] writes is built from the last [moov] and the
    last [ftyp]: the bytes of that [moov], with [delta] its size, are
    what the offset rewriter gets and what is moved to the end of that
    [ftyp].  [find_first], for its part, returns the first box that bears
    the tag. *)
Theorem find_top_level_atoms_last_wins (frames : nat) (data : bytes) :
  (forall pre b post,
      iter_boxes data 0 (len data) = pre ++ b :: post ->
      Forall (fun c => box_typ c <> box_typ b) post ->
      find_top_level_atoms data !! box_typ b = Some (span_of b))
  /\ (forall t,
         Forall (fun c => box_typ c <> t) (iter_boxes data 0 (len data)) ->
         find_top_level_atoms data !! t = None)
  /\ (forall pre m post pre' f post' out,
         iter_boxes data 0 (len data) = pre ++ m :: post ->
         box_typ m = lit "moov" ->
         Forall (fun c => box_typ c <> lit "moov") post ->
         iter_boxes data 0 (len data) = pre' ++ f :: post' ->
         box_typ f = lit "ftyp" ->
         Forall (fun c => box_typ c <> lit "ftyp") post' ->
         written (process_file frames data) = Some out ->
         exists moov_bytes,
           adjust_chunk_offsets frames
             (slice data (box_start m) (box_start m + box_size m)) (box_size m)
           = Done moov_bytes
           /\ out = slice_to data (box_start f + box_size f)
                    ++ moov_bytes
                    ++ slice data (box_start f + box_size f) (box_start m)
                    ++ slice_from data (box_start m + box_size m))
  /\ (forall pre b post,
         iter_boxes data 0 (len data) = pre ++ b :: post ->
         Forall (fun c => box_typ c <> box_typ b) pre ->
         find_first data [box_typ b] = Return (Some (span_of b))).
Proof.
  assert (Hlast : forall pre b post,
             iter_boxes data 0 (len data) = pre ++ b :: post ->
             Forall (fun c => box_typ c <> box_typ b) post ->
             find_top_level_atoms data !! box_typ b = Some (span_of b)).
  { intros pre b post E Hpost. unfold find_top_level_atoms. rewrite E.
    by apply fold_atoms_last. }
  split; [exact Hlast|]. split; [|split].
  - intros t H. unfold find_top_level_atoms.
    rewrite fold_atoms_miss by done. apply lookup_empty.
  - intros pre m post pre' f post' out Em Hm Hpost Ef Hf Hpost' Hw.
    pose proof (Hlast pre m post Em) as Lm. rewrite Hm in Lm.
    pose proof (Hlast pre' f post' Ef) as Lf. rewrite Hf in Lf.
    apply (process_file_written frames data _ _ _ _ _ _ (Lm Hpost) (Lf Hpost')) in Hw.
    destruct Hw as (_ & _ & _ & Hw). exact Hw.
  - intros pre b post E Hpre. unfold find_first. f_equal.
    by rewrite (walk_first data (box_typ b) [] 0 (len data) pre post b).
Qed.

Lemma find_top_level_atoms_last_wins_witness :
  find_top_level_atoms two_moovs !! lit "moov" = Some (52, 28, 8)
  /\ find_first two_moovs [lit "moov"] = Return (Some (24, 28, 8))
  /\ exists moov_bytes,
       adjust_chunk_offsets 1000 (slice two_moovs 52 80) 28 = Done moov_bytes
       /\ default [] (written (process_file 1000 two_moovs))
          = slice_to two_moovs 12 ++ moov_bytes
            ++ slice two_moovs 12 52 ++ slice_from two_moovs 80.
Proof.
  destruct (find_top_level_atoms_last_wins 1000%nat two_moovs) as (H1 & _ & H3 & H4).
  split; [|split].
  - apply (H1 [Box (lit "ftyp") 0 12 8; Box (lit "mdat") 12 12 8;
               Box (lit "moov") 24 28 8]
              (Box (lit "moov") 52 28 8) []); [reflexivity|constructor].
  - apply (H4 [Box (lit "ftyp") 0 12 8; Box (lit "mdat") 12 12 8]
              (Box (lit "moov") 24 28 8) [Box (lit "moov") 52 28 8]);
      [reflexivity|].
    repeat constructor; by vm_compute.
  - apply (H3 [Box (lit "ftyp") 0 12 8; Box (lit "mdat") 12 12 8;
               Box (lit "moov") 24 28 8]
              (Box (lit "moov") 52 28 8) []
              []
              (Box (lit "ftyp") 0 12 8)
              [Box (lit "mdat") 12 12 8; Box (lit "moov") 24 28 8;
               Box (lit "moov") 52 28 8]);
      try reflexivity; repeat constructor; by vm_compute.
Defined.

(** * Further properties of the two scripts *)

(** ** Integers and their bytes *)

Lemma byte_of_Z_val x : byte_of_Z (byte_val x) = x.
Proof.
  unfold byte_of_Z, byte_val. by rewrite N2Z.id, Byte.of_to_N.
Qed.

Lemma rev_le_bytes_from_bytes (b : bytes) :
  rev (le_bytes (length b) (from_bytes b)) = b.
Proof.
  induction b as [|x b IH] using rev_ind; [done|].
  rewrite length_app, Nat.add_1_r, from_bytes_app. simpl length.
  change (256 ^ Z.of_nat 1) with 256.
  assert (Hx : from_bytes [x] = byte_val x) by (unfold from_bytes; simpl; lia).
  rewrite Hx. pose proof (byte_val_range x) as Hr.
  simpl le_bytes.
  replace ((from_bytes b * 256 + byte_val x) mod 256) with (byte_val x).
  2:{ rewrite Z.add_comm, Z_mod_plus_full, Z.mod_small; lia. }
  replace ((from_bytes b * 256 + byte_val x) / 256) with (from_bytes b).
  2:{ rewrite Z.add_comm, Z_div_plus_full, Z.div_small; lia. }
  simpl rev. by rewrite IH, byte_of_Z_val.
Qed.

Lemma to_bytes_from_bytes n (b : bytes) :
  length b = n -> to_bytes n (from_bytes b) = Some b.
Proof.
  intros <-. unfold to_bytes. pose proof (from_bytes_range b) as H.
  destruct (0 <=? from_bytes b) eqn:H0; [|lia].
  destruct (from_bytes b <? 256 ^ Z.of_nat (length b)) eqn:H1; [|lia].
  simpl. by rewrite rev_le_bytes_from_bytes.
Qed.

Lemma from_bytes_inj (a b : bytes) :
  length a = length b -> from_bytes a = from_bytes b -> a = b.
Proof.
  intros Hl He.
  rewrite <- (rev_le_bytes_from_bytes a), <- (rev_le_bytes_from_bytes b).
  by rewrite Hl, He.
Qed.

(** X1.  [_p32] and [_u32], and [_p64] and [_u64], are inverse to each
    other: what [_p32] returns is 4 bytes that [_u32] reads back as the
    value, and [_p32] of what [_u32] reads from 4 bytes is those bytes;
    the same with 8 bytes for [_p64] and [_u64]. *)
Theorem int_bytes_round_trip :
  (forall v bs, _p32 v = Some bs -> length bs = 4%nat /\ _u32 bs = v)
  /\ (forall bs : bytes, length bs = 4%nat -> _p32 (_u32 bs) = Some bs)
  /\ (forall v bs, _p64 v = Some bs -> length bs = 8%nat /\ _u64 bs = v)
  /\ (forall bs : bytes, length bs = 8%nat -> _p64 (_u64 bs) = Some bs).
Proof.
  split; [|split; [|split]].
  - intros v bs H. apply to_bytes_Some in H. tauto.
  - intros bs H. by apply to_bytes_from_bytes.
  - intros v bs H. apply to_bytes_Some in H. tauto.
  - intros bs H. by apply to_bytes_from_bytes.
Qed.

Lemma int_bytes_round_trip_witness :
  _u32 (be 4 1000) = 1000
  /\ _p64 (_u64 (tag "moovtrak")) = Some (tag "moovtrak").
Proof.
  destruct int_bytes_round_trip as (H1 & _ & _ & H4). split.
  - apply (H1 1000 (be 4 1000)). reflexivity.
  - apply H4. reflexivity.
Defined.

(** ** More on the box walker *)

(** X2.  The boxes that [iter_boxes] yields lie one after the other from
    the start of the region, without gap or overlap, each at least 8 bytes
    long; so a region yields at most one box for every 8 of its bytes. *)
Theorem iter_boxes_contiguous (buf : bytes) (start e : Z) :
  contiguous start (iter_boxes buf start e)
  /\ 8 * Z.of_nat (length (iter_boxes buf start e)) <= Z.max 0 (e - start).
Proof.
  apply (walk_ind buf (fun i e l =>
    contiguous i l /\ 8 * Z.of_nat (length l) <= Z.max 0 (e - i))).
  - intros i e' _. simpl. lia.
  - intros i e' b G R [IH1 IH2].
    pose proof (read_box_advance _ _ _ _ R).
    destruct (read_box_Some _ _ _ _ R) as (Hs & _ & _ & _ & He).
    split; [by simpl|]. simpl length. lia.
Qed.

(** X3.  A box whose size field is 0 runs to the end of the region: it is
    yielded with an 8-byte header and the rest of the region as its size,
    and it is the last box of the walk. *)
Theorem iter_boxes_size_zero (buf : bytes) (start e i : Z) (pre : list box) :
  cursor buf e start i pre ->
  i + 8 <= e ->
  _u32 (slice buf i (i + 4)) = 0 ->
  iter_boxes buf start e
  = pre ++ [Box (decode (slice buf (i + 4) (i + 8))) i (e - i) 8].
Proof.
  intros Hc G H0.
  rewrite (cursor_iter_boxes _ _ _ _ _ Hc). f_equal.
  rewrite (iter_boxes_yield _ _ _
             (Box (decode (slice buf (i + 4) (i + 8))) i (e - i) 8)); [|done|].
  - f_equal. apply iter_boxes_short. simpl. lia.
  - unfold read_box, read_size. rewrite H0. simpl.
    destruct (e - i <? 8) eqn:E1; [lia|].
    destruct (i + (e - i) >? e) eqn:E2; [lia|]. done.
Qed.

Lemma iter_boxes_size_zero_witness :
  iter_boxes open_mdat 0 20
  = [Box (lit "ftyp") 0 8 8; Box (lit "mdat") 8 12 8].
Proof.
  apply (iter_boxes_size_zero open_mdat 0 20 8 [Box (lit "ftyp") 0 8 8]).
  - apply (cursor_step _ 20 0 0 [] (Box (lit "ftyp") 0 8 8));
      [apply cursor_start|lia|reflexivity].
  - lia.
  - reflexivity.
Defined.

(** X4.  A walk reads nothing outside its region: two buffers of the same
    length that hold the same bytes in a region yield the same boxes
    there. *)
Theorem iter_boxes_reads_region (buf buf' : bytes) (start e : Z) :
  length buf = length buf' ->
  0 <= start -> e <= len buf ->
  agree buf buf' start e ->
  iter_boxes buf start e = iter_boxes buf' start e.
Proof. intros Hl Hs He Ha. by apply iter_boxes_local. Qed.

Lemma iter_boxes_reads_region_witness :
  iter_boxes (mkbox "free" [] ++ moov_two) 8 80
  = iter_boxes (mkbox "skip" [] ++ moov_two) 8 80.
Proof.
  apply iter_boxes_reads_region; [reflexivity|lia|vm_compute; discriminate|].
  intros p Hp.
  destruct p as [|[|[|[|[|[|[|[|p]]]]]]]]; [lia..|]. reflexivity.
Defined.

(** ** More on the path resolver *)

Lemma walk_found (buf : bytes) (rest : list str) :
  forall want rs re s z h,
    0 <= rs ->
    walk buf want rest rs re = Some (s, z, h) ->
    rs <= s /\ s + z <= re /\ (h = 8 \/ h = 16) /\ h <= z /\
    last (want :: rest) = Some (decode (slice buf (s + 4) (s + 8))).
Proof.
  induction rest as [|want' rest' IH]; intros want rs re s z h Hrs;
    rewrite walk_unfold;
    pose proof (iter_boxes_Forall buf rs re) as F;
    induction F as [|b l (H1 & H2 & H3 & H4 & H5) _ IHl]; try done.
  - destruct (bool_decide (box_typ b = want)) eqn:E; simpl; [|exact IHl].
    apply bool_decide_eq_true_1 in E. intros [= <- <- <-].
    repeat split; try done. simpl. by rewrite <- E, H2.
  - destruct (bool_decide (box_typ b = want)) eqn:E; simpl; [|exact IHl].
    assert (Hdown : forall cs,
      box_start b + box_header b <= cs ->
      walk buf want' rest' cs (box_start b + box_size b) = Some (s, z, h) ->
      rs <= s /\ s + z <= re /\ (h = 8 \/ h = 16) /\ h <= z /\
      last (want :: want' :: rest') = Some (decode (slice buf (s + 4) (s + 8)))).
    { intros cs Hcs Hw. apply IH in Hw; [|lia].
      destruct Hw as (? & ? & ? & ? & Hlast).
      repeat split; try done; try lia. }
    destruct (bool_decide (box_typ b = lit "meta")).
    + destruct (_ <=? _); [|done]. apply Hdown. lia.
    + apply Hdown. lia.
Qed.

(** X5.  What [find_first] finds lies inside the buffer, has a header of
    8 or 16 bytes that fits its size, and bears the last tag of the
    path. *)
Theorem find_first_in_bounds (buf : bytes) (path : list str) (s z h : Z) :
  find_first buf path = Return (Some (s, z, h)) ->
  0 <= s /\ (h = 8 \/ h = 16) /\ h <= z /\ s + z <= len buf
  /\ last path = Some (decode (slice buf (s + 4) (s + 8))).
Proof.
  destruct path as [|want rest]; [done|]. simpl. intros [= H].
  apply walk_found in H; [|lia].
  destruct H as (? & ? & ? & ? & ?). repeat split; try done; lia.
Qed.

Lemma find_first_in_bounds_witness :
  0 <= 24 /\ (8 = 8 \/ 8 = 16) /\ 8 <= 20 /\ 24 + 20 <= len three_traks
  /\ last [lit "moov"; lit "trak"; lit "mdia"; lit "hdlr"]
     = Some (decode (slice three_traks (24 + 4) (24 + 8))).
Proof.
  apply (find_first_in_bounds three_traks
           [lit "moov"; lit "trak"; lit "mdia"; lit "hdlr"] 24 20 8).
  reflexivity.
Defined.

(** ** More on the media header and the sample tables *)

Lemma from_bytes_slice_range (data : bytes) lo n :
  0 <= lo -> 0 <= n -> lo + n <= len data ->
  0 <= from_bytes (slice data lo (lo + n)) < 256 ^ n.
Proof.
  intros Hlo Hn Hb.
  pose proof (from_bytes_range (slice data lo (lo + n))) as H.
  rewrite length_slice in H by lia.
  replace (Z.of_nat (Z.to_nat (lo + n - lo))) with n in H by lia.
  exact H.
Qed.

(** X6.  [parse_mdhd] raises exactly when the box data is shorter than 4
    bytes, or shorter than 32 bytes with version byte 1, or shorter than
    20 bytes with another version byte.  With version byte 1 and 32 bytes
    it returns the 32-bit field at data offset 20 and the 64-bit field
    at offset 24.  What it returns is a timescale below 2^32 and a
    duration below 2^64. *)
Theorem parse_mdhd_result (buf : bytes) (start size header : Z) :
  let data := slice buf (start + header) (start + size) in
  let version := byte_val (nth 0 data "000"%byte) in
  (parse_mdhd buf start size header = None <->
   len data < 4 \/ (version = 1 /\ len data < 32)
   \/ (version <> 1 /\ len data < 20))
  /\ (version = 1 -> 32 <= len data ->
      parse_mdhd buf start size header
      = Some (_u32 (slice data 20 24), _u64 (slice data 24 32)))
  /\ (forall timescale duration,
         parse_mdhd buf start size header = Some (timescale, duration) ->
         0 <= timescale < 2 ^ 32 /\ 0 <= duration < 2 ^ 64).
Proof.
  intros data version. unfold parse_mdhd. fold data. fold version.
  destruct (len data <? 4) eqn:E4.
  { split; [|split]; [split; [lia|done]|lia|done]. }
  destruct (version =? 1) eqn:E1.
  - destruct (len data <? 32) eqn:E32.
    + split; [|split]; [split; [lia|done]|lia|done].
    + split; [|split]; [split; [done|lia]|done|].
      intros ts d [= <- <-]. split.
      * apply (from_bytes_slice_range data 20 4); lia.
      * apply (from_bytes_slice_range data 24 8); lia.
  - destruct (len data <? 20) eqn:E20.
    + split; [|split]; [split; [lia|done]|lia|done].
    + split; [|split]; [split; [done|lia]|lia|].
      intros ts d [= <- <-]. split.
      * apply (from_bytes_slice_range data 12 4); lia.
      * pose proof (from_bytes_slice_range data 16 4). unfold _u32.
        change (16 + 4) with 20 in *. lia.
Qed.

Lemma parse_mdhd_result_witness :
  parse_mdhd mdhd_v1 0 40 8 = Some (600, 2 ^ 33).
Proof.
  destruct (parse_mdhd_result mdhd_v1 0 40 8) as (_ & H & _).
  apply H; [reflexivity|]. vm_compute. discriminate.
Defined.

Lemma to_N_inj (x y : byte) : Byte.to_N x = Byte.to_N y -> x = y.
Proof.
  intros H. pose proof (Byte.of_to_N x) as Hx.
  rewrite H, Byte.of_to_N in Hx. by injection Hx.
Qed.

Lemma decode_ascii_inj (l l' : bytes) :
  Forall (fun y => (Byte.to_N y < 128)%N) l' ->
  decode l = decode l' -> l = l'.
Proof.
  intros F. revert l. induction F as [|y l' Hy _ IH]; intros [|x l]; try done.
  simpl. intros [= Hc Hl]. f_equal; [|by apply IH].
  apply to_N_inj. unfold decode_char in Hc.
  assert (Ey : (Byte.to_N y <? 128)%N = true) by (by apply N.ltb_lt).
  rewrite Ey in Hc.
  destruct (Byte.to_N x <? 128)%N eqn:Ex; [done|lia].
Qed.

(** X7.  The handler type that [parse_hdlr_handler_type] returns is
    ["vide"] exactly when the box has at least 12 bytes of data and the
    four bytes at data offset 8 are [v], [i], [d], [e]: the lenient
    decoding makes no other bytes read as ["vide"]. *)
Theorem parse_hdlr_handler_type_vide (buf : bytes) (start size header : Z) :
  let data := slice buf (start + header) (start + size) in
  parse_hdlr_handler_type buf start size header = lit "vide"
  <-> 12 <= len data /\ slice data 8 12 = tag "vide".
Proof.
  intros data. unfold parse_hdlr_handler_type. fold data.
  destruct (len data <? 12) eqn:E; split.
  - done.
  - lia.
  - intros H. split; [lia|]. apply decode_ascii_inj; [|exact H].
    repeat constructor.
  - intros [_ ->]. reflexivity.
Qed.

Lemma parse_hdlr_handler_type_vide_witness :
  parse_hdlr_handler_type (hdlr_box "vide") 0 20 8 = lit "vide"
  /\ parse_hdlr_handler_type (hdlr_box "soun") 0 20 8 <> lit "vide".
Proof.
  split.
  - apply (parse_hdlr_handler_type_vide (hdlr_box "vide") 0 20 8).
    split; [vm_compute; discriminate|reflexivity].
  - intros H. apply (parse_hdlr_handler_type_vide (hdlr_box "soun") 0 20 8) in H.
    destruct H as [_ H]. vm_compute in H. discriminate.
Defined.

(** X8.  [parse_stsz_sample_count] and [parse_stss_sync_count] never
    raise, whatever the span they are given: they return a count below
    2^32, which is 0 when the box data is shorter than 12 bytes
    (respectively 8), and the 32-bit field at data offset 8
    (respectively 4) otherwise. *)
Theorem sample_counts_range (buf : bytes) (start size header : Z) :
  let data := slice buf (start + header) (start + size) in
  0 <= parse_stsz_sample_count buf start size header < 2 ^ 32
  /\ 0 <= parse_stss_sync_count buf start size header < 2 ^ 32
  /\ (len data < 12 -> parse_stsz_sample_count buf start size header = 0)
  /\ (12 <= len data ->
      parse_stsz_sample_count buf start size header = _u32 (slice data 8 12))
  /\ (len data < 8 -> parse_stss_sync_count buf start size header = 0)
  /\ (8 <= len data ->
      parse_stss_sync_count buf start size header = _u32 (slice data 4 8)).
Proof.
  intros data. unfold parse_stsz_sample_count, parse_stss_sync_count. fold data.
  destruct (len data <? 12) eqn:E12; destruct (len data <? 8) eqn:E8;
    try lia; repeat split; try lia; try done;
    try (apply (from_bytes_slice_range data 8 4); lia);
    try (apply (from_bytes_slice_range data 4 4); lia).
Qed.

Lemma sample_counts_range_witness :
  parse_stsz_sample_count (stsz_box 150) 0 20 8 = 150
  /\ parse_stss_sync_count (stss_box 5) 0 16 8 = 5
  /\ parse_stss_sync_count (stss_box 5) 0 12 8 = 0.
Proof.
  destruct (sample_counts_range (stsz_box 150) 0 20 8) as (_ & _ & _ & H1 & _).
  destruct (sample_counts_range (stss_box 5) 0 16 8) as (_ & _ & _ & _ & _ & H2).
  destruct (sample_counts_range (stss_box 5) 0 12 8) as (_ & _ & _ & _ & H3 & _).
  split; [|split].
  - rewrite H1; [reflexivity|vm_compute; discriminate].
  - rewrite H2; [reflexivity|vm_compute; discriminate].
  - apply H3. reflexivity.
Defined.

(** ** More on the top-level atoms *)

Lemma fold_atoms_None (l : list box) : forall (m : gmap str span) t,
  fold_left (fun out b => <[box_typ b := span_of b]> out) l m !! t = None ->
  m !! t = None /\ Forall (fun b => box_typ b <> t) l.
Proof.
  induction l as [|b l IH]; intros m t H; [by split|].
  simpl in H. apply IH in H. destruct H as [H Hl].
  destruct (decide (box_typ b = t)) as [E|E].
  - by rewrite E, lookup_insert_eq in H.
  - rewrite lookup_insert_ne in H by done. split; [done|by constructor].
Qed.

Lemma find_top_level_atoms_None data t :
  find_top_level_atoms data !! t = None <->
  Forall (fun b => box_typ b <> t) (iter_boxes data 0 (len data)).
Proof.
  split.
  - intros H. apply fold_atoms_None in H. by destruct H.
  - intros H. unfold find_top_level_atoms.
    rewrite fold_atoms_miss by done. apply lookup_empty.
Qed.

(** X9.  Every entry of the dict of [find_top_level_atoms] is the span of
    a top-level box that bears the key as its tag: it lies inside the
    file and its header, 8 or 16 bytes long, fits its size.  A tag is a
    key of the dict exactly when some top-level box bears it. *)
Theorem find_top_level_atoms_sound (data : bytes) (t : str) :
  (forall s z h,
      find_top_level_atoms data !! t = Some (s, z, h) ->
      Box t s z h ∈ iter_boxes data 0 (len data)
      /\ 0 <= s /\ (h = 8 \/ h = 16) /\ h <= z /\ s + z <= len data
      /\ t = decode (slice data (s + 4) (s + 8)))
  /\ (is_Some (find_top_level_atoms data !! t) <->
      exists b, b ∈ iter_boxes data 0 (len data) /\ box_typ b = t).
Proof.
  split.
  - intros s z h H. apply find_top_level_atoms_elem in H.
    destruct H as (b & Hb & Ht & Hs).
    pose proof (iter_boxes_Forall data 0 (len data)) as F.
    rewrite Forall_forall in F. destruct (F b Hb) as (? & Hd & ? & ? & ?).
    destruct b as [tb sb zb hb]. unfold span_of in Hs. simpl in *.
    injection Hs as -> -> ->. subst tb. repeat split; done.
  - split.
    + intros [sp H]. apply find_top_level_atoms_elem in H.
      destruct H as (b & Hb & Ht & _). by exists b.
    + intros (b & Hb & Ht).
      destruct (find_top_level_atoms data !! t) as [sp|] eqn:E; [by exists sp|].
      apply find_top_level_atoms_None in E. rewrite Forall_forall in E.
      by destruct (E b Hb).
Qed.

Lemma find_top_level_atoms_sound_witness :
  Box (lit "moov") 52 28 8 ∈ iter_boxes two_moovs 0 (len two_moovs)
  /\ 0 <= 52 /\ (8 = 8 \/ 8 = 16) /\ 8 <= 28 /\ 52 + 28 <= len two_moovs
  /\ lit "moov" = decode (slice two_moovs (52 + 4) (52 + 8)).
Proof.
  destruct (find_top_level_atoms_sound two_moovs (lit "moov")) as [H _].
  apply H. reflexivity.
Defined.

(** ** More on the file relocator *)

(** X10.  [process_file] raises for missing atoms exactly when no
    top-level box is tagged [moov], or none is tagged [ftyp]; nothing is
    written then. *)
Theorem process_file_missing_atoms (frames : nat) (data : bytes) :
  (process_file frames data = Missing_atoms <->
   Forall (fun b => box_typ b <> lit "moov") (iter_boxes data 0 (len data))
   \/ Forall (fun b => box_typ b <> lit "ftyp") (iter_boxes data 0 (len data)))
  /\ (process_file frames data = Missing_atoms -> written (process_file frames data) = None).
Proof.
  split; [|by intros ->].
  rewrite <- !find_top_level_atoms_None.
  destruct (find_top_level_atoms data !! lit "moov") as [[[ms msz] mh]|] eqn:Hm.
  2:{ unfold process_file. rewrite Hm. split; [by left|done]. }
  destruct (find_top_level_atoms data !! lit "ftyp") as [[[fs fsz] fh]|] eqn:Hf.
  2:{ unfold process_file. rewrite Hm, Hf. split; [by right|done]. }
  rewrite (process_file_cases frames data _ _ _ _ _ _ Hm Hf).
  split; [|by intros [?|?]].
  destruct (find_top_level_atoms data !! lit "mdat") as [[[ds dsz] dh]|]; [|done].
  destruct (ms <? ds); [done|]. cbv zeta.
  destruct (_ || _); [done|]. destruct (ms <? fs + fsz); [done|].
  by destruct (adjust_chunk_offsets _ _ _).
Qed.

Lemma process_file_missing_atoms_witness :
  process_file 1000 no_ftyp_file = Missing_atoms.
Proof.
  apply (process_file_missing_atoms 1000%nat no_ftyp_file).
  right. repeat constructor; by vm_compute.
Defined.

(** X11.  The test of [process_file] for an insertion point at or before
    0, or past the end of the file, never fires: the [ftyp] found by the
    walk ends inside the file. *)
Theorem process_file_never_invalid_ftyp (frames : nat) (data : bytes) :
  process_file frames data <> Invalid_ftyp.
Proof.
  destruct (find_top_level_atoms data !! lit "moov") as [[[ms msz] mh]|] eqn:Hm.
  2:{ unfold process_file. by rewrite Hm. }
  destruct (find_top_level_atoms data !! lit "ftyp") as [[[fs fsz] fh]|] eqn:Hf.
  2:{ unfold process_file. by rewrite Hm, Hf. }
  rewrite (process_file_cases frames data _ _ _ _ _ _ Hm Hf).
  pose proof (find_top_level_atoms_start _ _ _ _ _ Hf) as (? & ? & ?).
  destruct (find_top_level_atoms data !! lit "mdat") as [[[ds dsz] dh]|]; [|done].
  destruct (ms <? ds); [done|]. cbv zeta.
  destruct ((fs + fsz <=? 0) || (fs + fsz >? len data)) eqn:E.
  { apply orb_true_iff in E. destruct E; lia. }
  destruct (ms <? fs + fsz); [done|].
  by destruct (adjust_chunk_offsets _ _ _).
Qed.

(** X12.  On a file with top-level [ftyp] and [moov], [process_file]
    raises for an unexpected layout exactly when [mdat] is there, [moov]
    does not start before it, and [moov] starts before the end of
    [ftyp]; nothing is written then. *)
Theorem process_file_unexpected_layout (frames : nat) (data : bytes)
    (moov_start moov_size moov_header ftyp_start ftyp_size ftyp_header : Z) :
  find_top_level_atoms data !! lit "moov"
  = Some (moov_start, moov_size, moov_header) ->
  find_top_level_atoms data !! lit "ftyp"
  = Some (ftyp_start, ftyp_size, ftyp_header) ->
  (process_file frames data = Unexpected_layout <->
   (exists mdat_start mdat_size mdat_header,
       find_top_level_atoms data !! lit "mdat"
       = Some (mdat_start, mdat_size, mdat_header)
       /\ mdat_start <= moov_start)
   /\ moov_start < ftyp_start + ftyp_size)
  /\ (process_file frames data = Unexpected_layout ->
      written (process_file frames data) = None).
Proof.
  intros Hm Hf. split; [|by intros ->].
  rewrite (process_file_cases frames data _ _ _ _ _ _ Hm Hf).
  pose proof (find_top_level_atoms_start _ _ _ _ _ Hf) as (? & ? & ?).
  destruct (find_top_level_atoms data !! lit "mdat") as [[[ds dsz] dh]|].
  2:{ split; [done|]. by intros [(? & ? & ? & [=] & _) _]. }
  destruct (moov_start <? ds) eqn:E1.
  { split; [done|]. intros [(? & ? & ? & [= <- <- <-] & ?) _]. lia. }
  cbv zeta.
  destruct ((ftyp_start + ftyp_size <=? 0) || (ftyp_start + ftyp_size >? len data))
    eqn:E2.
  { apply orb_true_iff in E2. destruct E2; lia. }
  destruct (moov_start <? ftyp_start + ftyp_size) eqn:E3.
  - split; [|done]. intros _. split; [|lia].
    exists ds, dsz, dh. split; [done|lia].
  - split; [by destruct (adjust_chunk_offsets _ _ _)|].
    intros [_ ?]. lia.
Qed.

Lemma process_file_unexpected_layout_witness :
  process_file 1000 late_ftyp_file = Unexpected_layout.
Proof.
  destruct (process_file_unexpected_layout 1000%nat late_ftyp_file 12 28 8 40 12 8)
    as [H _]; [reflexivity..|].
  apply H. split; [|lia]. exists 0, 12, 8. split; [reflexivity|lia].
Defined.

Lemma adjust_chunk_offsets_length frames moov delta moov' :
  adjust_chunk_offsets frames moov delta = Done moov' -> length moov' = length moov.
Proof.
  intros H. apply adjust_chunk_offsets_effect in H. by destruct H.
Qed.

(** X13.  What [process_file] writes is as long as the file it read.  In
    it, the bytes before the insertion point and the bytes after the old
    end of [moov] stand where they stood, and every byte that stood
    between the insertion point and the old start of [moov] stands
    [moov_size] positions further: the delta given to the offset
    rewriter. *)
Theorem process_file_layout (frames : nat) (data : bytes)
    (moov_start moov_size moov_header ftyp_start ftyp_size ftyp_header : Z)
    (out : bytes) :
  find_top_level_atoms data !! lit "moov"
  = Some (moov_start, moov_size, moov_header) ->
  find_top_level_atoms data !! lit "ftyp"
  = Some (ftyp_start, ftyp_size, ftyp_header) ->
  written (process_file frames data) = Some out ->
  let insert_at := ftyp_start + ftyp_size in
  length out = length data
  /\ (forall p : nat, Z.of_nat p < insert_at -> out !! p = data !! p)
  /\ (forall p : nat,
         insert_at <= Z.of_nat p < moov_start ->
         out !! (p + Z.to_nat moov_size)%nat = data !! p)
  /\ (forall p : nat,
         moov_start + moov_size <= Z.of_nat p -> out !! p = data !! p).
Proof.
  intros Hm Hf Hw insert_at.
  apply (process_file_written frames data _ _ _ _ _ _ Hm Hf) in Hw.
  destruct Hw as (_ & Hins & Hle & moov_bytes & Ha & ->).
  fold insert_at in Hins, Hle |- *.
  pose proof (find_top_level_atoms_start _ _ _ _ _ Hm) as (? & ? & ?).
  apply adjust_chunk_offsets_length in Ha.
  rewrite length_slice in Ha by lia.
  unfold slice_to, slice_from.
  assert (L1 : length (slice data 0 insert_at) = Z.to_nat insert_at)
    by (rewrite length_slice by lia; lia).
  assert (L3 : length (slice data insert_at moov_start)
               = Z.to_nat (moov_start - insert_at))
    by (rewrite length_slice by lia; lia).
  assert (L4 : length (slice data (moov_start + moov_size) (len data))
               = Z.to_nat (len data - (moov_start + moov_size)))
    by (rewrite length_slice by lia; lia).
  repeat split.
  - rewrite !length_app, L1, Ha, L3, L4. unfold len in *. lia.
  - intros p Hp. rewrite lookup_app_l by lia.
    rewrite slice_lookup by lia. f_equal.
  - intros p Hp. rewrite lookup_app_r by lia.
    rewrite lookup_app_r by lia. rewrite lookup_app_l by lia.
    rewrite slice_lookup by lia. f_equal. lia.
  - intros p Hp. rewrite lookup_app_r by lia.
    rewrite lookup_app_r by lia. rewrite lookup_app_r by lia.
    destruct (decide (p < length data)%nat) as [Hlt|Hge].
    + rewrite slice_lookup by (unfold len in *; lia). f_equal. lia.
    + unfold len in *. rewrite !lookup_ge_None_2; [done|lia|lia].
Qed.

Lemma process_file_layout_witness :
  length (default [] (written (process_file 1000 slow_file))) = length slow_file
  /\ default [] (written (process_file 1000 slow_file)) !! (20 + Z.to_nat 28)%nat
     = slow_file !! 20%nat.
Proof.
  destruct (process_file_layout 1000%nat slow_file 32 28 8 0 12 8
              (default [] (written (process_file 1000 slow_file))))
    as (H1 & _ & H3 & _); [reflexivity..|].
  split; [exact H1|]. apply H3. lia.
Defined.

(** ** More on the offset rewriter *)

(** A box is read from its header alone. *)
Lemma read_box_header_local (moov moov' : bytes) i e b0 :
  length moov = length moov' ->
  0 <= i -> i + 8 <= e -> e <= len moov ->
  read_box moov i e = Some b0 ->
  agree moov moov' i (i + box_header b0) ->
  read_box moov' i e = Some b0.
Proof.
  intros Hl Hi G He R Ha.
  destruct (read_box_Some _ _ _ _ R) as (Hs & _ & Hz & Hhs & Hend).
  pose proof (read_size_header _ _ _ _ _ Hz) as Hh.
  rewrite <- R. unfold read_box, read_size in *.
  rewrite <- (slice_agree moov moov' i (i + 4)),
          <- (slice_agree moov moov' (i + 4) (i + 8));
    try done; try lia; try (eapply agree_sub; [exact Ha|lia|lia]).
  destruct (_u32 (slice moov i (i + 4)) =? 1) eqn:E1; [|done].
  destruct (i + 16 >? e) eqn:E16; [done|].
  injection Hz as _ Hz.
  rewrite <- (slice_agree moov moov' (i + 8) (i + 16)); try done; try lia.
  eapply agree_sub; [exact Ha|lia|lia].
Qed.

Lemma reachable_split moov i e b0 b :
  iter_boxes moov i e = b0 :: iter_boxes moov (i + box_size b0) e ->
  reachable moov i e b <->
  below moov b0 b \/ reachable moov (i + box_size b0) e b.
Proof.
  intros E. rewrite (reachable_cons moov i e b0 _ b E). unfold below. split.
  - intros [->|[(cs & ce & Hch & Hb)|[Hb|(c & cs & ce & Hc & Hch & Hb)]]].
    + by left; left.
    + left; right; eauto.
    + right. by apply reachable_here.
    + right. by eapply reachable_below.
  - intros [[->|(cs & ce & Hch & Hb)]|Hb]; auto.
    { right; left; eauto. }
    destruct Hb as [rs re b Hb|rs re c cs ce b Hc Hch Hb]; [auto|].
    right; right; right. eauto 6.
Qed.

(** No position of the first 16 bytes of a region lies in a table of the
    region. *)
Lemma in_table_after_header moov i e p :
  0 <= i -> in_table moov i e p -> i + 16 <= p.
Proof.
  intros Hi (b & w & ts & n & Hb & Ht & Hin).
  destruct (reachable_within _ _ _ _ Hi Hb) as (? & ? & ?).
  destruct (table_of_Some _ _ _ _ _ Ht) as (_ & -> & _). lia.
Qed.

Lemma in_table_within moov i e p :
  0 <= i -> in_table moov i e p -> i <= p < e.
Proof.
  intros Hi (b & w & ts & n & Hb & Ht & Hin).
  destruct (reachable_within _ _ _ _ Hi Hb) as (? & ? & ?).
  destruct (table_of_Some _ _ _ _ _ Ht) as (_ & -> & _ & ? & _). lia.
Qed.

(** A buffer that differs from [moov] only inside the tables of a region
    has the same boxes and the same tables in that region. *)
Lemma same_walk n : forall (moov moov' : bytes) i e,
  (Z.to_nat (e - i) <= n)%nat ->
  0 <= i -> e <= len moov ->
  length moov' = length moov ->
  (forall p : nat, i <= Z.of_nat p < e ->
     ~ in_table moov i e (Z.of_nat p) -> moov' !! p = moov !! p) ->
  iter_boxes moov' i e = iter_boxes moov i e
  /\ (forall b, reachable moov i e b ->
        reachable moov' i e b /\ table_of moov' b = table_of moov b)
  /\ (forall b, reachable moov' i e b -> reachable moov i e b).
Proof.
  induction n as [|n IH]; intros moov moov' i e Hn Hi He Hl H.
  all: assert (Hnil : iter_boxes moov i e = [] ->
         iter_boxes moov' i e = iter_boxes moov i e
         /\ (forall b, reachable moov i e b ->
               reachable moov' i e b /\ table_of moov' b = table_of moov b)
         /\ (forall b, reachable moov' i e b -> reachable moov i e b)).
  all: try (intros E;
    assert (Ha : agree moov moov' i e);
    [intros p Hp; symmetry; apply H; [done|];
     intros (b & w & ts & m & Hb & _); by apply reachable_nonempty in Hb|];
    assert (E' : iter_boxes moov' i e = iter_boxes moov i e)
      by (symmetry; by apply iter_boxes_local);
    split; [done|]; split;
    [intros b Hb; by apply reachable_nonempty in Hb
    |intros b Hb; apply reachable_nonempty in Hb; by rewrite E', E in Hb]).
  { apply Hnil, iter_boxes_short. lia. }
  destruct (Z_le_gt_dec (i + 8) e) as [G|G];
    [|apply Hnil, iter_boxes_short; lia].
  destruct (read_box moov i e) as [b0|] eqn:R;
    [|by apply Hnil, iter_boxes_break].
  clear Hnil.
  pose proof (iter_boxes_yield _ _ _ _ G R) as E.
  destruct (read_box_Some _ _ _ _ R) as (Hs & _ & Hz & Hhs & Hend).
  pose proof (read_size_header _ _ _ _ _ Hz) as Hh.
  assert (Hhdr : agree moov moov' i (i + box_header b0)).
  { intros p Hp. symmetry. apply H; [lia|].
    intros Hin. apply in_table_after_header in Hin; lia. }
  assert (R' : read_box moov' i e = Some b0)
    by (apply (read_box_header_local moov moov'); done).
  pose proof (iter_boxes_yield _ _ _ _ G R') as E'.
  (* the boxes after [b0] *)
  destruct (IH moov moov' (i + box_size b0) e) as (IR1 & IR2 & IR3);
    [lia|lia|lia|done| |].
  { intros p Hp Hno. apply H; [lia|].
    intros (b & w & ts & m & Hb & Ht & Hin). apply Hno.
    exists b, w, ts, m. split; [|done].
    apply (reachable_split moov i e b0 b E) in Hb.
    destruct Hb as [[->|(cs & ce & Hch & Hb)]|Hb]; [| |done].
    - destruct (table_of_Some _ _ _ _ _ Ht) as (_ & _ & _ & ? & _). lia.
    - apply children_Some in Hch. destruct Hch as (_ & ? & ->).
      apply reachable_within in Hb; [|lia].
      destruct (table_of_Some _ _ _ _ _ Ht) as (_ & _ & _ & ? & _). lia. }
  (* the boxes below [b0] *)
  assert (IC : forall cs ce, children b0 = Some (cs, ce) ->
    (forall b, reachable moov cs ce b ->
       reachable moov' cs ce b /\ table_of moov' b = table_of moov b)
    /\ (forall b, reachable moov' cs ce b -> reachable moov cs ce b)).
  { intros cs ce Hch.
    pose proof (children_Some _ _ _ Hch) as (Hc & ? & ->).
    destruct (IH moov moov' cs (box_start b0 + box_size b0)) as (_ & IC2 & IC3);
      [lia|lia|lia|done| |by split].
    intros p Hp Hno. apply H; [lia|].
    intros (b & w & ts & m & Hb & Ht & Hin). apply Hno.
    exists b, w, ts, m. split; [|done].
    apply (reachable_split moov i e b0 b E) in Hb.
    destruct Hb as [[->|(cs' & ce' & Hch' & Hb)]|Hb].
    - by rewrite container_not_table in Ht.
    - rewrite Hch in Hch'. by injection Hch' as <- <-.
    - apply reachable_within in Hb; [|lia].
      destruct (table_of_Some _ _ _ _ _ Ht) as (_ & -> & _). lia. }
  (* the table of [b0] *)
  assert (T0 : table_of moov' b0 = table_of moov b0).
  { destruct (decide (box_typ b0 ∈ ContainerBoxes)) as [Hc|Hc];
      [by rewrite !container_not_table|].
    assert (Hch0 : children b0 = None)
      by (unfold children; by rewrite bool_decide_eq_false_2).
    assert (Hin : forall w,
      table_in w moov' (box_start b0 + box_header b0) (box_start b0 + box_size b0)
      = table_in w moov (box_start b0 + box_header b0) (box_start b0 + box_size b0)).
    { intros w. unfold table_in.
      destruct (box_start b0 + box_header b0 + 8 >? box_start b0 + box_size b0)
        eqn:G8; [done|].
      rewrite (slice_agree moov' moov (box_start b0 + box_header b0 + 4)
                 (box_start b0 + box_header b0 + 8)); [done|done|lia| |].
      - unfold len in *. lia.
      - intros p Hp. apply H; [lia|].
        intros (b & w' & ts & m & Hb & Ht & Hin).
        destruct (table_of_Some _ _ _ _ _ Ht) as (_ & -> & _).
        apply (reachable_split moov i e b0 b E) in Hb.
        destruct Hb as [[->|(cs & ce & Hch & _)]|Hb].
        + lia.
        + by rewrite Hch0 in Hch.
        + apply reachable_within in Hb; lia. }
    unfold table_of. by rewrite !Hin. }
  split; [by rewrite E', E, IR1|]. split.
  - intros b Hb. apply (reachable_split moov i e b0 b E) in Hb.
    destruct Hb as [[->|(cs & ce & Hch & Hb)]|Hb].
    + split; [|done]. apply reachable_here. rewrite E'. by left.
    + destruct (IC cs ce Hch) as [IC2 _]. destruct (IC2 b Hb) as [Hb' Ht'].
      split; [|done]. eapply reachable_below; [|exact Hch|exact Hb'].
      rewrite E'. by left.
    + destruct (IR2 b Hb) as [Hb' Ht']. split; [|done].
      apply (reachable_split moov' i e b0 b E'). by right.
  - intros b Hb. apply (reachable_split moov' i e b0 b E') in Hb.
    apply (reachable_split moov i e b0 b E).
    destruct Hb as [[->|(cs & ce & Hch & Hb)]|Hb].
    + by left; left.
    + left; right. exists cs, ce. split; [done|].
      destruct (IC cs ce Hch) as [_ IC3]. by apply IC3.
    + right. by apply IR3.
Qed.

(** Such a buffer asks for as many nested calls. *)
Lemma same_depth n : forall (moov moov' : bytes) i e,
  (Z.to_nat (e - i) <= n)%nat ->
  0 <= i -> e <= len moov ->
  length moov' = length moov ->
  (forall p : nat, i <= Z.of_nat p < e ->
     ~ in_table moov i e (Z.of_nat p) -> moov' !! p = moov !! p) ->
  forall frames, too_deep moov' frames i e <-> too_deep moov frames i e.
Proof.
  induction n as [|n IH]; intros moov moov' i e Hn Hi He Hl H frames.
  all: destruct frames as [|frames]; [split; intros _; constructor|].
  all: assert (Hnil : iter_boxes moov i e = [] ->
         too_deep moov' (S frames) i e <-> too_deep moov (S frames) i e);
    [intros E;
     assert (Ha : agree moov moov' i e);
     [intros p Hp; symmetry; apply H; [done|];
      intros (b & w & ts & m & Hb & _); by apply reachable_nonempty in Hb|];
     assert (E' : iter_boxes moov' i e = []);
     [by rewrite <- (iter_boxes_local moov moov')|];
     split; intros Hd; exfalso;
     [by apply (too_deep_nonempty moov' frames i e E')
     |by apply (too_deep_nonempty moov frames i e E)]|].
  { apply Hnil, iter_boxes_short. lia. }
  destruct (Z_le_gt_dec (i + 8) e) as [G|G];
    [|apply Hnil, iter_boxes_short; lia].
  destruct (read_box moov i e) as [b0|] eqn:R;
    [|by apply Hnil, iter_boxes_break].
  clear Hnil.
  pose proof (iter_boxes_yield _ _ _ _ G R) as E.
  destruct (read_box_Some _ _ _ _ R) as (Hs & _ & Hz & Hhs & Hend).
  pose proof (read_size_header _ _ _ _ _ Hz) as Hh.
  assert (Hhdr : agree moov moov' i (i + box_header b0)).
  { intros p Hp. symmetry. apply H; [lia|].
    intros Hin. apply in_table_after_header in Hin; lia. }
  assert (R' : read_box moov' i e = Some b0)
    by (apply (read_box_header_local moov moov'); done).
  pose proof (iter_boxes_yield _ _ _ _ G R') as E'.
  rewrite (too_deep_split moov' frames i e b0 E'),
          (too_deep_split moov frames i e b0 E).
  (* the boxes after [b0] *)
  assert (IR : too_deep moov' (S frames) (i + box_size b0) e
               <-> too_deep moov (S frames) (i + box_size b0) e).
  { apply IH; [lia|lia|lia|done|].
    intros p Hp Hno. apply H; [lia|].
    intros (b & w & ts & m & Hb & Ht & Hin). apply Hno.
    exists b, w, ts, m. split; [|done].
    apply (reachable_split moov i e b0 b E) in Hb.
    destruct Hb as [[->|(cs & ce & Hch & Hb)]|Hb]; [| |done].
    - destruct (table_of_Some _ _ _ _ _ Ht) as (_ & _ & _ & ? & _). lia.
    - apply children_Some in Hch. destruct Hch as (_ & ? & ->).
      apply reachable_within in Hb; [|lia].
      destruct (table_of_Some _ _ _ _ _ Ht) as (_ & _ & _ & ? & _). lia. }
  (* the boxes below [b0] *)
  assert (IC : forall cs ce, children b0 = Some (cs, ce) ->
    too_deep moov' frames cs ce <-> too_deep moov frames cs ce).
  { intros cs ce Hch.
    pose proof (children_Some _ _ _ Hch) as (Hc & ? & ->).
    apply IH; [lia|lia|lia|done|].
    intros p Hp Hno. apply H; [lia|].
    intros (b & w & ts & m & Hb & Ht & Hin). apply Hno.
    exists b, w, ts, m. split; [|done].
    apply (reachable_split moov i e b0 b E) in Hb.
    destruct Hb as [[->|(cs' & ce' & Hch' & Hb)]|Hb].
    - by rewrite container_not_table in Ht.
    - rewrite Hch in Hch'. by injection Hch' as <- <-.
    - apply reachable_within in Hb; [|lia].
      destruct (table_of_Some _ _ _ _ _ Ht) as (_ & -> & _). lia. }
  rewrite IR. split.
  - intros [(cs & ce & Hch & Hd)|Hr]; [left|by right].
    exists cs, ce. split; [done|]. by apply IC.
  - intros [(cs & ce & Hch & Hd)|Hr]; [left|by right].
    exists cs, ce. split; [done|]. by apply IC.
Qed.

Lemma option_byte_dec (x y : option byte) : x = y \/ x <> y.
Proof.
  destruct x as [x|], y as [y|]; try (by left); try (by right).
  destruct (Byte.byte_eq_dec x y) as [->|Hne]; [by left|right].
  intros [= E]. by apply Hne.
Qed.

Lemma table_position w ts n p :
  0 < w -> ts <= p < ts + n * w ->
  exists k, 0 <= k < n /\ ts + k * w <= p < ts + k * w + w.
Proof.
  intros Hw Hp. exists ((p - ts) / w).
  pose proof (Z.div_mod (p - ts) w ltac:(lia)) as Hd.
  pose proof (Z.mod_pos_bound (p - ts) w Hw) as Hm.
  assert (0 <= (p - ts) / w) by (apply Z.div_pos; lia).
  assert ((p - ts) / w < n) by (apply Z.div_lt_upper_bound; lia).
  nia.
Qed.

(** Two buffers with the same entry hold the same bytes there. *)
Lemma entry_bytes w ts (m1 m2 : bytes) k (p : nat) :
  length m1 = length m2 ->
  0 < w -> 0 <= ts -> 0 <= k -> ts + k * w + w <= len m1 ->
  entry w ts m1 k = entry w ts m2 k ->
  ts + k * w <= Z.of_nat p < ts + k * w + w ->
  m1 !! p = m2 !! p.
Proof.
  intros Hl Hw Hts Hk Hb He Hp. unfold entry in He.
  assert (Hb2 : ts + k * w + w <= len m2) by (unfold len in *; lia).
  apply from_bytes_inj in He.
  2:{ rewrite !length_slice by nia. done. }
  assert (Hj : p = (Z.to_nat (ts + k * w) + (p - Z.to_nat (ts + k * w)))%nat)
    by nia.
  rewrite Hj.
  rewrite <- (slice_lookup m1 (ts + k * w) (ts + k * w + w)) by nia.
  rewrite <- (slice_lookup m2 (ts + k * w) (ts + k * w + w)) by nia.
  by rewrite He.
Qed.

(** The effect of a run over the whole bytearray determines its result. *)
Lemma effect_unique delta (moov m1 m2 : bytes) :
  effect delta moov (reachable moov 0 (len moov)) 0 (len moov) m1 ->
  effect delta moov (reachable moov 0 (len moov)) 0 (len moov) m2 ->
  m1 = m2.
Proof.
  intros (Hl1 & _ & _ & Hent1 & Hfr1 & _) (Hl2 & _ & _ & Hent2 & Hfr2 & _).
  apply list_eq. intros p.
  destruct (decide (p < length moov)%nat) as [Hp|Hp].
  2:{ rewrite !lookup_ge_None_2; [done|lia|lia]. }
  destruct (option_byte_dec (m1 !! p) (m2 !! p)) as [|Hne]; [done|exfalso].
  assert (Hno : ~ (exists b w ts n,
            reachable moov 0 (len moov) b /\ table_of moov b = Some (w, ts, n)
            /\ ts <= Z.of_nat p < ts + n * w)).
  { intros (b & w & ts & n & Hb & Ht & Hin). apply Hne.
    destruct (reachable_within _ _ _ _ ltac:(done) Hb) as (? & ? & ?).
    destruct (table_of_Some _ _ _ _ _ Ht) as (Hw & Hts & Hn & Hext & _).
    destruct (table_position w ts n (Z.of_nat p)) as (k & Hk & Hpk); [lia|done|].
    apply (entry_bytes w ts m1 m2 k p); try lia.
    - unfold len in *. nia.
    - rewrite (Hent1 b w ts n k), (Hent2 b w ts n k); done. }
  apply Hne. rewrite Hfr1, Hfr2; try done; unfold len; lia.
Qed.

Lemma effect_zero (moov : bytes) (R : box -> Prop) lo hi :
  effect 0 moov R lo hi moov.
Proof. repeat split; try done. intros. lia. Qed.







Lemma adjust_chunk_offsets_zero_done frames (moov m : bytes) :
  adjust_chunk_offsets frames moov 0 = Done m -> m = moov.
Proof.
  intros E. apply adjust_chunk_offsets_effect in E.
  apply (effect_unique 0 moov); [done|apply effect_zero].
Qed.


(** After a run that returned, the bytearray has the boxes and the tables
    it had. *)
Lemma adjust_chunk_offsets_same_walk frames moov delta moov' :
  adjust_chunk_offsets frames moov delta = Done moov' ->
  iter_boxes moov' 0 (len moov') = iter_boxes moov 0 (len moov)
  /\ (forall b, reachable moov 0 (len moov) b ->
        reachable moov' 0 (len moov') b /\ table_of moov' b = table_of moov b)
  /\ (forall b, reachable moov' 0 (len moov') b -> reachable moov 0 (len moov) b).
Proof.
  intros H. apply adjust_chunk_offsets_effect in H.
  destruct H as (Hl & _ & _ & _ & Hfr & _).
  assert (Hlen : len moov' = len moov) by (unfold len; lia). rewrite Hlen.
  apply (same_walk (Z.to_nat (len moov - 0))); [lia|lia|lia|done|].
  intros p Hp Hno. by apply Hfr.
Qed.

(** And its boxes nest as deep as they did. *)
Lemma adjust_chunk_offsets_same_depth frames moov delta moov' :
  adjust_chunk_offsets frames moov delta = Done moov' ->
  forall d, too_deep moov' d 0 (len moov') <-> too_deep moov d 0 (len moov).
Proof.
  intros H. apply adjust_chunk_offsets_effect in H.
  destruct H as (Hl & _ & _ & _ & Hfr & _).
  assert (Hlen : len moov' = len moov) by (unfold len; lia). rewrite Hlen.
  apply (same_depth (Z.to_nat (len moov - 0))); [lia|lia|lia|done|].
  intros p Hp Hno. by apply Hfr.
Qed.

Lemma adjust_chunk_offsets_twice_run frames moov d1 d2 m1 m2 :
  adjust_chunk_offsets frames moov d1 = Done m1 ->
  adjust_chunk_offsets frames m1 d2 = Done m2 ->
  adjust_chunk_offsets frames moov (d1 + d2) = Done m2.
Proof.
  intros H1 H2.
  destruct (adjust_chunk_offsets_same_walk _ _ _ _ H1) as (_ & Sa & Sc).
  pose proof (adjust_chunk_offsets_room _ _ _ _ H1) as Hroom.
  apply adjust_chunk_offsets_effect in H1, H2.
  destruct H1 as (Hl1 & _ & _ & Hent1 & Hfr1 & Hleaf1).
  destruct H2 as (Hl2 & _ & _ & Hent2 & Hfr2 & Hleaf2).
  assert (Hlen : len m1 = len moov) by (unfold len; lia).
  assert (E12 : effect (d1 + d2) moov (reachable moov 0 (len moov))
                  0 (len moov) m2).
  { repeat split.
    - congruence.
    - intros p Hp. lia.
    - intros p Hp. unfold len in *. rewrite lookup_ge_None_2 by lia.
      by rewrite lookup_ge_None_2 by lia.
    - intros b w ts n k Hb Ht Hk.
      destruct (Sa b Hb) as [Hb1 Ht1].
      rewrite (Hent2 b w ts n k); [|done|congruence|done].
      rewrite (Hent1 b w ts n k); [lia|done..].
    - intros p Hp Hno. rewrite Hfr2; [by apply Hfr1|lia|].
      intros (b & w & ts & n & Hb & Ht & Hin). apply Hno.
      exists b, w, ts, n. pose proof (Sc b Hb) as Hb0.
      destruct (Sa b Hb0) as [_ Ht0]. split; [done|]. split; [congruence|done].
    - intros b Hb Hc Ht. destruct (Sa b Hb) as [Hb1 Ht1].
      eapply agree_trans; [apply Hleaf2; [done|done|congruence]|].
      by apply Hleaf1. }
  destruct (adjust_chunk_offsets frames moov (d1 + d2)) as [m|m|m] eqn:E.
  - f_equal. apply adjust_chunk_offsets_effect in E.
    by apply (effect_unique (d1 + d2) moov).
  - apply adjust_chunk_offsets_raised in E.
    destruct E as (b & w & ts & n & k & Hb & Ht & Hk & Hbad).
    destruct (reachable_within _ _ _ _ ltac:(done) Hb) as (? & ? & ?).
    destruct (table_of_Some _ _ _ _ _ Ht) as (Hw & Hts & Hn & Hext & _).
    destruct E12 as (Hl & _ & _ & Hent & _).
    exfalso. apply Hbad. rewrite <- (Hent b w ts n k Hb Ht Hk).
    apply entry_range; [lia|nia|]. unfold len in *. nia.
  - by apply adjust_chunk_offsets_no_room in E.
Qed.


(** X15.  A run of [adjust_chunk_offsets] that returns changes no box:
    the walk of the rewritten bytearray yields the same boxes, the same
    boxes are reachable through the container tags, and each of them has
    the same table (place, entry width and entry count). *)
Theorem adjust_chunk_offsets_keeps_boxes (frames : nat) (moov : bytes) (delta : Z)
    (moov' : bytes) :
  adjust_chunk_offsets frames moov delta = Done moov' ->
  iter_boxes moov' 0 (len moov') = iter_boxes moov 0 (len moov)
  /\ (forall b, reachable moov' 0 (len moov') b <-> reachable moov 0 (len moov) b)
  /\ (forall b, reachable moov 0 (len moov) b ->
        table_of moov' b = table_of moov b).
Proof.
  intros H. destruct (adjust_chunk_offsets_same_walk _ _ _ _ H) as (S1 & Sa & Sc).
  split; [done|]. split.
  - intros b. split; [apply Sc|]. intros Hb. by apply Sa.
  - intros b Hb. by apply Sa.
Qed.

Lemma adjust_chunk_offsets_keeps_boxes_witness :
  iter_boxes (buffer (adjust_chunk_offsets 1000 moov_ok 7)) 0
             (len (buffer (adjust_chunk_offsets 1000 moov_ok 7)))
  = iter_boxes moov_ok 0 (len moov_ok).
Proof.
  by destruct (adjust_chunk_offsets_keeps_boxes 1000 moov_ok 7
                 (buffer (adjust_chunk_offsets 1000 moov_ok 7)) eq_refl).
Defined.

(** X16.  Two runs of [adjust_chunk_offsets] that return, one after the
    other, make of the bytearray what one run with the sum of the deltas
    makes of it, and that run returns too. *)
Theorem adjust_chunk_offsets_twice (frames : nat) (moov : bytes) (d1 d2 : Z)
    (m1 m2 : bytes) :
  adjust_chunk_offsets frames moov d1 = Done m1 ->
  adjust_chunk_offsets frames m1 d2 = Done m2 ->
  adjust_chunk_offsets frames moov (d1 + d2) = Done m2.
Proof. apply adjust_chunk_offsets_twice_run. Qed.

Lemma adjust_chunk_offsets_twice_witness :
  adjust_chunk_offsets 1000 moov_ok (7 + 5)
  = Done (buffer (adjust_chunk_offsets 1000
                    (buffer (adjust_chunk_offsets 1000 moov_ok 7)) 5)).
Proof.
  apply (adjust_chunk_offsets_twice 1000 moov_ok 7 5
           (buffer (adjust_chunk_offsets 1000 moov_ok 7))); reflexivity.
Defined.

(** X17.  A run of [adjust_chunk_offsets] that returns is undone by a run
    with the opposite delta: that run returns, and gives back the
    bytearray the first run started from. *)
Theorem adjust_chunk_offsets_undo (frames : nat) (moov : bytes) (delta : Z)
    (moov' : bytes) :
  adjust_chunk_offsets frames moov delta = Done moov' ->
  adjust_chunk_offsets frames moov' (- delta) = Done moov.
Proof.
  intros H.
  destruct (adjust_chunk_offsets frames moov' (- delta)) as [m|m|m] eqn:E.
  - pose proof (adjust_chunk_offsets_twice_run _ _ _ _ _ _ H E) as H0.
    replace (delta + - delta) with 0 in H0 by lia.
    apply adjust_chunk_offsets_zero_done in H0. by rewrite H0.
  - exfalso. apply adjust_chunk_offsets_raised in E.
    destruct E as (b & w & ts & n & k & Hb & Ht & Hk & Hbad).
    destruct (adjust_chunk_offsets_same_walk _ _ _ _ H) as (_ & Sa & Sc).
    pose proof (Sc b Hb) as Hb0. destruct (Sa b Hb0) as [_ Ht0].
    rewrite Ht0 in Ht.
    apply adjust_chunk_offsets_effect in H.
    destruct H as (Hl & _ & _ & Hent & _).
    destruct (reachable_within _ _ _ _ ltac:(done) Hb0) as (? & ? & ?).
    destruct (table_of_Some _ _ _ _ _ Ht) as (Hw & Hts & Hn & Hext & _).
    apply Hbad. rewrite (Hent b w ts n k Hb0 Ht Hk).
    replace (entry w ts moov k + delta + - delta) with (entry w ts moov k) by lia.
    apply entry_range; [lia|nia|nia].
  - exfalso. apply adjust_chunk_offsets_no_room in E.
    apply (adjust_chunk_offsets_same_depth _ _ _ _ H) in E.
    by apply (adjust_chunk_offsets_room _ _ _ _ H).
Qed.

Lemma adjust_chunk_offsets_undo_witness :
  adjust_chunk_offsets 1000 (buffer (adjust_chunk_offsets 1000 moov_ok 7)) (- 7)
  = Done moov_ok.
Proof.
  apply (adjust_chunk_offsets_undo 1000 moov_ok 7). reflexivity.
Defined.

(** ** The audit of a file *)

Lemma locate_video_trak_result (buf : bytes) :
  locate_video_trak buf = Return None
  \/ exists t, is_video_trak buf t
               /\ locate_video_trak buf = Return (Some (span_of t)).
Proof.
  unfold locate_video_trak, find_first.
  destruct (walk buf (lit "moov") [] 0 (len buf)) as [[[ms msz] mh]|];
    [|by left].
  destruct (scan_traks_result buf (iter_boxes buf (ms + mh) (ms + msz)) _ eq_refl)
    as [H|(t & _ & Hv & H)]; [by left|right]. by exists t.
Qed.

(** X18.  [audit_file] never prints its "missing mdia" message, and no
    [IndexError] escapes from it: the track that [locate_video_trak]
    returns has an [mdia], the one its handler was read from. *)
Theorem audit_file_never_missing_mdia (buf : bytes) :
  audit_file buf <> Missing_mdia /\ audit_file buf <> Audit_IndexError.
Proof.
  unfold audit_file.
  destruct (locate_video_trak_result buf) as [->|(t & [_ Hh] & ->)]; [done|].
  unfold span_of. unfold trak_handler in Hh.
  destruct (first_tagged (lit "mdia") _) as [[[ms msz] mh]|]; [|done].
  destruct (scan_mdia buf _ None None None) as [[[[[a1 a2] a3]|] [[[b1 b2] b3]|]] c];
    try done.
  by destruct (parse_mdhd buf a1 a2 a3) as [[ts d]|].
Qed.

Lemma elem_of_rev_1 (c : box) (l : list box) : c ∈ rev l -> c ∈ l.
Proof.
  intros H. apply list_elem_of_In, in_rev. by apply list_elem_of_In.
Qed.

Lemma first_tagged_app t (l1 l2 : list box) :
  first_tagged t (l1 ++ l2) =
  match first_tagged t l1 with
  | Some x => Some x
  | None => first_tagged t l2
  end.
Proof.
  induction l1 as [|b l1 IH]; [done|]. simpl.
  by destruct (bool_decide (box_typ b = t)).
Qed.

Lemma last_tagged_cons t b (l : list box) :
  last_tagged t (b :: l) =
  match last_tagged t l with
  | Some x => Some x
  | None => if bool_decide (box_typ b = t) then Some (span_of b) else None
  end.
Proof.
  unfold last_tagged. simpl rev. rewrite first_tagged_app. simpl.
  by destruct (first_tagged t (rev l)).
Qed.

Lemma scan_stbl_last (boxes : list box) : forall stsz_box stss_box,
  scan_stbl boxes stsz_box stss_box =
  (match last_tagged (lit "stsz") boxes with
   | Some x => Some x
   | None => stsz_box
   end,
   match last_tagged (lit "stss") boxes with
   | Some x => Some x
   | None => stss_box
   end).
Proof.
  induction boxes as [|b l IH]; intros s t; [done|].
  simpl scan_stbl. rewrite IH, !last_tagged_cons.
  destruct (last_tagged (lit "stsz") l), (last_tagged (lit "stss") l),
    (bool_decide (box_typ b = lit "stsz")),
    (bool_decide (box_typ b = lit "stss")); done.
Qed.

Lemma scan_mdia_mdhd (buf : bytes) (boxes : list box) :
  forall mdhd_box stsz_box stss_box,
    (scan_mdia buf boxes mdhd_box stsz_box stss_box).1.1 =
    match last_tagged (lit "mdhd") boxes with
    | Some x => Some x
    | None => mdhd_box
    end.
Proof.
  induction boxes as [|b l IH]; intros m s t; [done|].
  simpl scan_mdia.
  destruct (if bool_decide (box_typ b = lit "minf") then _ else _) as [s' t'].
  rewrite IH, last_tagged_cons.
  by destruct (last_tagged (lit "mdhd") l), (bool_decide (box_typ b = lit "mdhd")).
Qed.

(** X19.  The loops of [audit_file] over the children of [mdia] and of
    [stbl] have no [break]: the [mdhd] that is decoded is the last [mdhd]
    child of [mdia], and an [stbl] contributes its last [stsz] and its
    last [stss], each replacing what an earlier box had given; where no
    such box is met, what was found before stays. *)
Theorem audit_scans_take_last (buf : bytes) (boxes : list box)
    (mdhd_box stsz_box stss_box : option span) :
  (scan_mdia buf boxes mdhd_box stsz_box stss_box).1.1 =
  match last_tagged (lit "mdhd") boxes with
  | Some x => Some x
  | None => mdhd_box
  end
  /\ scan_stbl boxes stsz_box stss_box =
     (match last_tagged (lit "stsz") boxes with
      | Some x => Some x
      | None => stsz_box
      end,
      match last_tagged (lit "stss") boxes with
      | Some x => Some x
      | None => stss_box
      end)
  /\ (forall pre b post,
         boxes = pre ++ b :: post ->
         Forall (fun c => box_typ c <> box_typ b) post ->
         last_tagged (box_typ b) boxes = Some (span_of b))
  /\ (forall t,
         Forall (fun c => box_typ c <> t) boxes -> last_tagged t boxes = None).
Proof.
  split; [apply scan_mdia_mdhd|]. split; [apply scan_stbl_last|]. split.
  - intros pre b post -> Hpost. unfold last_tagged.
    rewrite rev_app_distr. simpl rev. rewrite <- app_assoc, first_tagged_app.
    assert (Hn : first_tagged (box_typ b) (rev post) = None).
    { apply first_tagged_None. rewrite Forall_forall in *.
      intros c Hc. apply Hpost. by apply elem_of_rev_1. }
    rewrite Hn. simpl. by rewrite bool_decide_eq_true_2.
  - intros t H. unfold last_tagged. apply first_tagged_None.
    rewrite Forall_forall in *. intros c Hc. apply H. by apply elem_of_rev_1.
Qed.

Lemma audit_scans_take_last_witness :
  last_tagged (lit "mdhd")
    (iter_boxes (mdhd_v0 1 2 ++ mdhd_v0 3 4) 0 56)
  = Some (28, 28, 8).
Proof.
  destruct (audit_scans_take_last [] (iter_boxes (mdhd_v0 1 2 ++ mdhd_v0 3 4) 0 56)
              None None None) as (_ & _ & H & _).
  apply (H [Box (lit "mdhd") 0 28 8] (Box (lit "mdhd") 28 28 8) []).
  - reflexivity.
  - constructor.
Defined.

(** ** The check after the write *)

Lemma cursor_ge (buf : bytes) e s i pre : cursor buf e s i pre -> s <= i.
Proof.
  induction 1 as [|i pre b _ IH G R]; [lia|].
  pose proof (read_box_advance _ _ _ _ R). lia.
Qed.

Lemma cursor_trans (buf : bytes) e s i j pre pre' :
  cursor buf e s i pre -> cursor buf e i j pre' ->
  cursor buf e s j (pre ++ pre').
Proof.
  intros H1 H2. induction H2 as [|j pre' b _ IH G R].
  - by rewrite app_nil_r.
  - rewrite app_assoc. by apply cursor_step.
Qed.

(** The walk comes to every box it yields. *)
Lemma elem_cursor (buf : bytes) s e b :
  b ∈ iter_boxes buf s e ->
  exists pre, cursor buf e s (box_start b) pre
              /\ box_start b + 8 <= e
              /\ read_box buf (box_start b) e = Some b.
Proof.
  revert b. apply (walk_ind buf (fun i e l =>
    forall b, b ∈ l ->
      exists pre, cursor buf e i (box_start b) pre
                  /\ box_start b + 8 <= e
                  /\ read_box buf (box_start b) e = Some b)).
  - intros i e' _ b Hb. by apply elem_of_nil in Hb.
  - intros i e' b0 G R IH b Hb.
    destruct (read_box_Some _ _ _ _ R) as (Hs & _).
    apply elem_of_cons in Hb. destruct Hb as [->|Hb].
    + exists []. rewrite Hs. split; [apply cursor_start|done].
    + destruct (IH b Hb) as (pre & Hc & G' & R').
      exists ([b0] ++ pre). split; [|done].
      eapply cursor_trans; [|exact Hc].
      apply (cursor_step buf e' i i [] b0); [apply cursor_start|done..].
Qed.

(** The walk up to a cursor reads nothing from the cursor on. *)
Lemma cursor_local (buf buf' : bytes) e s i pre :
  cursor buf e s i pre ->
  length buf = length buf' ->
  0 <= s -> e <= len buf ->
  agree buf buf' s i ->
  cursor buf' e s i pre.
Proof.
  intros Hc Hl Hs He. induction Hc as [|i pre b Hc IH G R]; intros Ha.
  - apply cursor_start.
  - pose proof (cursor_ge _ _ _ _ _ Hc).
    destruct (read_box_Some _ _ _ _ R) as (_ & _ & Hz & Hhs & _).
    pose proof (read_size_header _ _ _ _ _ Hz) as Hh.
    apply cursor_step; [|done|].
    + apply IH. eapply agree_sub; [exact Ha|lia|lia].
    + apply (read_box_header_local buf buf'); try done; try lia.
      eapply agree_sub; [exact Ha|lia|lia].
Qed.

Lemma slice_shift (buf buf' : bytes) lo lo' n :
  0 <= lo -> 0 <= lo' -> 0 <= n ->
  lo + n <= len buf -> lo' + n <= len buf' ->
  (forall j : nat, Z.of_nat j < n ->
     buf' !! (Z.to_nat lo' + j)%nat = buf !! (Z.to_nat lo + j)%nat) ->
  slice buf' lo' (lo' + n) = slice buf lo (lo + n).
Proof.
  intros Hlo Hlo' Hn Hb Hb' H. apply list_eq. intros j.
  destruct (decide (Z.of_nat j < n)) as [Hj|Hj].
  - rewrite !slice_lookup by lia. by apply H.
  - rewrite !lookup_ge_None_2; [done|rewrite length_slice by lia; lia..].
Qed.

(** A header read elsewhere, with at least as much room behind it, gives
    a box with the same tag and header length. *)
Lemma read_box_shift (buf buf' : bytes) i i' e e' b :
  read_box buf i e = Some b ->
  0 <= i -> i + 8 <= e -> e <= len buf ->
  0 <= i' -> e' <= len buf' ->
  e - i <= e' - i' ->
  (forall j : nat, Z.of_nat j < box_header b ->
     buf' !! (Z.to_nat i' + j)%nat = buf !! (Z.to_nat i + j)%nat) ->
  exists b', read_box buf' i' e' = Some b'
             /\ box_typ b' = box_typ b /\ box_start b' = i'.
Proof.
  intros R Hi G He Hi' He' Hroom H.
  destruct (read_box_Some _ _ _ _ R) as (Hs & Ht & Hz & Hhs & Hend).
  pose proof (read_size_header _ _ _ _ _ Hz) as Hh.
  assert (Hsub : forall a n, 0 <= a -> 0 <= n -> a + n <= box_header b ->
            slice buf' (i' + a) (i' + a + n) = slice buf (i + a) (i + a + n)).
  { intros a n Ha Hn Han. apply slice_shift; try lia.
    intros j Hj.
    replace (Z.to_nat (i' + a) + j)%nat with (Z.to_nat i' + (Z.to_nat a + j))%nat
      by lia.
    replace (Z.to_nat (i + a) + j)%nat with (Z.to_nat i + (Z.to_nat a + j))%nat
      by lia.
    apply H. lia. }
  assert (S4 : slice buf' i' (i' + 4) = slice buf i (i + 4)).
  { pose proof (Hsub 0 4) as S. rewrite !Z.add_0_r in S. apply S; lia. }
  assert (S8 : slice buf' (i' + 4) (i' + 8) = slice buf (i + 4) (i + 8)).
  { pose proof (Hsub 4 4) as S.
    replace (i' + 4 + 4) with (i' + 8) in S by lia.
    replace (i + 4 + 4) with (i + 8) in S by lia. apply S; lia. }
  unfold read_box, read_size in *. rewrite S4, S8.
  destruct (_u32 (slice buf i (i + 4)) =? 1) eqn:E1.
  - destruct (i + 16 >? e) eqn:E16; [done|]. injection Hz as Hz1 Hz2.
    assert (S16 : slice buf' (i' + 8) (i' + 16) = slice buf (i + 8) (i + 16)).
    { pose proof (Hsub 8 8) as S.
      replace (i' + 8 + 8) with (i' + 16) in S by lia.
      replace (i + 8 + 8) with (i + 16) in S by lia. apply S; lia. }
    destruct (i' + 16 >? e') eqn:E16'; [lia|]. rewrite S16, Hz1.
    destruct (box_size b <? 16) eqn:E2; [lia|].
    destruct (i' + box_size b >? e') eqn:E3; [lia|].
    eexists. split; [done|]. by rewrite Ht.
  - destruct (_u32 (slice buf i (i + 4)) =? 0) eqn:E0.
    + destruct (e' - i' <? 8) eqn:E2; [lia|].
      destruct (i' + (e' - i') >? e') eqn:E3; [lia|].
      eexists. split; [done|]. by rewrite Ht.
    + injection Hz as Hz1 Hz2.
      destruct (_u32 (slice buf i (i + 4)) <? 8) eqn:E2; [lia|].
      destruct (i' + _u32 (slice buf i (i + 4)) >? e') eqn:E3; [lia|].
      eexists. split; [done|]. by rewrite Ht.
Qed.

(** What is written, byte by byte, before the insertion point and where
    [moov] now stands. *)
Lemma rebuilt_prefix (data moov_bytes : bytes) insert_at moov_start moov_size :
  0 <= insert_at <= moov_start -> 0 <= moov_size ->
  moov_start + moov_size <= len data ->
  length moov_bytes = Z.to_nat moov_size ->
  let rebuilt :=
    slice_to data insert_at ++ moov_bytes
    ++ slice data insert_at moov_start
    ++ slice_from data (moov_start + moov_size) in
  length rebuilt = length data
  /\ agree data rebuilt 0 insert_at
  /\ (forall j : nat, Z.of_nat j < moov_size ->
        rebuilt !! (Z.to_nat insert_at + j)%nat = moov_bytes !! j).
Proof.
  intros Hins Hsz Hb Hl rebuilt. subst rebuilt. unfold slice_to, slice_from.
  assert (L1 : length (slice data 0 insert_at) = Z.to_nat insert_at)
    by (rewrite length_slice by lia; lia).
  repeat split.
  - rewrite !length_app, L1, Hl, !length_slice by lia. unfold len in *. lia.
  - intros p Hp. rewrite lookup_app_l by lia.
    rewrite slice_lookup by lia. f_equal.
  - intros j Hj. rewrite lookup_app_r by lia.
    rewrite lookup_app_l by lia. f_equal. lia.
Qed.

(** X20.  The check that [process_file] makes after the write always
    finds a [moov]: [check_atoms["moov"]] never raises [KeyError].  The
    written file has a top-level box tagged [moov] that starts right at
    the insertion point, the end of the [ftyp] of the file read. *)
Theorem process_file_check_passes (frames : nat) (data rebuilt : bytes) (check : option (Z * Z)) :
  process_file frames data = Wrote rebuilt check ->
  is_Some check
  /\ exists ftyp_start ftyp_size ftyp_header b,
       find_top_level_atoms data !! lit "ftyp"
       = Some (ftyp_start, ftyp_size, ftyp_header)
       /\ b ∈ iter_boxes rebuilt 0 (len rebuilt)
       /\ box_typ b = lit "moov"
       /\ box_start b = ftyp_start + ftyp_size.
Proof.
  intros Hp.
  destruct (find_top_level_atoms data !! lit "moov") as [[[ms msz] mh]|] eqn:Hm.
  2:{ unfold process_file in Hp. by rewrite Hm in Hp. }
  destruct (find_top_level_atoms data !! lit "ftyp") as [[[fs fsz] fh]|] eqn:Hf.
  2:{ unfold process_file in Hp. by rewrite Hm, Hf in Hp. }
  assert (Hw : written (process_file frames data) = Some rebuilt) by (by rewrite Hp).
  apply (process_file_written frames data _ _ _ _ _ _ Hm Hf) in Hw.
  destruct Hw as (_ & Hins & Hle & M & Ha & Hr).
  pose proof (find_top_level_atoms_start _ _ _ _ _ Hm) as (? & ? & ?).
  pose proof (find_top_level_atoms_start _ _ _ _ _ Hf) as (? & ? & ?).
  (* the boxes of the file read *)
  apply find_top_level_atoms_elem in Hm, Hf.
  destruct Hm as (m & Hm & Hmt & Hms), Hf as (f & Hf' & Hft & Hfs).
  destruct m as [tm sm zm hm], f as [tf sf zf hf]. unfold span_of in *.
  simpl in *. injection Hms as -> -> ->. injection Hfs as -> -> ->.
  subst tm tf.
  destruct (elem_cursor _ _ _ _ Hm) as (prem & _ & Gm & Rm).
  destruct (elem_cursor _ _ _ _ Hf') as (pre & Cf & Gf & Rf). simpl in *.
  pose proof (cursor_step _ _ _ _ _ _ Cf Gf Rf) as Cins. simpl in Cins.
  (* the file written *)
  pose proof (adjust_chunk_offsets_effect _ _ _ _ Ha) as (Hl & _ & _ & _ & Hfr & _).
  rewrite length_slice in Hl by lia.
  destruct (rebuilt_prefix data M (fs + fsz) ms msz) as (Lr & Ar & Mr);
    [lia|lia|lia|lia|]. rewrite <- Hr in Lr, Ar, Mr.
  assert (Hlen : len rebuilt = len data) by (unfold len; lia).
  apply (cursor_local data rebuilt) in Cins; [|done|lia|lia|done].
  destruct (read_box_shift data rebuilt ms (fs + fsz) (len data) (len data)
              (Box (lit "moov") ms msz mh)) as (b' & Rb & Tb & Sb);
    try done; try lia.
  { simpl. intros j Hj.
    destruct (read_box_Some _ _ _ _ Rm) as (_ & _ & Hz & Hhs & _). simpl in *.
    pose proof (read_size_header _ _ _ _ _ Hz) as Hh.
    rewrite Mr by lia. rewrite Hfr.
    - rewrite slice_lookup by lia. done.
    - unfold len. rewrite length_slice by lia. unfold len in *. lia.
    - intros Hin.
      assert (Hin' : in_table (slice data ms (ms + msz)) 0
                       (len (slice data ms (ms + msz))) (Z.of_nat j)) by exact Hin.
      apply in_table_after_header in Hin'; lia. }
  assert (Hb' : b' ∈ iter_boxes rebuilt 0 (len rebuilt)).
  { rewrite Hlen, (cursor_iter_boxes _ _ _ _ _ Cins).
    assert (Gi : fs + fsz + 8 <= len data) by lia.
    rewrite (iter_boxes_yield _ _ _ _ Gi Rb).
    apply elem_of_app. right. by left. }
  split.
  - unfold process_file in Hp.
    assert (Hk : is_Some (find_top_level_atoms rebuilt !! lit "moov")).
    { destruct (find_top_level_atoms rebuilt !! lit "moov") as [sp|] eqn:E;
        [by exists sp|].
      apply find_top_level_atoms_None in E. rewrite Forall_forall in E.
      by destruct (E b' Hb'). }
    clear - Hp Hk.
    destruct (find_top_level_atoms data !! lit "moov") as [[[a1 a2] a3]|];
      [|done].
    destruct (find_top_level_atoms data !! lit "ftyp") as [[[c1 c2] c3]|];
      [|done].
    destruct (default _ _) as [[d1 d2] d3].
    destruct (moov_is_faststart _ _ _); [done|].
    destruct (_ || _); [done|]. destruct (_ <? _); [done|].
    destruct (adjust_chunk_offsets _ _ _) as [M'|M'|M']; [|done|done].
    injection Hp as Hp1 Hp2. rewrite Hp1 in Hp2.
    destruct Hk as [[[n1 n2] n3] Hk]. rewrite Hk in Hp2.
    destruct (default _ _) as [[e1 e2] e3]. by rewrite <- Hp2.
  - by exists fs, fsz, fh, b'.
Qed.

Lemma process_file_check_passes_witness :
  is_Some (match process_file 1000 slow_file with
           | Wrote _ check => check
           | _ => None
           end).
Proof.
  destruct (process_file 1000 slow_file) as [| | | | | |rebuilt check] eqn:E;
    try (vm_compute in E; discriminate).
  by destruct (process_file_check_passes 1000%nat slow_file rebuilt check E).
Defined.
